(** * Spider Knowledge Base: search, snippet, title and export engine

    A shallow embedding of the pure logic of the [KnowledgeBase] component
    ([src/app/knowledge-base.tsx], and its later revision with the export
    pipeline): [search], [getSnippet], [getTitle], [escapeCSV],
    [exportPages], [exportSinglePage], [exportAll], [exportDomain] and the
    totals [totalPages] and [totalSize].

    JavaScript strings are sequences of UTF-16 code units; they are modelled
    as [list N].  The regular expressions of the source are translated into
    structurally recursive scanners, one per expression, each documented
    with the expression it stands for and, further down, proved against a
    declarative reading of that expression.  Numbers are integral: status
    codes, byte lengths and [Date.now()] milliseconds.  What the platform
    provides is modelled after ECMAScript ([Array.prototype.sort],
    [Date.prototype.toISOString], [JSON.stringify], [JSON.parse]) or taken
    as a parameter ([String.prototype.toLowerCase], the URL parser).  The
    React state and the page store are threaded through a state monad, and
    an exception is a result of its own. *)

From Stdlib Require Import ZArith NArith QArith Lqa List String Ascii Lia Sorted
  Permutation.
From Stdlib Require DecimalFacts DecimalPos.
From stdpp Require Import gmap sorting.
Close Scope Q_scope.
Close Scope string_scope.
Set Warnings "-register-all,-abstract-large-number".

(** ** JavaScript strings *)

Abbreviation jsstring := (list N).

(** A string literal of the source, as code units. *)
Definition js (s : string) : jsstring :=
  List.map N_of_ascii (list_ascii_of_string s).

(** Code units singled out by the source. *)
Definition LT_SIGN : N := 60.      (* '<' *)
Definition GT_SIGN : N := 62.      (* '>' *)
Definition SPACE : N := 32.
Definition NEWLINE : N := 10.
Definition COMMA : N := 44.
Definition DQUOTE : N := 34.
Definition HASH : N := 35.
Definition UNDERSCORE : N := 95.
Definition BACKSLASH : N := 92.

(** [\s] of a regular expression, and the characters removed by
    [String.prototype.trim]: WhiteSpace and LineTerminator of ECMAScript. *)
Definition is_ws (c : N) : bool :=
  ((9 <=? c) && (c <=? 13) || (c =? 32) || (c =? 160) || (c =? 5760)
   || (8192 <=? c) && (c <=? 8202) || (c =? 8232) || (c =? 8233)
   || (c =? 8239) || (c =? 8287) || (c =? 12288) || (c =? 65279))%N.

(** LineTerminator: the characters [.] does not match and after which
    [^] matches under the [m] flag. *)
Definition is_line_terminator (c : N) : bool :=
  ((c =? 10) || (c =? 13) || (c =? 8232) || (c =? 8233))%N.

Definition is_digit (c : N) : bool := ((48 <=? c) && (c <=? 57))%N.
Definition is_upper (c : N) : bool := ((65 <=? c) && (c <=? 90))%N.
Definition is_lower (c : N) : bool := ((97 <=? c) && (c <=? 122))%N.

(** The class [[a-zA-Z0-9]]. *)
Definition is_alnum (c : N) : bool := is_lower c || is_upper c || is_digit c.

(** [s.startsWith(t)]. *)
Fixpoint startsWith (s t : jsstring) {struct t} : bool :=
  match t with
  | [] => true
  | b :: t' =>
      match s with
      | [] => false
      | a :: s' => (a =? b)%N && startsWith s' t'
      end
  end.

(** [s.indexOf(t)], searching from position [i]; [-1] when [t] does not
    occur. *)
Fixpoint indexOf_from (s t : jsstring) (i : Z) : Z :=
  if startsWith s t then i
  else match s with
       | [] => (-1)%Z
       | _ :: s' => indexOf_from s' t (i + 1)%Z
       end.

Definition indexOf (s t : jsstring) : Z := indexOf_from s t 0.

(** [s.includes(t)]. *)
Definition includes (s t : jsstring) : bool :=
  negb (indexOf s t =? -1)%Z.

(** [s.slice(a, b)] with the relative-index rules of ECMAScript: a negative
    index counts from the end, and both ends are clamped to the string. *)
Definition slice_index (len i : Z) : Z :=
  if (i <? 0)%Z then Z.max (len + i) 0 else Z.min i len.

Definition slice (s : jsstring) (a b : Z) : jsstring :=
  let len := Z.of_nat (length s) in
  let from := slice_index len a in
  let to := slice_index len b in
  firstn (Z.to_nat (to - from)) (skipn (Z.to_nat from) s).

(** [s.trim()]. *)
Fixpoint trimStart (s : jsstring) : jsstring :=
  match s with
  | c :: s' => if is_ws c then trimStart s' else s
  | [] => []
  end.

Definition trimEnd (s : jsstring) : jsstring := rev (trimStart (rev s)).

Definition trim (s : jsstring) : jsstring := trimEnd (trimStart s).

(** [s.split(/\s+/)]: the pieces between maximal runs of whitespace.  A run
    at either end of [s] leaves an empty piece there, and the empty string
    splits into one empty piece.  [cur] is the piece being read and
    [in_run] tells that the previous code unit was whitespace. *)
Fixpoint split_ws_go (in_run : bool) (cur s : jsstring) : list jsstring :=
  match s with
  | [] => [cur]
  | c :: s' =>
      if is_ws c then
        if in_run then split_ws_go true [] s'
        else cur :: split_ws_go true [] s'
      else split_ws_go false (cur ++ [c]) s'
  end.

Definition split_ws (s : jsstring) : list jsstring := split_ws_go false [] s.

(** [s.replace(/\s+/g, " ")]: every maximal run of whitespace becomes one
    space. *)
Fixpoint collapse_ws_go (in_run : bool) (s : jsstring) : jsstring :=
  match s with
  | [] => []
  | c :: s' =>
      if is_ws c then
        if in_run then collapse_ws_go true s'
        else SPACE :: collapse_ws_go true s'
      else c :: collapse_ws_go false s'
  end.

Definition collapse_ws (s : jsstring) : jsstring := collapse_ws_go false s.

(** [s.replace(/<[^>]+>/g, " ")].  A match starts at a ['<'], needs at least
    one code unit other than ['>'] and ends at the first ['>'] after it.
    [pending = Some b] means that a ['<'] was read and [b] (in source order)
    are the code units read since; they are dropped when the closing ['>']
    comes and kept when it never does.  ["<>"] is not a match, both code
    units stay. *)
Fixpoint strip_tags_go (pending : option jsstring) (s : jsstring) : jsstring :=
  match pending, s with
  | None, [] => []
  | None, c :: s' =>
      if (c =? LT_SIGN)%N then strip_tags_go (Some []) s'
      else c :: strip_tags_go None s'
  | Some b, [] => LT_SIGN :: b
  | Some b, c :: s' =>
      if (c =? GT_SIGN)%N then
        match b with
        | [] => LT_SIGN :: GT_SIGN :: strip_tags_go None s'
        | _ :: _ => SPACE :: strip_tags_go None s'
        end
      else strip_tags_go (Some (b ++ [c])) s'
  end.

Definition strip_tags (s : jsstring) : jsstring := strip_tags_go None s.

(** ASCII lower-casing, the restriction of [toLowerCase] to strings of
    ASCII code units. *)
Definition ascii_lower_char (c : N) : N :=
  if is_upper c then (c + 32)%N else c.

Definition ascii_toLowerCase (s : jsstring) : jsstring :=
  List.map ascii_lower_char s.

(** ** Data model *)

(** Modelled from the spec: the [StoredPage] type of [lib/storage], which is
    not part of the sources at hand.  [status] is the fetch outcome code, a
    number that may be missing; [contentSize] and [timestamp] are integral
    numbers (a byte length and [Date.now()] milliseconds). *)
Record StoredPage := {
  url : jsstring;
  domain : jsstring;
  content : jsstring;
  status : option Z;
  contentSize : Z;
  timestamp : Z;
}.

(** Modelled from the spec: the [DomainInfo] type of [lib/storage]. *)
Module DomainInfo.
Record t := {
  domain : jsstring;
  pageCount : Z;
  totalSize : Z;
}.
End DomainInfo.

(** [StoredPage & { relevance: number }].  The relevance is kept as the
    exact quotient; all the quotients of one search share their denominator,
    so that the floating-point quotients are ordered in the same way. *)
Record SearchResult := {
  page : StoredPage;
  relevance : Q;
}.

(** ** The component state and its effects *)

(** The state a call of [search] can read or write: the React state of the
    component, the page store behind [getPagesByDomain], and the log of the
    reads made on that store (oldest first). *)
Record World := {
  searchQuery : jsstring;
  domains : list DomainInfo.t;
  searchResults : list SearchResult;
  store : gmap (list N) (list StoredPage);
  reads : list jsstring;
}.

Definition M (A : Type) : Type := World -> A * World.

Definition ret {A} (a : A) : M A := fun w => (a, w).

Definition bind {A B} (m : M A) (k : A -> M B) : M B :=
  fun w => let (a, w') := m w in k a w'.

Notation "'let*' x ':=' m 'in' k" := (bind m (fun x => k))
  (at level 10, x name, m at level 100, k at level 200).

(** Modelled from the spec: [getPagesByDomain(domain)] of [lib/storage]
    returns all the pages stored for a domain, none for an unknown domain.
    Every call is logged. *)
Definition getPagesByDomain (d : jsstring) : M (list StoredPage) :=
  fun w =>
    (default [] (store w !! d),
     {| searchQuery := searchQuery w; domains := domains w;
        searchResults := searchResults w; store := store w;
        reads := reads w ++ [d] |}).

Definition setSearchResults (rs : list SearchResult) : M unit :=
  fun w =>
    (tt,
     {| searchQuery := searchQuery w; domains := domains w;
        searchResults := rs; store := store w; reads := reads w |}).

Definition getSearchQuery : M jsstring := fun w => (searchQuery w, w).
Definition getDomains : M (list DomainInfo.t) := fun w => (domains w, w).

(** ** Array.prototype.sort *)

(** ECMAScript requires [sort] to be stable, and for a consistent comparator
    the result of a stable sort is determined; insertion sort stands for it.
    [compareFn a b <= 0] keeps [a] before [b]. *)
Section ArraySort.
Context {A : Type} (compareFn : A -> A -> Q).

Fixpoint sort_insert (x : A) (l : list A) : list A :=
  match l with
  | [] => [x]
  | y :: l' =>
      if Qle_bool (compareFn x y) 0 then x :: l
      else y :: sort_insert x l'
  end.

Fixpoint array_sort (l : list A) : list A :=
  match l with
  | [] => []
  | x :: l' => sort_insert x (array_sort l')
  end.
End ArraySort.

(** ** search *)

Section Search.
(** [String.prototype.toLowerCase] follows the Unicode case mappings; the
    development holds for any such function. *)
Variable toLowerCase : jsstring -> jsstring.

(** [(a, b) => b.relevance - a.relevance] *)
Definition by_relevance (a b : SearchResult) : Q :=
  (relevance b - relevance a)%Q.

(** [lowerQuery.filter((term) => text.includes(term)).length] *)
Definition matches_of (lowerQuery : list jsstring) (text : jsstring) : nat :=
  length (List.filter (fun term => includes text term) lowerQuery).

(** The body of the inner loop: what is pushed for one page, if anything.
    [content] is a string, on which the fallback to the empty string
    changes nothing. *)
Definition score (lowerQuery : list jsstring) (p : StoredPage)
  : option SearchResult :=
  let text := toLowerCase (content p) in
  let matches := matches_of lowerQuery text in
  if (0 <? matches)%nat then
    Some {| page := p;
            relevance := (inject_Z (Z.of_nat matches)
                          / inject_Z (Z.of_nat (length lowerQuery)))%Q |}
  else None.

(** [for (const page of pages) { ... results.push(...) }] *)
Fixpoint scan_pages (lowerQuery : list jsstring) (pages : list StoredPage)
    (results : list SearchResult) : list SearchResult :=
  match pages with
  | [] => results
  | p :: ps =>
      scan_pages lowerQuery ps
        (match score lowerQuery p with
         | Some r => results ++ [r]
         | None => results
         end)
  end.

(** [for (const domain of domains) { const pages = await ...; ... }] *)
Fixpoint scan_domains (lowerQuery : list jsstring)
    (ds : list DomainInfo.t) (results : list SearchResult)
  : M (list SearchResult) :=
  match ds with
  | [] => ret results
  | d :: ds' =>
      let* pages := getPagesByDomain (DomainInfo.domain d) in
      scan_domains lowerQuery ds' (scan_pages lowerQuery pages results)
  end.

Definition search : M unit :=
  let* searchQuery := getSearchQuery in
  if bool_decide (trim searchQuery = []) then ret tt
  else
    let lowerQuery := split_ws (toLowerCase searchQuery) in
    let* ds := getDomains in
    let* results := scan_domains lowerQuery ds [] in
    setSearchResults (firstn 50 (array_sort by_relevance results)).

End Search.

(** ** Exceptions *)

Inductive JsError := TypeError | RangeError.

Inductive completion (A : Type) :=
| Return (a : A)
| Throw (e : JsError).
Arguments Return {A} a.
Arguments Throw {A} e.

Definition cbind {A B} (c : completion A) (k : A -> completion B)
  : completion B :=
  match c with
  | Return a => k a
  | Throw e => Throw e
  end.

(** [pages.map(f)] where [f] may throw: the first exception ends the map. *)
Fixpoint map_completion {A B} (f : A -> completion B) (l : list A)
  : completion (list B) :=
  match l with
  | [] => Return []
  | a :: l' =>
      cbind (f a) (fun b =>
      cbind (map_completion f l') (fun bs => Return (b :: bs)))
  end.

(** ** The regular expressions of the title strategies *)

(** A letter of a pattern under the [i] flag (without [u]) matches its two
    ASCII cases and nothing else; [pat] is the pattern's code unit, a
    lower-case letter or a character without case. *)
Definition ci_eqb (pat c : N) : bool :=
  ((c =? pat) || is_lower pat && (c =? pat - 32))%N.

Fixpoint startsWith_ci (s pat : jsstring) {struct pat} : bool :=
  match pat with
  | [] => true
  | b :: pat' =>
      match s with
      | [] => false
      | a :: s' => ci_eqb b a && startsWith_ci s' pat'
      end
  end.

(** [[^>]*>]: what follows the first ['>'], if there is one. *)
Fixpoint after_gt (s : jsstring) : option jsstring :=
  match s with
  | [] => None
  | c :: s' => if (c =? GT_SIGN)%N then Some s' else after_gt s'
  end.

(** The longest prefix whose code units all satisfy [f], and the rest. *)
Fixpoint span (f : N -> bool) (s : jsstring) : jsstring * jsstring :=
  match s with
  | [] => ([], [])
  | c :: s' =>
      if f c then let (a, b) := span f s' in (c :: a, b)
      else ([], s)
  end.

(** The title pattern [/<title[^>]*>( [^<]* )<\/title>/i] (written here with
    blanks around its group) tried at the start of [s]: the
    captured group.  Both starred classes are followed by the one character
    they exclude, so the greedy choice is the only one. *)
Definition title_match_here (s : jsstring) : option jsstring :=
  if startsWith_ci s (js "<title") then
    match after_gt (skipn 6 s) with
    | Some body =>
        let (group, rest) := span (fun c => negb (c =? LT_SIGN)%N) body in
        if startsWith_ci rest (js "</title>") then Some group else None
    | None => None
    end
  else None.

(** [content.match(title pattern)?.[1]]: the group of the leftmost
    match. *)
Fixpoint title_match (s : jsstring) : option jsstring :=
  match title_match_here s with
  | Some g => Some g
  | None =>
      match s with
      | [] => None
      | _ :: s' => title_match s'
      end
  end.

(** The last code unit of [s] that is not a line terminator. *)
Definition last_non_terminator (s : jsstring) : option N :=
  last (List.filter (fun c => negb (is_line_terminator c)) s).

(** [/#\s+(.+)/] tried at the start of [s]: the captured group.  After the
    whitespace comes either another character, which starts the group, or
    the end of the input; there [\s+] gives whitespace back until [.] can
    match, and the group is the last whitespace character, after the first,
    that is not a line terminator. *)
Definition heading_match_here (s : jsstring) : option jsstring :=
  match s with
  | c :: r =>
      if (c =? HASH)%N then
        let (run, rest) := span is_ws r in
        match run, rest with
        | [], _ => None
        | _ :: _, _ :: _ =>
            Some (fst (span (fun c => negb (is_line_terminator c)) rest))
        | _ :: run', [] =>
            match last_non_terminator run' with
            | Some c' => Some [c']
            | None => None
            end
        end
      else None
  | [] => None
  end.

(** [content.match(/^#\s+(.+)/m)?.[1]]: under the [m] flag [^] matches at
    the start of the input and after every line terminator. *)
Fixpoint heading_match_go (line_start : bool) (s : jsstring)
  : option jsstring :=
  match (if line_start then heading_match_here s else None) with
  | Some g => Some g
  | None =>
      match s with
      | [] => None
      | c :: s' => heading_match_go (is_line_terminator c) s'
      end
  end.

Definition heading_match (s : jsstring) : option jsstring :=
  heading_match_go true s.

(** ** getSnippet and getTitle *)

Section Extraction.
Variable toLowerCase : jsstring -> jsstring.

(** [new URL(url).pathname]: the URL parser of the platform; [None] is the
    [TypeError] it throws on a string that is not an absolute URL. *)
Variable url_pathname : jsstring -> option jsstring.

Definition getSnippet (content query : jsstring) : jsstring :=
  let text := collapse_ws (strip_tags content) in
  let idx := indexOf (toLowerCase text)
               (hd [] (split_ws (toLowerCase query))) in
  if (idx =? -1)%Z then slice text 0 200 ++ js "..."
  else
    let start := Z.max 0 (idx - 80) in
    (if (0 <? start)%Z then js "..." else [])
      ++ slice text start (start + 200) ++ js "...".

Definition new_URL_pathname (url : jsstring) : completion jsstring :=
  match url_pathname url with
  | Some p => Return p
  | None => Throw TypeError
  end.

Definition getTitle (content url : jsstring) : completion jsstring :=
  let match_ :=
    match title_match content with
    | Some g => Some g
    | None => heading_match content
    end in
  match match_ with
  | Some g =>
      match trim g with
      | [] => new_URL_pathname url
      | t => Return t
      end
  | None => new_URL_pathname url
  end.
End Extraction.

(** ** Numbers and dates as strings *)

Open Scope Z_scope.

Definition digit_char (d : Z) : N := (48 + Z.to_N d)%N.

(** The decimal digits of a [Decimal.uint], most significant first. *)
Fixpoint uint_chars (u : Decimal.uint) : jsstring :=
  match u with
  | Decimal.Nil => []
  | Decimal.D0 u' => 48%N :: uint_chars u'
  | Decimal.D1 u' => 49%N :: uint_chars u'
  | Decimal.D2 u' => 50%N :: uint_chars u'
  | Decimal.D3 u' => 51%N :: uint_chars u'
  | Decimal.D4 u' => 52%N :: uint_chars u'
  | Decimal.D5 u' => 53%N :: uint_chars u'
  | Decimal.D6 u' => 54%N :: uint_chars u'
  | Decimal.D7 u' => 55%N :: uint_chars u'
  | Decimal.D8 u' => 56%N :: uint_chars u'
  | Decimal.D9 u' => 57%N :: uint_chars u'
  end.

(** [String(n)] for a safe integer [n], at most [2^53 - 1] in absolute
    value, where [Number::toString] writes every digit of the number.  A
    larger number is written with the shortest digits that read back to
    it, and from [10^21] with an exponent: such numbers, which no byte
    length, status code or [Date.now()] reaches, are outside the model. *)
Definition number_to_string (n : Z) : jsstring :=
  match n with
  | Z0 => [48%N]
  | Zpos p => uint_chars (Pos.to_uint p)
  | Zneg p => 45%N :: uint_chars (Pos.to_uint p)
  end.

Definition pad2 (n : Z) : jsstring :=
  [digit_char (n / 10 mod 10); digit_char (n mod 10)].

Definition pad3 (n : Z) : jsstring :=
  digit_char (n / 100 mod 10) :: pad2 n.

Definition pad4 (n : Z) : jsstring :=
  digit_char (n / 1000 mod 10) :: pad3 n.

Definition pad6 (n : Z) : jsstring :=
  digit_char (n / 100000 mod 10) :: digit_char (n / 10000 mod 10) :: pad4 n.

Definition msPerDay : Z := 86400000.

(** The largest time value of a [Date]. *)
Definition maxTime : Z := 8640000000000000.

(** Year, month (1 to 12) and day of the month (1 to 31) of the day that
    is [days] days after 1970-01-01, in the proleptic Gregorian calendar:
    the computation by 400-year eras that starts the year in March. *)
Definition civil_from_days (days : Z) : Z * Z * Z :=
  let z := days + 719468 in
  let era := z / 146097 in
  let doe := z - era * 146097 in
  let yoe := (doe - doe / 1460 + doe / 36524 - doe / 146096) / 365 in
  let doy := doe - (365 * yoe + yoe / 4 - yoe / 100) in
  let mp := (5 * doy + 2) / 153 in
  let d := doy - (153 * mp + 2) / 5 + 1 in
  let m := if mp <? 10 then mp + 3 else mp - 9 in
  let y := yoe + era * 400 + (if m <=? 2 then 1 else 0) in
  (y, m, d).

(** The year of a date-time string: four digits from 0 to 9999, otherwise a
    sign and six digits. *)
Definition iso_year (y : Z) : jsstring :=
  if (0 <=? y) && (y <=? 9999) then pad4 y
  else if y <? 0 then 45%N :: pad6 (- y)
  else 43%N :: pad6 y.

(** [new Date(t).toISOString()] for an integral [t]; a time value out of
    range makes an invalid date, on which [toISOString] throws a
    [RangeError]. *)
Definition toISOString (t : Z) : completion jsstring :=
  if (Z.abs t <=? maxTime) then
    let '(y, m, d) := civil_from_days (t / msPerDay) in
    let ms := t mod msPerDay in
    Return (iso_year y ++ js "-" ++ pad2 m ++ js "-" ++ pad2 d ++ js "T"
            ++ pad2 (ms / 3600000) ++ js ":" ++ pad2 (ms / 60000 mod 60)
            ++ js ":" ++ pad2 (ms / 1000 mod 60) ++ js "."
            ++ pad3 (ms mod 1000) ++ js "Z")
  else Throw RangeError.

Close Scope Z_scope.

(** ** JSON *)

(** The values [JSON.stringify] is applied to and [JSON.parse] returns, with
    integral numbers.  An object is the list of its properties in creation
    order. *)
Inductive jsval :=
| VUndefined
| VNull
| VBool (b : bool)
| VNum (n : Z)
| VStr (s : jsstring)
| VArr (elements : list jsval)
| VObj (props : list (jsstring * jsval)).

(** [Array.prototype.join] on strings. *)
Fixpoint join (sep : jsstring) (l : list jsstring) : jsstring :=
  match l with
  | [] => []
  | [x] => x
  | x :: l' => x ++ sep ++ join sep l'
  end.

Module JSON.

Definition is_high_surrogate (c : N) : bool :=
  ((55296 <=? c) && (c <=? 56319))%N.
Definition is_low_surrogate (c : N) : bool :=
  ((56320 <=? c) && (c <=? 57343))%N.

Definition hex_digit (d : N) : N :=
  if (d <? 10)%N then (48 + d)%N else (87 + d)%N.

(** [\uXXXX] with lower-case hexadecimal digits. *)
Definition unicode_escape (c : N) : jsstring :=
  [BACKSLASH; 117; hex_digit (c / 4096 mod 16); hex_digit (c / 256 mod 16);
   hex_digit (c / 16 mod 16); hex_digit (c mod 16)]%N.

(** One code unit that is not a surrogate, as [QuoteJSONString] writes
    it. *)
Definition quote_char (c : N) : jsstring :=
  if (c =? 8)%N then [BACKSLASH; 98%N]
  else if (c =? 9)%N then [BACKSLASH; 116%N]
  else if (c =? 10)%N then [BACKSLASH; 110%N]
  else if (c =? 12)%N then [BACKSLASH; 102%N]
  else if (c =? 13)%N then [BACKSLASH; 114%N]
  else if (c =? DQUOTE)%N then [BACKSLASH; DQUOTE]
  else if (c =? BACKSLASH)%N then [BACKSLASH; BACKSLASH]
  else if (c <? 32)%N then unicode_escape c
  else [c].

(** The body of [QuoteJSONString]: a surrogate pair is copied, a lone
    surrogate is escaped. *)
Fixpoint quote_body (s : jsstring) : jsstring :=
  match s with
  | [] => []
  | c :: s' =>
      if is_high_surrogate c then
        match s' with
        | d :: s'' =>
            if is_low_surrogate d then c :: d :: quote_body s''
            else unicode_escape c ++ quote_body s'
        | [] => unicode_escape c
        end
      else if is_low_surrogate c then unicode_escape c ++ quote_body s'
      else quote_char c ++ quote_body s'
  end.

Definition quote (s : jsstring) : jsstring :=
  DQUOTE :: quote_body s ++ [DQUOTE].

(** [SerializeJSONProperty] with the gap [gap]; [None] stands for
    [undefined]: such a property is left out of an object and written
    [null] in an array. *)
Fixpoint serialize (gap indent : jsstring) (v : jsval) : option jsstring :=
  match v with
  | VUndefined => None
  | VNull => Some (js "null")
  | VBool true => Some (js "true")
  | VBool false => Some (js "false")
  | VNum n => Some (number_to_string n)
  | VStr s => Some (quote s)
  | VArr elements =>
      let stepback := indent in
      let indent := indent ++ gap in
      let partial :=
        List.map (fun e => default (js "null") (serialize gap indent e))
                 elements in
      match partial with
      | [] => Some (js "[]")
      | _ :: _ =>
          match gap with
          | [] => Some (js "[" ++ join (js ",") partial ++ js "]")
          | _ :: _ =>
              Some (js "[" ++ [NEWLINE] ++ indent
                    ++ join (js "," ++ [NEWLINE] ++ indent) partial
                    ++ [NEWLINE] ++ stepback ++ js "]")
          end
      end
  | VObj props =>
      let stepback := indent in
      let indent := indent ++ gap in
      let partial :=
        omap (fun kv =>
                match serialize gap indent (snd kv) with
                | Some str =>
                    Some (quote (fst kv) ++ js ":"
                          ++ match gap with [] => [] | _ :: _ => js " " end
                          ++ str)
                | None => None
                end) props in
      match partial with
      | [] => Some (js "{}")
      | _ :: _ =>
          match gap with
          | [] => Some (js "{" ++ join (js ",") partial ++ js "}")
          | _ :: _ =>
              Some (js "{" ++ [NEWLINE] ++ indent
                    ++ join (js "," ++ [NEWLINE] ++ indent) partial
                    ++ [NEWLINE] ++ stepback ++ js "}")
          end
      end
  end.

(** [JSON.stringify(value, null, space)] for a numeric [space]: the gap is
    that many blanks, ten at most. *)
Definition stringify (v : jsval) (space : nat) : option jsstring :=
  serialize (repeat SPACE (Nat.min space 10)) [] v.

(** *** JSON.parse *)

(** JSON whitespace: tab, line feed, carriage return, space. *)
Definition is_json_ws (c : N) : bool :=
  ((c =? 9) || (c =? 10) || (c =? 13) || (c =? 32))%N.

Fixpoint skip_ws (s : jsstring) : jsstring :=
  match s with
  | c :: s' => if is_json_ws c then skip_ws s' else s
  | [] => []
  end.

Definition hex_value (c : N) : option N :=
  if is_digit c then Some (c - 48)%N
  else if ((97 <=? c) && (c <=? 102))%N then Some (c - 87)%N
  else if ((65 <=? c) && (c <=? 70))%N then Some (c - 55)%N
  else None.

(** The character a one-letter escape stands for. *)
Definition simple_escape (e : N) : option N :=
  if (e =? DQUOTE)%N then Some DQUOTE
  else if (e =? BACKSLASH)%N then Some BACKSLASH
  else if (e =? 47)%N then Some 47%N
  else if (e =? 98)%N then Some 8%N
  else if (e =? 102)%N then Some 12%N
  else if (e =? 110)%N then Some 10%N
  else if (e =? 114)%N then Some 13%N
  else if (e =? 116)%N then Some 9%N
  else None.

(** A string literal after its opening quote: the string and what follows
    the closing quote.  A control character must be escaped. *)
Fixpoint parse_string_body (s : jsstring) : option (jsstring * jsstring) :=
  match s with
  | [] => None
  | c :: s' =>
      if (c =? DQUOTE)%N then Some ([], s')
      else if (c =? BACKSLASH)%N then
        match s' with
        | [] => None
        | e :: s'' =>
            if (e =? 117)%N then
              match s'' with
              | h1 :: h2 :: h3 :: h4 :: s3 =>
                  match hex_value h1, hex_value h2, hex_value h3,
                        hex_value h4, parse_string_body s3 with
                  | Some a, Some b, Some c', Some d, Some (str, rest) =>
                      Some ((a * 4096 + b * 256 + c' * 16 + d)%N :: str,
                            rest)
                  | _, _, _, _, _ => None
                  end
              | _ => None
              end
            else
              match simple_escape e, parse_string_body s'' with
              | Some c', Some (str, rest) => Some (c' :: str, rest)
              | _, _ => None
              end
        end
      else if (c <? 32)%N then None
      else
        match parse_string_body s' with
        | Some (str, rest) => Some (c :: str, rest)
        | None => None
        end
  end.

Definition digit_of_char (c : N) (u : Decimal.uint) : Decimal.uint :=
  if (c =? 48)%N then Decimal.D0 u
  else if (c =? 49)%N then Decimal.D1 u
  else if (c =? 50)%N then Decimal.D2 u
  else if (c =? 51)%N then Decimal.D3 u
  else if (c =? 52)%N then Decimal.D4 u
  else if (c =? 53)%N then Decimal.D5 u
  else if (c =? 54)%N then Decimal.D6 u
  else if (c =? 55)%N then Decimal.D7 u
  else if (c =? 56)%N then Decimal.D8 u
  else Decimal.D9 u.

(** The longest run of digits at the start of [s], and the rest. *)
Fixpoint parse_digits (s : jsstring) : Decimal.uint * jsstring :=
  match s with
  | c :: s' =>
      if is_digit c then
        let (u, rest) := parse_digits s' in (digit_of_char c u, rest)
      else (Decimal.Nil, s)
  | [] => (Decimal.Nil, [])
  end.

(** An integer literal without its sign: digits without a leading zero,
    not followed by a fraction or an exponent (numbers that are not
    integers are outside the model). *)
Definition parse_natural (s : jsstring) : option (Z * jsstring) :=
  match parse_digits s with
  | (Decimal.Nil, _) => None
  | (Decimal.D0 (Decimal.D0 _ | Decimal.D1 _ | Decimal.D2 _ | Decimal.D3 _
                 | Decimal.D4 _ | Decimal.D5 _ | Decimal.D6 _
                 | Decimal.D7 _ | Decimal.D8 _ | Decimal.D9 _), _) => None
  | (u, rest) =>
      match rest with
      | c :: _ =>
          if ((c =? 46) || (c =? 101) || (c =? 69))%N then None
          else Some (Z.of_N (N.of_uint u), rest)
      | [] => Some (Z.of_N (N.of_uint u), rest)
      end
  end.

Definition parse_number (s : jsstring) : option (Z * jsstring) :=
  match s with
  | c :: s' =>
      if (c =? 45)%N then
        match parse_natural s' with
        | Some (n, rest) => Some ((- n)%Z, rest)
        | None => None
        end
      else parse_natural s
  | [] => None
  end.

(** A literal name. *)
Definition parse_keyword (kw : jsstring) (v : jsval) (s : jsstring)
  : option (jsval * jsstring) :=
  if startsWith s kw then Some (v, skipn (length kw) s) else None.

(** A value, the elements of an array after ['['] and the members of an
    object after ['{'].  [fuel] bounds the number of nested calls; the
    length of the text is enough. *)
Fixpoint parse_value (fuel : nat) (s : jsstring)
  : option (jsval * jsstring) :=
  match fuel with
  | O => None
  | S fuel' =>
      match skip_ws s with
      | [] => None
      | c :: s' =>
          if (c =? DQUOTE)%N then
            match parse_string_body s' with
            | Some (str, rest) => Some (VStr str, rest)
            | None => None
            end
          else if (c =? 91)%N then
            match skip_ws s' with
            | d :: rest =>
                if (d =? 93)%N then Some (VArr [], rest)
                else
                  match parse_elements fuel' s' with
                  | Some (vs, rest') => Some (VArr vs, rest')
                  | None => None
                  end
            | [] => None
            end
          else if (c =? 123)%N then
            match skip_ws s' with
            | d :: rest =>
                if (d =? 125)%N then Some (VObj [], rest)
                else
                  match parse_members fuel' s' with
                  | Some (ms, rest') => Some (VObj ms, rest')
                  | None => None
                  end
            | [] => None
            end
          else if (c =? 110)%N then parse_keyword (js "null") VNull (c :: s')
          else if (c =? 116)%N then
            parse_keyword (js "true") (VBool true) (c :: s')
          else if (c =? 102)%N then
            parse_keyword (js "false") (VBool false) (c :: s')
          else
            match parse_number (c :: s') with
            | Some (n, rest) => Some (VNum n, rest)
            | None => None
            end
      end
  end
with parse_elements (fuel : nat) (s : jsstring)
  : option (list jsval * jsstring) :=
  match fuel with
  | O => None
  | S fuel' =>
      match parse_value fuel' s with
      | Some (v, rest) =>
          match skip_ws rest with
          | c :: rest' =>
              if (c =? COMMA)%N then
                match parse_elements fuel' rest' with
                | Some (vs, rest'') => Some (v :: vs, rest'')
                | None => None
                end
              else if (c =? 93)%N then Some ([v], rest')
              else None
          | [] => None
          end
      | None => None
      end
  end
with parse_members (fuel : nat) (s : jsstring)
  : option (list (jsstring * jsval) * jsstring) :=
  match fuel with
  | O => None
  | S fuel' =>
      match skip_ws s with
      | q :: s1 =>
          if (q =? DQUOTE)%N then
            match parse_string_body s1 with
            | Some (key, s2) =>
                match skip_ws s2 with
                | colon :: s3 =>
                    if (colon =? 58)%N then
                      match parse_value fuel' s3 with
                      | Some (v, rest) =>
                          match skip_ws rest with
                          | c :: rest' =>
                              if (c =? COMMA)%N then
                                match parse_members fuel' rest' with
                                | Some (ms, rest'') =>
                                    Some ((key, v) :: ms, rest'')
                                | None => None
                                end
                              else if (c =? 125)%N then
                                Some ([(key, v)], rest')
                              else None
                          | [] => None
                          end
                      | None => None
                      end
                    else None
                | [] => None
                end
            | None => None
            end
          else None
      | [] => None
      end
  end.

(** [JSON.parse(text)]: one value, with nothing but whitespace after it;
    [None] is the [SyntaxError]. *)
Definition parse (text : jsstring) : option jsval :=
  match parse_value (S (length text)) text with
  | Some (v, rest) =>
      match skip_ws rest with
      | [] => Some v
      | _ :: _ => None
      end
  | None => None
  end.

(** [obj[key]] on a parsed object: of two members with one key the later
    one stays; a missing property reads as [undefined]. *)
Fixpoint get (props : list (jsstring * jsval)) (key : jsstring) : jsval :=
  match props with
  | [] => VUndefined
  | (k, v) :: props' =>
      match get props' key with
      | VUndefined => if bool_decide (k = key) then v else VUndefined
      | later => later
      end
  end.

End JSON.

(** ** The export pipeline *)

Inductive ExportFormat := json | csv | markdown | html.

(** The arguments [downloadBlob] is called with: the artifact. *)
Record Artifact := {
  blob : jsstring;
  filename : jsstring;
  mimeType : jsstring;
}.

(** The replacement of every double quote by two of them, the [replace]
    call of [escapeCSV]. *)
Definition double_quotes (str : jsstring) : jsstring :=
  flat_map (fun c => if (c =? DQUOTE)%N then [DQUOTE; DQUOTE] else [c]) str.

Definition escapeCSV (str : jsstring) : jsstring :=
  if includes str [COMMA] || includes str [DQUOTE] || includes str [NEWLINE]
  then [DQUOTE] ++ double_quotes str ++ [DQUOTE]
  else str.

(** The status of a row, [p.status] or else the empty string: a missing or
    zero status is falsy and prints as nothing. *)
Definition status_or_empty (st : option Z) : jsstring :=
  match st with
  | Some n => if (n =? 0)%Z then [] else number_to_string n
  | None => []
  end.

(** One row of the tabular export. *)
Definition csv_row (p : StoredPage) : completion jsstring :=
  cbind (toISOString (timestamp p)) (fun iso =>
  Return (escapeCSV (url p) ++ js "," ++ escapeCSV (domain p) ++ js ","
          ++ status_or_empty (status p) ++ js ","
          ++ number_to_string (contentSize p) ++ js "," ++ iso)).

Definition csv_header : jsstring :=
  js "url,domain,status,content_size,timestamp" ++ [NEWLINE].

(** The object literal built for one page of the structured export. *)
Definition json_object (p : StoredPage) : jsval :=
  VObj [ (js "url", VStr (url p));
         (js "content", VStr (content p));
         (js "status", match status p with
                       | Some n => VNum n
                       | None => VUndefined
                       end);
         (js "domain", VStr (domain p));
         (js "timestamp", VNum (timestamp p)) ].

(** The title of a section of the document export. *)
Definition markdown_title (p : StoredPage) : jsstring :=
  match title_match (content p) with
  | Some g =>
      match trim g with
      | [] => url p
      | t => t
      end
  | None => url p
  end.

(** One section of the document export. *)
Definition markdown_section (p : StoredPage) : jsstring :=
  let title := markdown_title p in
  let text := trim (collapse_ws (strip_tags (content p))) in
  js "## " ++ title ++ [NEWLINE; NEWLINE] ++ js "**URL:** " ++ url p
    ++ [NEWLINE; NEWLINE] ++ slice text 0 2000
    ++ (if (2000 <? length text)%nat then js "..." else [])
    ++ [NEWLINE; NEWLINE] ++ js "---" ++ [NEWLINE].

Definition html_page (p : StoredPage) : jsstring :=
  js "<!-- URL: " ++ url p ++ js " -->" ++ [NEWLINE] ++ content p.

Section ExportPipeline.
(** [new Date().toISOString()] at the time of the export. *)
Variable now_iso : jsstring.

Definition exportPages (pages : list StoredPage) (format : ExportFormat)
    (filenamePrefix : jsstring) : completion Artifact :=
  let timestamp := slice now_iso 0 10 in
  match format with
  | json =>
      let data := VArr (List.map json_object pages) in
      Return {| blob := default (js "undefined") (JSON.stringify data 2);
                filename := filenamePrefix ++ js "-" ++ timestamp
                            ++ js ".json";
                mimeType := js "application/json" |}
  | csv =>
      let header := csv_header in
      cbind (map_completion csv_row pages) (fun rows =>
      Return {| blob := header ++ join [NEWLINE] rows;
                filename := filenamePrefix ++ js "-" ++ timestamp
                            ++ js ".csv";
                mimeType := js "text/csv" |})
  | markdown =>
      let lines := List.map markdown_section pages in
      Return {| blob := join [NEWLINE] lines;
                filename := filenamePrefix ++ js "-" ++ timestamp
                            ++ js ".md";
                mimeType := js "text/markdown" |}
  | html =>
      let htmlPages :=
        join ([NEWLINE; NEWLINE] ++ js "<hr/>" ++ [NEWLINE; NEWLINE])
             (List.map html_page pages) in
      let html_ :=
        js "<!DOCTYPE html><html><head><meta charset=" ++ [DQUOTE]
          ++ js "utf-8" ++ [DQUOTE] ++ js "><title>" ++ filenamePrefix
          ++ js " Export</title></head><body>" ++ [NEWLINE] ++ htmlPages
          ++ [NEWLINE] ++ js "</body></html>" in
      Return {| blob := html_;
                filename := filenamePrefix ++ js "-" ++ timestamp
                            ++ js ".html";
                mimeType := js "text/html" |}
  end.

(** [page.url.replace(/[^a-zA-Z0-9]/g, '_').slice(0, 50)] *)
Definition single_page_prefix (p : StoredPage) : jsstring :=
  slice (List.map (fun c => if is_alnum c then c else UNDERSCORE) (url p))
        0 50.

Definition exportSinglePage (exportFormat : ExportFormat) (p : StoredPage)
  : completion Artifact :=
  exportPages [p] exportFormat (single_page_prefix p).
End ExportPipeline.

(** ** The export handlers and the totals *)

(** The state the export handlers work on: the state of [search], the
    format selected for the exports, the [exporting] flag that disables
    the Download All button, and the artifacts handed to [downloadBlob] so
    far, oldest first. *)
Record AppState := {
  world : World;
  exportFormat : ExportFormat;
  exporting : bool;
  downloads : list Artifact;
}.

(** A handler runs on the state and ends with a value or an exception; the
    changes made to the state before an exception stay. *)
Definition Handler (A : Type) : Type := AppState -> completion A * AppState.

Definition hret {A} (a : A) : Handler A := fun st => (Return a, st).

Definition hbind {A B} (m : Handler A) (k : A -> Handler B) : Handler B :=
  fun st =>
    match m st with
    | (Return a, st') => k a st'
    | (Throw e, st') => (Throw e, st')
    end.

Notation "'let!' x ':=' m 'in' k" := (hbind m (fun x => k))
  (at level 10, x name, m at level 100, k at level 200).

(** [try { body } finally { cleanup }]: the cleanup runs however the body
    ends, and the outcome of the body stands unless the cleanup throws. *)
Definition try_finally {A} (body : Handler A) (cleanup : Handler unit)
  : Handler A :=
  fun st =>
    let (r, st') := body st in
    match cleanup st' with
    | (Return _, st'') => (r, st'')
    | (Throw e, st'') => (Throw e, st'')
    end.

(** An effect on the state of [search], inside a handler. *)
Definition lift {A} (m : M A) : Handler A :=
  fun st =>
    let (a, w') := m (world st) in
    (Return a,
     {| world := w'; exportFormat := exportFormat st;
        exporting := exporting st; downloads := downloads st |}).

Definition setExporting (b : bool) : Handler unit :=
  fun st =>
    (Return tt,
     {| world := world st; exportFormat := exportFormat st;
        exporting := b; downloads := downloads st |}).

Definition getExportFormat : Handler ExportFormat :=
  fun st => (Return (exportFormat st), st).

(** [downloadBlob(content, filename, mimeType)]: the browser is handed the
    artifact. *)
Definition downloadBlob (a : Artifact) : Handler unit :=
  fun st =>
    (Return tt,
     {| world := world st; exportFormat := exportFormat st;
        exporting := exporting st; downloads := downloads st ++ [a] |}).

(** [for (const d of domains) { ...; allPages.push(...pages) }] *)
Fixpoint collect_pages (ds : list DomainInfo.t) (allPages : list StoredPage)
  : M (list StoredPage) :=
  match ds with
  | [] => ret allPages
  | d :: ds' =>
      let* pages := getPagesByDomain (DomainInfo.domain d) in
      collect_pages ds' (allPages ++ pages)
  end.

(** [domains.reduce((s, d) => s + d.pageCount, 0)] *)
Definition totalPages (domains : list DomainInfo.t) : Z :=
  fold_left (fun s d => (s + DomainInfo.pageCount d)%Z) domains 0%Z.

(** [domains.reduce((s, d) => s + d.totalSize, 0)] *)
Definition totalSize (domains : list DomainInfo.t) : Z :=
  fold_left (fun s d => (s + DomainInfo.totalSize d)%Z) domains 0%Z.

Section ExportHandlers.
(** [new Date().toISOString()] at the time of the export. *)
Variable now_iso : jsstring.

(** A call of [exportPages] from a handler: the artifact is downloaded, or
    the exception of the export goes on. *)
Definition call_exportPages (pages : list StoredPage) (format : ExportFormat)
    (filenamePrefix : jsstring) : Handler unit :=
  fun st =>
    match exportPages now_iso pages format filenamePrefix with
    | Return a => downloadBlob a st
    | Throw e => (Throw e, st)
    end.

Definition exportAll : Handler unit :=
  let! _ := setExporting true in
  try_finally
    (let! ds := lift getDomains in
     let! allPages := lift (collect_pages ds []) in
     let! format := getExportFormat in
     call_exportPages allPages format (js "knowledge-base"))
    (setExporting false).

Definition exportDomain (domain : jsstring) : Handler unit :=
  let! pages := lift (getPagesByDomain domain) in
  let! format := getExportFormat in
  call_exportPages pages format domain.

End ExportHandlers.

(** * Properties *)

(** ** Strings *)

(** [t] occurs in [s] as a substring. *)
Definition occurs (t s : jsstring) : Prop :=
  exists pre post, s = pre ++ t ++ post.

(** The first occurrence of [t] in [s] starts at position [n]. *)
Definition first_at (t s : jsstring) (n : nat) : Prop :=
  (exists pre post, s = pre ++ t ++ post /\ length pre = n)
  /\ forall pre' post', s = pre' ++ t ++ post' -> n <= length pre'.

Lemma startsWith_true s t :
  startsWith s t = true <-> exists r, s = t ++ r.
Proof.
  revert s; induction t as [|b t IH]; intros s; simpl.
  - split; eauto.
  - destruct s as [|a s]; simpl.
    + split; [discriminate | intros [r Hr]; discriminate].
    + rewrite andb_true_iff, N.eqb_eq, IH. split.
      * intros [-> [r ->]]. eauto.
      * intros [r Hr]. injection Hr as -> ->. eauto.
Qed.

Lemma indexOf_from_spec s t i :
  (0 <= i)%Z ->
  (indexOf_from s t i = (-1)%Z /\ ~ occurs t s)
  \/ exists n, indexOf_from s t i = (i + Z.of_nat n)%Z /\ first_at t s n.
Proof.
  revert i; induction s as [|a s IH]; intros i Hi; simpl.
  - destruct (startsWith [] t) eqn:E.
    + right. exists 0. split; [lia|]. apply startsWith_true in E as [r Hr].
      split; [exists [], r; auto | intros; lia].
    + left. split; [reflexivity|]. intros (pre & post & H).
      destruct pre; [|discriminate]. simpl in H.
      assert (startsWith [] t = true) by (apply startsWith_true; eauto).
      congruence.
  - destruct (startsWith (a :: s) t) eqn:E.
    + right. exists 0. split; [lia|]. apply startsWith_true in E as [r Hr].
      split; [exists [], r; auto | intros; lia].
    + assert (Hno : forall post, a :: s <> t ++ post).
      { intros post H.
        assert (startsWith (a :: s) t = true) by (apply startsWith_true; eauto).
        congruence. }
      destruct (IH (i + 1)%Z ltac:(lia)) as [[H1 H2] | (n & H1 & H2)].
      * left. split; [assumption|]. intros (pre & post & H).
        destruct pre as [|c pre]; simpl in H.
        -- exact (Hno _ H).
        -- injection H as _ H. apply H2. exists pre, post. assumption.
      * right. exists (S n). split; [lia|].
        destruct H2 as [(pre & post & Hs & Hl) Hmin]. split.
        -- exists (a :: pre), post. simpl. split; [congruence | lia].
        -- intros pre' post' H. destruct pre' as [|c pre']; simpl in H.
           ++ destruct (Hno _ H).
           ++ injection H as _ H. apply Hmin in H. simpl. lia.
Qed.

Lemma indexOf_spec s t :
  (indexOf s t = (-1)%Z /\ ~ occurs t s)
  \/ exists n, indexOf s t = Z.of_nat n /\ first_at t s n.
Proof.
  destruct (indexOf_from_spec s t 0 ltac:(lia)) as [H | (n & H1 & H2)];
    [left; exact H | right; exists n; split; [exact H1 | exact H2]].
Qed.

Lemma includes_occurs s t : includes s t = true <-> occurs t s.
Proof.
  unfold includes. destruct (indexOf_spec s t) as [[H1 H2] | (n & H1 & H2)];
    rewrite H1.
  - simpl. split; [discriminate | intros H; destruct (H2 H)].
  - replace (Z.of_nat n =? -1)%Z with false by (symmetry; apply Z.eqb_neq; lia).
    simpl. split; [intros _ | reflexivity].
    destruct H2 as [(pre & post & Hs & _) _]. exists pre, post. exact Hs.
Qed.

#[global] Instance occurs_dec t s : Decision (occurs t s).
Proof.
  destruct (includes s t) eqn:E.
  - left. apply includes_occurs. exact E.
  - right. intros H. apply includes_occurs in H. congruence.
Defined.

Lemma slice_prefix s (n : nat) :
  slice s 0 (Z.of_nat n) = firstn n s.
Proof.
  unfold slice, slice_index. simpl.
  destruct (Z.of_nat n <? 0)%Z eqn:E; [apply Z.ltb_lt in E; lia|].
  rewrite (Z.min_l 0) by lia. simpl. rewrite Z.sub_0_r.
  destruct (Z.min_spec (Z.of_nat n) (Z.of_nat (length s))) as [[H ->]|[H ->]];
    rewrite Nat2Z.id; [reflexivity|].
  rewrite !firstn_all2; auto; lia.
Qed.

Lemma slice_window s (a n : nat) :
  slice s (Z.of_nat a) (Z.of_nat a + Z.of_nat n) = firstn n (skipn a s).
Proof.
  unfold slice, slice_index.
  destruct (Z.of_nat a <? 0)%Z eqn:E; [apply Z.ltb_lt in E; lia|].
  destruct (Z.of_nat a + Z.of_nat n <? 0)%Z eqn:E2; [apply Z.ltb_lt in E2; lia|].
  destruct (Z.min_spec (Z.of_nat a) (Z.of_nat (length s))) as [[H ->]|[H ->]];
  destruct (Z.min_spec (Z.of_nat a + Z.of_nat n) (Z.of_nat (length s)))
    as [[H' ->]|[H' ->]]; rewrite ?Nat2Z.id.
  - f_equal. lia.
  - rewrite !firstn_all2; auto; rewrite length_skipn; lia.
  - lia.
  - rewrite !skipn_all2 by lia. rewrite !firstn_nil. reflexivity.
Qed.

(** ** Sorting *)

Section SortFacts.
Context {A : Type} (key : A -> Q).

(** The comparator [(a, b) => key(b) - key(a)] and the same on entries
    tagged with their position in the array before the sort. *)
Definition by_key (a b : A) : Q := (key b - key a)%Q.
Definition by_key_tagged (x y : nat * A) : Q := by_key (snd x) (snd y).

(** [x] ranks before [y]: a greater key, or the same key and an earlier
    position. *)
Definition ranks_before (x y : nat * A) : Prop :=
  (key (snd y) < key (snd x))%Q
  \/ (key (snd x) == key (snd y))%Q /\ fst x < fst y.

Lemma ranks_before_trans x y z :
  ranks_before x y -> ranks_before y z -> ranks_before x z.
Proof.
  unfold ranks_before. intros [H1 | [H1 H1']] [H2 | [H2 H2']].
  - left. lra.
  - left. lra.
  - left. lra.
  - right. split; [lra | lia].
Qed.

Lemma sort_insert_untag x l :
  List.map snd (sort_insert by_key_tagged x l)
  = sort_insert by_key (snd x) (List.map snd l).
Proof.
  induction l as [|y l IH]; simpl; [reflexivity|].
  unfold by_key_tagged at 1.
  destruct (Qle_bool (by_key (snd x) (snd y)) 0); simpl; congruence.
Qed.

Lemma array_sort_untag l :
  List.map snd (array_sort by_key_tagged l)
  = array_sort by_key (List.map snd l).
Proof.
  induction l as [|x l IH]; simpl; [reflexivity|].
  rewrite sort_insert_untag. congruence.
Qed.

Lemma sort_insert_perm {B} (cmp : B -> B -> Q) x l :
  Permutation (sort_insert cmp x l) (x :: l).
Proof.
  induction l as [|y l IH]; simpl; [reflexivity|].
  destruct (Qle_bool (cmp x y) 0); [reflexivity|].
  rewrite IH. apply perm_swap.
Qed.

Lemma array_sort_perm {B} (cmp : B -> B -> Q) l :
  Permutation (array_sort cmp l) l.
Proof.
  induction l as [|x l IH]; simpl; [reflexivity|].
  rewrite sort_insert_perm. apply perm_skip. exact IH.
Qed.

Lemma sort_insert_sorted x l :
  Forall (fun y => fst x < fst y) l ->
  StronglySorted ranks_before l ->
  StronglySorted ranks_before (sort_insert by_key_tagged x l).
Proof.
  induction l as [|y l IH]; intros Htag Hs; simpl.
  - constructor; constructor.
  - apply StronglySorted_cons in Hs as [Hy Hs].
    apply Forall_cons in Htag as [Hxy Htag].
    destruct (Qle_bool (by_key_tagged x y) 0) eqn:E.
    + apply Qle_bool_iff in E. unfold by_key_tagged, by_key in E.
      assert (Hx : ranks_before x y).
      { unfold ranks_before.
        destruct (Qlt_le_dec (key (snd y)) (key (snd x)));
          [left; assumption | right; split; [lra | assumption]]. }
      constructor; [constructor; assumption|].
      constructor; [exact Hx|].
      eapply Forall_impl; [exact Hy|].
      intros z Hz. eapply ranks_before_trans; eassumption.
    + assert (Hlt : (key (snd x) < key (snd y))%Q).
      { destruct (Qlt_le_dec (key (snd x)) (key (snd y))) as [Hl|Hl];
          [assumption|].
        assert (Qle_bool (by_key_tagged x y) 0 = true)
          by (apply Qle_bool_iff; unfold by_key_tagged, by_key; lra).
        congruence. }
      constructor; [apply IH; assumption|].
      apply Forall_forall. intros z Hz.
      apply list_elem_of_In in Hz.
      apply (Permutation_in _ (sort_insert_perm by_key_tagged x l)) in Hz.
      destruct Hz as [<- | Hz].
      * left. exact Hlt.
      * rewrite Forall_forall in Hy. apply Hy. apply list_elem_of_In. exact Hz.
Qed.

Lemma array_sort_sorted l :
  StronglySorted (fun x y => fst x < fst y) l ->
  StronglySorted ranks_before (array_sort by_key_tagged l).
Proof.
  induction l as [|x l IH]; intros Hs; simpl; [constructor|].
  apply StronglySorted_cons in Hs as [Hx Hs].
  apply sort_insert_sorted; [|apply IH; exact Hs].
  apply Forall_forall. intros z Hz. apply list_elem_of_In in Hz.
  apply (Permutation_in _ (array_sort_perm by_key_tagged l)) in Hz.
  rewrite Forall_forall in Hx. apply Hx. apply list_elem_of_In. exact Hz.
Qed.
End SortFacts.

(** ** search *)

(** The pages [search] scans, in scan order: the pages of every indexed
    domain, domain after domain. *)
Definition corpus (w : World) : list StoredPage :=
  flat_map (fun d => default [] (store w !! DomainInfo.domain d)) (domains w).

(** The elements of a list with their positions, counted from [i]. *)
Fixpoint tag_from {A} (i : nat) (l : list A) : list (nat * A) :=
  match l with
  | [] => []
  | a :: l' => (i, a) :: tag_from (S i) l'
  end.

Lemma tag_from_untag {A} i (l : list A) : List.map snd (tag_from i l) = l.
Proof. revert i; induction l; intros; simpl; congruence. Qed.

Lemma tag_from_lookup {A} i (l : list A) j a :
  (j, a) ∈ tag_from i l <-> i <= j /\ l !! (j - i) = Some a.
Proof.
  revert i; induction l as [|b l IH]; intros i; simpl.
  - rewrite elem_of_nil. split; [tauto | intros [_ H]; discriminate].
  - rewrite elem_of_cons, IH. split.
    + intros [H | [H1 H2]].
      * injection H as -> ->. rewrite Nat.sub_diag. auto.
      * split; [lia|]. replace (j - i) with (S (j - S i)) by lia. exact H2.
    + intros [H1 H2]. destruct (decide (j = i)) as [->|Hne].
      * rewrite Nat.sub_diag in H2. simpl in H2. left. congruence.
      * right. split; [lia|].
        replace (j - i) with (S (j - S i)) in H2 by lia. exact H2.
Qed.

Lemma tag_from_sorted {A} i (l : list A) :
  StronglySorted (fun x y => fst x < fst y) (tag_from i l)
  /\ Forall (fun y => i <= fst y) (tag_from i l).
Proof.
  revert i; induction l as [|a l IH]; intros i; simpl.
  - split; constructor.
  - destruct (IH (S i)) as [H1 H2]. split.
    + constructor; [exact H1|].
      eapply Forall_impl; [exact H2|]. simpl. intros; lia.
    + constructor; [simpl; lia|].
      eapply Forall_impl; [exact H2|]. simpl. intros; lia.
Qed.

Section SearchFacts.
Variable toLowerCase : jsstring -> jsstring.

Abbreviation score := (score toLowerCase).

(** The scored pages with their positions in the corpus. *)
Definition score_tagged (lowerQuery : list jsstring) (ip : nat * StoredPage)
  : option (nat * SearchResult) :=
  match score lowerQuery (snd ip) with
  | Some r => Some (fst ip, r)
  | None => None
  end.

Definition candidates (lowerQuery : list jsstring) (c : list StoredPage)
  : list (nat * SearchResult) :=
  omap (score_tagged lowerQuery) (tag_from 0 c).

Lemma scan_pages_spec lq pages results :
  scan_pages toLowerCase lq pages results = results ++ omap (score lq) pages.
Proof.
  revert results; induction pages as [|p ps IH]; intros results; simpl.
  - rewrite app_nil_r. reflexivity.
  - rewrite IH. destruct (score lq p); simpl; [|reflexivity].
    rewrite <- app_assoc. reflexivity.
Qed.

Lemma scan_domains_spec lq ds results q dsw rs st rd :
  scan_domains toLowerCase lq ds results
    {| searchQuery := q; domains := dsw; searchResults := rs; store := st;
       reads := rd |}
  = (results
       ++ omap (score lq)
            (flat_map (fun d => default [] (st !! DomainInfo.domain d)) ds),
     {| searchQuery := q; domains := dsw; searchResults := rs; store := st;
        reads := rd ++ List.map DomainInfo.domain ds |}).
Proof.
  revert results rd; induction ds as [|d ds IH]; intros results rd; simpl.
  - unfold ret. rewrite !app_nil_r. reflexivity.
  - unfold bind, getPagesByDomain. simpl. rewrite IH.
    rewrite scan_pages_spec, omap_app, <- !app_assoc. reflexivity.
Qed.

(** A blank query: nothing is read, nothing is written. *)
Lemma search_blank w :
  trim (searchQuery w) = [] -> search toLowerCase w = (tt, w).
Proof.
  intros H. unfold search, bind, getSearchQuery.
  rewrite bool_decide_true by exact H. reflexivity.
Qed.

(** Any other query: every indexed domain is read once, in order, and the
    results are replaced. *)
Lemma search_run w :
  trim (searchQuery w) <> [] ->
  search toLowerCase w
  = (tt,
     {| searchQuery := searchQuery w; domains := domains w;
        searchResults :=
          firstn 50
            (array_sort by_relevance
               (omap (score (split_ws (toLowerCase (searchQuery w))))
                     (corpus w)));
        store := store w;
        reads := reads w ++ List.map DomainInfo.domain (domains w) |}).
Proof.
  intros H. unfold search, bind, getSearchQuery, getDomains.
  rewrite bool_decide_false by exact H.
  destruct w as [q ds rs st rd]. simpl.
  rewrite scan_domains_spec. reflexivity.
Qed.

Lemma candidates_untag lq c :
  List.map snd (candidates lq c) = omap (score lq) c.
Proof.
  unfold candidates. generalize 0.
  induction c as [|p c IH]; intros i; simpl; [reflexivity|].
  unfold score_tagged at 1. simpl.
  destruct (score lq p); simpl; rewrite IH; reflexivity.
Qed.

Lemma candidates_lookup lq c i r :
  (i, r) ∈ candidates lq c
  <-> exists p, c !! i = Some p /\ score lq p = Some r.
Proof.
  unfold candidates. rewrite list_elem_of_omap. split.
  - intros ([j p] & Hin & Hs). apply tag_from_lookup in Hin as [_ Hin].
    unfold score_tagged in Hs. simpl in Hs.
    destruct (score lq p) eqn:E; [|discriminate].
    injection Hs as -> ->. rewrite Nat.sub_0_r in Hin. eauto.
  - intros (p & Hp & Hs). exists (i, p). split.
    + apply tag_from_lookup. rewrite Nat.sub_0_r. split; [lia | exact Hp].
    + unfold score_tagged. simpl. rewrite Hs. reflexivity.
Qed.

Lemma omap_sorted {X Y} (f : X -> option Y) (R : X -> X -> Prop)
    (R' : Y -> Y -> Prop) l :
  (forall x y x' y', R x y -> f x = Some x' -> f y = Some y' -> R' x' y') ->
  StronglySorted R l -> StronglySorted R' (omap f l).
Proof.
  intros HR. induction l as [|x l IH]; intros Hs; simpl; [constructor|].
  apply StronglySorted_cons in Hs as [Hx Hs].
  destruct (f x) as [x'|] eqn:E; [|apply IH; exact Hs].
  constructor; [apply IH; exact Hs|].
  apply Forall_forall. intros y' Hy'.
  apply list_elem_of_omap in Hy' as (y & Hy & Hfy).
  rewrite Forall_forall in Hx. eapply HR; eauto.
Qed.

Lemma candidates_sorted lq c :
  StronglySorted (fun x y => fst x < fst y) (candidates lq c).
Proof.
  unfold candidates.
  eapply omap_sorted; [|apply (tag_from_sorted 0 c)].
  intros [i p] [j q] x' y' Hlt Hx Hy. unfold score_tagged in *. simpl in *.
  destruct (score lq p); [|discriminate].
  destruct (score lq q); [|discriminate].
  injection Hx as <-. injection Hy as <-. exact Hlt.
Qed.

(** A pushed result has a positive relevance: the quotient of its matches,
    at least one, by the number of terms. *)
Lemma score_Some lq p r :
  score lq p = Some r ->
  page r = p
  /\ 0 < matches_of lq (toLowerCase (content p))
  /\ relevance r
     = (inject_Z (Z.of_nat (matches_of lq (toLowerCase (content p))))
        / inject_Z (Z.of_nat (length lq)))%Q.
Proof.
  unfold score. intros H.
  destruct (0 <? matches_of lq (toLowerCase (content p)))%nat eqn:E;
    [|discriminate].
  apply Nat.ltb_lt in E. injection H as <-. simpl. auto.
Qed.

Lemma matches_of_le lq text : matches_of lq text <= length lq.
Proof. unfold matches_of. apply List.filter_length_le. Qed.

Lemma score_positive lq p r :
  score lq p = Some r -> (0 < relevance r)%Q.
Proof.
  intros H. apply score_Some in H as (_ & Hm & ->).
  pose proof (matches_of_le lq (toLowerCase (content p))) as Hle.
  apply Qlt_shift_div_l.
  - unfold Qlt. simpl. lia.
  - unfold Qlt. simpl. lia.
Qed.

(** The count of the code in the words of the specification: the number
    of entries of [lq] that occur in [text]. *)
Lemma matches_of_occurs lq text :
  matches_of lq text = length (filter (fun t => occurs t text) lq).
Proof.
  unfold matches_of. induction lq as [|t lq IH]; simpl; [reflexivity|].
  rewrite filter_cons. destruct (includes text t) eqn:E.
  - rewrite decide_True by (apply includes_occurs; exact E).
    simpl. congruence.
  - rewrite decide_False; [exact IH|].
    intros H. apply includes_occurs in H. congruence.
Qed.

End SearchFacts.

(** ** Sample data *)

Definition sample_page (u c : string) : StoredPage :=
  {| url := js u; domain := js "a.com"; content := js c;
     status := Some 200%Z; contentSize := Z.of_nat (String.length c);
     timestamp := 1700000000000%Z |}.

Definition cats_page : StoredPage :=
  sample_page "https://a.com/1" "<title>Cats</title><p>cats are great</p>".

Definition dogs_page : StoredPage :=
  sample_page "https://a.com/2" "<title>Dogs</title><p>dogs rule</p>".

(** The store of the scenario of the specification, with a query typed in
    and no search made yet. *)
Definition sample_world (q : string) : World :=
  {| searchQuery := js q;
     domains := [ {| DomainInfo.domain := js "a.com";
                     DomainInfo.pageCount := 2;
                     DomainInfo.totalSize := 85 |} ];
     searchResults := [];
     store := {[ js "a.com" := [cats_page; dogs_page] ]};
     reads := [] |}.

(** The user types a new query after a search. *)
Definition retype (q : string) (w : World) : World :=
  {| searchQuery := js q; domains := domains w;
     searchResults := searchResults w; store := store w; reads := reads w |}.

Example scenario_cats :
  searchResults (snd (search ascii_toLowerCase (sample_world "cats")))
  = [ {| page := cats_page; relevance := 1 |} ].
Proof. reflexivity. Qed.

Example scenario_cats_dogs :
  searchResults (snd (search ascii_toLowerCase (sample_world "cats dogs")))
  = [ {| page := cats_page; relevance := 1 # 2 |};
      {| page := dogs_page; relevance := 1 # 2 |} ].
Proof. reflexivity. Qed.

(** ** The terms of a query *)

Definition not_ws (c : N) : bool := negb (is_ws c).

Lemma split_ws_go_chars in_run cur s :
  Forall (fun c => is_ws c = false) cur ->
  (in_run = true -> cur = []) ->
  Forall (Forall (fun c => is_ws c = false)) (split_ws_go in_run cur s)
  /\ concat (split_ws_go in_run cur s) = cur ++ List.filter not_ws s.
Proof.
  revert in_run cur; induction s as [|c s IH]; intros in_run cur Hcur Hrun;
    simpl.
  - split; [repeat constructor; exact Hcur | rewrite !app_nil_r; reflexivity].
  - unfold not_ws at 1. destruct (is_ws c) eqn:E; simpl.
    + destruct (IH true [] ltac:(constructor) ltac:(reflexivity)) as [H1 H2].
      destruct in_run; simpl.
      * rewrite (Hrun eq_refl). split; [exact H1 | exact H2].
      * split; [constructor; assumption|]. rewrite H2. reflexivity.
    + destruct (IH false (cur ++ [c])) as [H1 H2].
      { apply Forall_app. split; [exact Hcur | repeat constructor; exact E]. }
      { discriminate. }
      split; [exact H1|]. rewrite H2, <- app_assoc. reflexivity.
Qed.

(** No whitespace at the last position of [s]. *)
Definition no_trailing_ws (s : jsstring) : Prop :=
  forall c, last s = Some c -> is_ws c = false.

(** No whitespace at the first position of [s]. *)
Definition no_leading_ws (s : jsstring) : Prop :=
  forall c, head s = Some c -> is_ws c = false.

Lemma no_trailing_ws_tail c s :
  s <> [] -> no_trailing_ws (c :: s) -> no_trailing_ws s.
Proof.
  intros Hne H d Hd. apply H. destruct s; [congruence|]. exact Hd.
Qed.

Lemma split_ws_go_nonempty (in_run : bool) (cur s : jsstring) :
  (if in_run then cur = [] /\ s <> [] else cur <> []) ->
  no_trailing_ws s ->
  Forall (fun t => t <> []) (split_ws_go in_run cur s).
Proof.
  revert in_run cur; induction s as [|c s IH]; intros in_run cur Hinv Hend;
    simpl.
  - destruct in_run; [destruct Hinv as [_ []]; reflexivity|].
    repeat constructor. exact Hinv.
  - destruct (is_ws c) eqn:E.
    + assert (Hs : s <> []).
      { intros ->. specialize (Hend c eq_refl). congruence. }
      assert (IH' : Forall (fun t => t <> []) (split_ws_go true [] s)).
      { apply IH; [split; [reflexivity | exact Hs]|].
        eapply no_trailing_ws_tail; eassumption. }
      destruct in_run; [exact IH' | constructor; assumption].
    + apply IH.
      * intros H. apply app_eq_nil in H as [_ H]. discriminate.
      * destruct s as [|d s]; [intros ? Hd; discriminate|].
        eapply no_trailing_ws_tail; [discriminate | eassumption].
Qed.

(** The terms of a query hold its characters other than whitespace, in
    order; a query that neither starts nor ends with whitespace has no empty
    term. *)
Lemma split_ws_chars s :
  Forall (Forall (fun c => is_ws c = false)) (split_ws s)
  /\ concat (split_ws s) = List.filter not_ws s.
Proof. apply split_ws_go_chars; [constructor | discriminate]. Qed.

Lemma split_ws_nonempty s :
  s <> [] -> no_leading_ws s -> no_trailing_ws s ->
  Forall (fun t => t <> []) (split_ws s).
Proof.
  intros Hne Hl Ht. destruct s as [|c s]; [congruence|].
  unfold split_ws. simpl. rewrite (Hl c eq_refl).
  apply split_ws_go_nonempty; [discriminate|].
  destruct s as [|d s]; [intros ? Hd; discriminate|].
  eapply no_trailing_ws_tail; [discriminate | eassumption].
Qed.

Lemma split_ws_not_nil s : split_ws s <> [].
Proof.
  unfold split_ws. generalize false, (@nil N).
  induction s as [|c s IH]; intros b cur; simpl; [discriminate|].
  destruct (is_ws c); [destruct b; [apply IH | discriminate] | apply IH].
Qed.

(** ** Claims on search *)

Section SearchClaims.
Variable toLowerCase : jsstring -> jsstring.

Lemma shown_in_scored w r :
  r ∈ firstn 50
        (array_sort by_relevance
           (omap (score toLowerCase
                    (split_ws (toLowerCase (searchQuery w)))) (corpus w))) ->
  exists p, p ∈ corpus w
    /\ score toLowerCase (split_ws (toLowerCase (searchQuery w))) p = Some r.
Proof.
  intros Hr. apply elem_of_take in Hr as (i & Hr & _).
  apply list_elem_of_lookup_2 in Hr. apply list_elem_of_In in Hr.
  apply (Permutation_in _ (array_sort_perm by_relevance _)) in Hr.
  apply list_elem_of_In, list_elem_of_omap in Hr. exact Hr.
Qed.

(** C1 (amended): every result of a search is a page of the corpus whose
    relevance is the number of entries of the split, lower-cased query
    (each entry counted, repeated or not) that occur as a substring of the
    lower-cased content, divided by the number of entries; a page with at
    least one such entry is among the results unless fifty are shown. *)
Theorem C1_relevance_is_presence_ratio (w : World) :
  trim (searchQuery w) <> [] ->
  let terms := split_ws (toLowerCase (searchQuery w)) in
  let shown := searchResults (snd (search toLowerCase w)) in
  let present (p : StoredPage) :=
    length (filter (fun t => occurs t (toLowerCase (content p))) terms) in
  Forall (fun r =>
            page r ∈ corpus w
            /\ relevance r
               = (inject_Z (Z.of_nat (present (page r)))
                  / inject_Z (Z.of_nat (length terms)))%Q) shown
  /\ forall p, p ∈ corpus w -> 0 < present p -> length shown < 50 ->
       exists r, r ∈ shown /\ page r = p.
Proof.
  intros Hq terms shown present. subst shown.
  rewrite (search_run toLowerCase w Hq). simpl. split.
  - apply Forall_forall. intros r Hr.
    apply shown_in_scored in Hr as (p & Hp & Hs).
    apply score_Some in Hs as (Hpage & _ & Hrel).
    rewrite Hpage, Hrel. split; [exact Hp|].
    unfold present. rewrite matches_of_occurs. reflexivity.
  - intros p Hp Hpos Hlen.
    rewrite firstn_all2 in * by (rewrite length_take in Hlen; lia).
    unfold present in Hpos. rewrite <- matches_of_occurs in Hpos.
    pose (r := {| page := p;
                  relevance :=
                    (inject_Z (Z.of_nat (matches_of terms
                                           (toLowerCase (content p))))
                     / inject_Z (Z.of_nat (length terms)))%Q |}).
    assert (Hs : score toLowerCase terms p = Some r).
    { unfold score. apply Nat.ltb_lt in Hpos. fold terms.
      rewrite Hpos. reflexivity. }
    exists r. split; [|reflexivity].
    apply list_elem_of_In.
    apply (Permutation_in _ (Permutation_sym (array_sort_perm by_relevance _))).
    apply list_elem_of_In, list_elem_of_omap. eauto.
Qed.

(** C2 (amended): a query that is empty or all whitespace makes search
    return at once: no page is read and the results shown stay as they
    were.  Any other query is lower-cased and split at its runs of
    whitespace into a sequence of terms, which the scoring uses as it is
    (repetitions included); the terms are free of whitespace, hold the
    other characters of the lower-cased query in order, and are all
    non-empty when that query neither starts nor ends with whitespace;
    every indexed domain is then read once, in order. *)
Theorem C2_query_normalization (w : World) :
  (trim (searchQuery w) = [] -> search toLowerCase w = (tt, w))
  /\ (trim (searchQuery w) <> [] ->
      let lowered := toLowerCase (searchQuery w) in
      let terms := split_ws lowered in
      let w' := snd (search toLowerCase w) in
      searchResults w'
      = firstn 50 (array_sort by_relevance
                     (omap (score toLowerCase terms) (corpus w)))
      /\ reads w' = reads w ++ List.map DomainInfo.domain (domains w)
      /\ terms <> []
      /\ Forall (Forall (fun c => is_ws c = false)) terms
      /\ concat terms = List.filter not_ws lowered
      /\ (lowered <> [] -> no_leading_ws lowered -> no_trailing_ws lowered ->
          Forall (fun t => t <> []) terms)).
Proof.
  split; [apply search_blank|].
  intros Hq lowered terms w'. subst w'.
  rewrite (search_run toLowerCase w Hq). simpl.
  split; [reflexivity|]. split; [reflexivity|].
  split; [apply split_ws_not_nil|].
  split; [apply split_ws_chars|]. split; [apply split_ws_chars|].
  apply split_ws_nonempty.
Qed.

(** C3 (amended): after a search with a query that is not blank, the
    results shown are scored pages of the corpus, each with a relevance
    above 0, in descending order of relevance with equal relevances in
    corpus order; they are the first fifty of all the matching pages in
    that order, so at most fifty, and a matching page left out ranks after
    every one shown. *)
Theorem C3_ranking_and_cap (w : World) :
  trim (searchQuery w) <> [] ->
  let terms := split_ws (toLowerCase (searchQuery w)) in
  exists ranked : list (nat * SearchResult),
    searchResults (snd (search toLowerCase w)) = List.map snd ranked
    /\ (forall i r, (i, r) ∈ ranked ->
          exists p, corpus w !! i = Some p
                    /\ score toLowerCase terms p = Some r)
    /\ Forall (fun x => (0 < relevance (snd x))%Q) ranked
    /\ StronglySorted (ranks_before relevance) ranked
    /\ length ranked
       = Nat.min 50 (length (omap (score toLowerCase terms) (corpus w)))
    /\ (forall j p r,
          corpus w !! j = Some p -> score toLowerCase terms p = Some r ->
          (j, r) ∉ ranked ->
          length ranked = 50
          /\ Forall (fun x => ranks_before relevance x (j, r)) ranked).
Proof.
  intros Hq terms.
  set (cands := candidates toLowerCase terms (corpus w)).
  set (sorted := array_sort (by_key_tagged relevance) cands).
  assert (Hperm : Permutation sorted cands) by apply array_sort_perm.
  assert (Hsorted : StronglySorted (ranks_before relevance) sorted)
    by (apply array_sort_sorted, candidates_sorted).
  assert (Hin : forall x, x ∈ sorted <-> x ∈ cands).
  { intros x. rewrite !list_elem_of_In. split; apply Permutation_in;
      [exact Hperm | symmetry; exact Hperm]. }
  exists (firstn 50 sorted).
  rewrite (search_run toLowerCase w Hq). simpl. fold terms.
  rewrite <- (take_drop 50 sorted) in Hsorted.
  split; [|split; [|split; [|split; [|split]]]].
  - rewrite <- firstn_map. f_equal. unfold sorted.
    rewrite array_sort_untag. unfold cands. rewrite candidates_untag.
    reflexivity.
  - intros i r Hr. apply candidates_lookup. apply Hin.
    apply elem_of_take in Hr as (k & Hr & _).
    eapply list_elem_of_lookup_2; exact Hr.
  - apply Forall_forall. intros [i r] Hr. simpl.
    apply elem_of_take in Hr as (k & Hr & _).
    apply list_elem_of_lookup_2, Hin, candidates_lookup in Hr
      as (p & _ & Hs).
    eapply score_positive; exact Hs.
  - eapply StronglySorted_app_1_l; exact Hsorted.
  - rewrite length_take. rewrite (Permutation_length Hperm).
    unfold cands. rewrite <- (candidates_untag toLowerCase terms (corpus w)).
    rewrite length_map. reflexivity.
  - intros j p r Hj Hs Hnot.
    assert (Hc : (j, r) ∈ sorted)
      by (apply Hin, candidates_lookup; eauto).
    rewrite <- (take_drop 50 sorted) in Hc.
    apply elem_of_app in Hc as [Hc | Hc]; [contradiction|].
    split.
    + rewrite length_take. apply list_elem_of_lookup in Hc as (k & Hk).
      apply lookup_lt_Some in Hk. rewrite length_drop in Hk. lia.
    + apply Forall_forall. intros x Hx.
      eapply StronglySorted_app_1_elem_of; eassumption.
Qed.

End SearchClaims.

(** The terms of a query in the words of the specification: the set of the
    non-empty pieces of the lower-cased query. *)
Definition spec_terms (toLowerCase : jsstring -> jsstring) (q : jsstring)
  : list jsstring :=
  remove_dups
    (List.filter (fun t => negb (bool_decide (t = [])))
                 (split_ws (toLowerCase q))).

(** The relevance in the words of the specification: the distinct terms
    present in the lower-cased content over all the distinct terms. *)
Definition spec_relevance (toLowerCase : jsstring -> jsstring)
    (q content : jsstring) : Q :=
  let terms := spec_terms toLowerCase q in
  (inject_Z (Z.of_nat (length (filter (fun t => occurs t (toLowerCase content))
                                      terms)))
   / inject_Z (Z.of_nat (length terms)))%Q.

Lemma C1_witness :
  trim (searchQuery (sample_world "cats dogs")) <> []
  /\ Forall (fun r =>
       page r ∈ corpus (sample_world "cats dogs")
       /\ relevance r
          = (inject_Z (Z.of_nat
               (length (filter
                  (fun t => occurs t (ascii_toLowerCase (content (page r))))
                  (split_ws (ascii_toLowerCase (js "cats dogs"))))))
             / inject_Z (Z.of_nat
                 (length (split_ws (ascii_toLowerCase (js "cats dogs"))))))%Q)
       (searchResults (snd (search ascii_toLowerCase
                              (sample_world "cats dogs")))).
Proof.
  assert (H : trim (searchQuery (sample_world "cats dogs")) <> [])
    by (vm_compute; discriminate).
  split; [exact H|].
  exact (proj1 (C1_relevance_is_presence_ratio ascii_toLowerCase
                  (sample_world "cats dogs") H)).
Defined.

(** C1 as stated fails: for the query "cats cats dogs" the page about cats
    gets 2/3 from the code, the repeated term being counted twice among
    three, where the distinct terms give 1/2. *)
Lemma C1_counterexample :
  exists r,
    r ∈ searchResults (snd (search ascii_toLowerCase
                              (sample_world "cats cats dogs")))
    /\ page r = cats_page
    /\ relevance r = (2 # 3)%Q
    /\ spec_relevance ascii_toLowerCase (js "cats cats dogs")
         (content (page r)) = (1 # 2)%Q
    /\ ~ (relevance r
          == spec_relevance ascii_toLowerCase (js "cats cats dogs")
               (content (page r)))%Q.
Proof.
  exists {| page := cats_page; relevance := 2 # 3 |}.
  split; [vm_compute; apply list_elem_of_here|].
  split; [reflexivity|]. split; [reflexivity|].
  split; [vm_compute; reflexivity|].
  vm_compute. discriminate.
Qed.

(** The state after a search for "cats" in which the query was then
    replaced by blanks. *)
Definition stale_world : World :=
  retype "   " (snd (search ascii_toLowerCase (sample_world "cats"))).

Lemma C2_witness :
  trim (searchQuery stale_world) = []
  /\ search ascii_toLowerCase stale_world = (tt, stale_world).
Proof.
  assert (H : trim (searchQuery stale_world) = []) by reflexivity.
  split; [exact H|].
  exact (proj1 (C2_query_normalization ascii_toLowerCase stale_world) H).
Defined.

(** C2 as stated fails: with a query of three blanks the set of terms of
    the specification is empty, yet the search leaves the result found for
    the query before on display instead of an empty sequence.  (And a blank
    at the end of a query is not without effect: it makes an empty term,
    which occurs in every page.) *)
Lemma C2_counterexample :
  spec_terms ascii_toLowerCase (searchQuery stale_world) = []
  /\ searchResults (snd (search ascii_toLowerCase stale_world))
     = [ {| page := cats_page; relevance := 1 |} ]
  /\ searchResults (snd (search ascii_toLowerCase stale_world)) <> []
  /\ split_ws (ascii_toLowerCase (js "zebra ")) = [ js "zebra"; [] ]
  /\ spec_terms ascii_toLowerCase (js "zebra ") = [ js "zebra" ]
  /\ searchResults (snd (search ascii_toLowerCase (sample_world "zebra ")))
     = [ {| page := cats_page; relevance := 1 # 2 |};
         {| page := dogs_page; relevance := 1 # 2 |} ].
Proof.
  split; [reflexivity|]. split; [reflexivity|].
  split; [vm_compute; discriminate|]. repeat split; reflexivity.
Qed.

Lemma C3_witness :
  trim (searchQuery (sample_world "cats dogs")) <> []
  /\ exists ranked : list (nat * SearchResult),
      searchResults (snd (search ascii_toLowerCase (sample_world "cats dogs")))
      = List.map snd ranked
      /\ StronglySorted (ranks_before relevance) ranked.
Proof.
  assert (H : trim (searchQuery (sample_world "cats dogs")) <> [])
    by (vm_compute; discriminate).
  split; [exact H|].
  destruct (C3_ranking_and_cap ascii_toLowerCase (sample_world "cats dogs") H)
    as (ranked & H1 & _ & _ & H2 & _).
  exists ranked. split; [exact H1 | exact H2].
Defined.

(** C3 as stated fails: after a query of three blanks the sequence shown
    is what the query before found, one page, whose relevance for the
    blank query is not above 0 in the words of the specification; and it
    is not the matches of the blank query by the split of the code either,
    for which both pages of the corpus match. *)
Lemma C3_counterexample :
  searchResults (snd (search ascii_toLowerCase stale_world))
  = [ {| page := cats_page; relevance := 1 |} ]
  /\ (spec_relevance ascii_toLowerCase (searchQuery stale_world)
        (content cats_page) == 0)%Q
  /\ List.map page
       (omap (score ascii_toLowerCase
                (split_ws (ascii_toLowerCase (searchQuery stale_world))))
             (corpus stale_world))
     = [cats_page; dogs_page]
  /\ ~ (exists ranked : list (nat * SearchResult),
          searchResults (snd (search ascii_toLowerCase stale_world))
          = List.map snd ranked
          /\ length ranked
             = Nat.min 50
                 (length (omap (score ascii_toLowerCase
                                  (split_ws (ascii_toLowerCase
                                               (searchQuery stale_world))))
                               (corpus stale_world)))).
Proof.
  split; [reflexivity|]. split; [vm_compute; reflexivity|].
  split; [vm_compute; reflexivity|].
  intros (ranked & H1 & H2).
  apply (f_equal (@length SearchResult)) in H1.
  rewrite length_map, H2 in H1. vm_compute in H1. discriminate.
Qed.

(** ** Plain text *)

(** A match of [/<[^>]+>/] at the start of [s], and what follows it. *)
Definition tag_at_head (s rest : jsstring) : Prop :=
  exists body, s = LT_SIGN :: body ++ GT_SIGN :: rest
               /\ body <> [] /\ GT_SIGN ∉ body.

(** [out] is [s] with every match of [/<[^>]+>/], taken from left to right,
    replaced by one space. *)
Inductive tags_replaced : jsstring -> jsstring -> Prop :=
| tr_nil : tags_replaced [] []
| tr_tag s rest out :
    tag_at_head s rest -> tags_replaced rest out ->
    tags_replaced s (SPACE :: out)
| tr_char c s out :
    (forall rest, ~ tag_at_head (c :: s) rest) -> tags_replaced s out ->
    tags_replaced (c :: s) (c :: out).

Lemma strip_tags_go_closed b body rest :
  GT_SIGN ∉ body -> b ++ body <> [] ->
  strip_tags_go (Some b) (body ++ GT_SIGN :: rest)
  = SPACE :: strip_tags_go None rest.
Proof.
  revert b; induction body as [|c body IH]; intros b Hgt Hne; simpl.
  - rewrite app_nil_r in Hne. destruct b; [congruence | reflexivity].
  - apply not_elem_of_cons in Hgt as [Hc Hgt].
    replace (c =? GT_SIGN)%N with false
      by (symmetry; apply N.eqb_neq; congruence).
    apply IH; [exact Hgt|]. rewrite <- app_assoc. simpl.
    intros H. apply app_eq_nil in H as [_ H]. discriminate.
Qed.

Lemma strip_tags_go_open b s :
  GT_SIGN ∉ s -> strip_tags_go (Some b) s = LT_SIGN :: b ++ s.
Proof.
  revert b; induction s as [|c s IH]; intros b Hgt; simpl.
  - rewrite app_nil_r. reflexivity.
  - apply not_elem_of_cons in Hgt as [Hc Hgt].
    replace (c =? GT_SIGN)%N with false
      by (symmetry; apply N.eqb_neq; congruence).
    rewrite IH by exact Hgt. rewrite <- app_assoc. reflexivity.
Qed.

Lemma no_tag_without_gt s : GT_SIGN ∉ s -> tags_replaced s s.
Proof.
  induction s as [|c s IH]; intros Hgt; [constructor|].
  apply not_elem_of_cons in Hgt as [Hc Hgt].
  apply tr_char; [|apply IH; exact Hgt].
  intros rest (body & H & _ & _). injection H as _ H.
  apply Hgt. rewrite H. apply elem_of_app. right. apply list_elem_of_here.
Qed.

(** The first ['>'] of a string splits it. *)
Lemma split_at_gt s :
  GT_SIGN ∉ s
  \/ exists body rest, s = body ++ GT_SIGN :: rest /\ GT_SIGN ∉ body.
Proof.
  induction s as [|c s IH]; [left; apply not_elem_of_nil|].
  destruct (decide (c = GT_SIGN)) as [->|Hc].
  - right. exists [], s. split; [reflexivity | apply not_elem_of_nil].
  - destruct IH as [IH | (body & rest & -> & Hb)].
    + left. apply not_elem_of_cons. auto.
    + right. exists (c :: body), rest. split; [reflexivity|].
      apply not_elem_of_cons. auto.
Qed.

Lemma strip_tags_go_replaced n s :
  length s <= n -> tags_replaced s (strip_tags_go None s).
Proof.
  revert s; induction n as [|n IH]; intros s Hn.
  - destruct s; [constructor | simpl in Hn; lia].
  - destruct s as [|c s]; [constructor|]. simpl in Hn. simpl.
    destruct (c =? LT_SIGN)%N eqn:E.
    + apply N.eqb_eq in E. subst c.
      destruct (split_at_gt s) as [Hgt | (body & rest & -> & Hb)].
      * rewrite strip_tags_go_open by exact Hgt. simpl.
        apply tr_char; [|apply no_tag_without_gt; exact Hgt].
        intros rest (body & H & _ & _). injection H as H.
        apply Hgt. rewrite H. apply elem_of_app. right. apply list_elem_of_here.
      * destruct body as [|d body].
        -- simpl. apply tr_char.
           { intros rest' (body' & H & Hne & Hgt). injection H as H.
             destruct body' as [|e body']; [congruence|].
             injection H as <- _. apply Hgt. apply list_elem_of_here. }
           apply tr_char.
           { intros rest' (body' & H & _). discriminate. }
           apply IH. rewrite length_app in Hn. simpl in Hn. simpl. lia.
        -- rewrite strip_tags_go_closed by (simpl; congruence || exact Hb).
           eapply tr_tag.
           ++ exists (d :: body). split; [reflexivity|]. split; [discriminate | exact Hb].
           ++ apply IH. rewrite length_app in Hn. simpl in Hn. lia.
    + apply tr_char; [|apply IH; lia].
      intros rest (body & H & _). injection H as -> _. discriminate.
Qed.

Lemma strip_tags_replaced s : tags_replaced s (strip_tags s).
Proof. apply (strip_tags_go_replaced (length s)). reflexivity. Qed.

(** The result of a replacement is determined. *)
Lemma tag_at_head_unique s rest rest' :
  tag_at_head s rest -> tag_at_head s rest' -> rest = rest'.
Proof.
  intros (b & -> & _ & Hb) (b' & H & _ & Hb'). injection H as H.
  revert b' H Hb'. induction b as [|c b IH]; intros b' H Hb'.
  - destruct b' as [|c' b']; simpl in H.
    + congruence.
    + injection H as <- _. destruct Hb'. apply list_elem_of_here.
  - apply not_elem_of_cons in Hb as [Hc Hb].
    destruct b' as [|c' b']; simpl in H.
    + injection H as -> _. congruence.
    + injection H as _ H. apply not_elem_of_cons in Hb' as [_ Hb'].
      eapply IH; eassumption.
Qed.

Lemma tags_replaced_unique s out out' :
  tags_replaced s out -> tags_replaced s out' -> out = out'.
Proof.
  intros H. revert out'. induction H as [|s rest out Ht _ IH|c s out Hn _ IH];
    intros out' H'.
  - inversion H'; subst; [reflexivity|].
    destruct H as (b & Hb & _). discriminate.
  - inversion H'; subst.
    + destruct Ht as (b & Hb & _). discriminate.
    + rewrite (tag_at_head_unique _ _ _ Ht H) in IH. f_equal. apply IH.
      assumption.
    + destruct (H _ Ht).
  - inversion H'; subst.
    + destruct (Hn _ H).
    + f_equal. apply IH. assumption.
Qed.

(** No two whitespace characters in a row, and no whitespace but the
    space. *)
Fixpoint single_spaced_from (after_ws : bool) (s : jsstring) : Prop :=
  match s with
  | [] => True
  | c :: s' =>
      (is_ws c = true -> c = SPACE /\ after_ws = false)
      /\ single_spaced_from (is_ws c) s'
  end.

Definition single_spaced (s : jsstring) : Prop := single_spaced_from false s.

Lemma collapse_ws_go_spaced b s :
  single_spaced_from b (collapse_ws_go b s)
  /\ List.filter not_ws (collapse_ws_go b s) = List.filter not_ws s.
Proof.
  revert b; induction s as [|c s IH]; intros b; simpl; [auto|].
  unfold not_ws at 2. destruct (is_ws c) eqn:E; simpl.
  - destruct b; [apply IH|]. simpl. destruct (IH true) as [H1 H2].
    split; [|exact H2]. split; [auto | exact H1].
  - unfold not_ws at 1. rewrite E. simpl. destruct (IH false) as [H1 H2].
    split; [|congruence]. split; [congruence|exact H1].
Qed.

(** Collapsing keeps the characters other than whitespace and leaves a
    single-spaced text. *)
Lemma collapse_ws_spaced s :
  single_spaced (collapse_ws s)
  /\ List.filter not_ws (collapse_ws s) = List.filter not_ws s.
Proof. apply collapse_ws_go_spaced. Qed.

(** ** Claims on getSnippet *)

(** A text in which the word needle comes after 300 other characters. *)
Definition needle_content : jsstring :=
  repeat 120%N 300 ++ js "needle" ++ repeat 121%N 300.

(** C6: where the claim fails.  The query of a blank and the word Needle
    has one term, needle, which first occurs at position 300 of the
    lower-cased text: the claimed snippet is the window of 200 characters
    that starts at position 220, between two ellipses, which the code
    returns for the query without the blank.  With the blank in front the
    split of the code starts with an empty entry, found at position 0,
    and the snippet is the first 200 characters of the text and an
    ellipsis, in which the term does not occur. *)
Theorem C6_getSnippet_leading_blank :
  let text := collapse_ws (strip_tags needle_content) in
  spec_terms ascii_toLowerCase (js " Needle") = [js "needle"]
  /\ hd [] (split_ws (ascii_toLowerCase (js " Needle"))) = []
  /\ first_at (js "needle") (ascii_toLowerCase text) 300
  /\ getSnippet ascii_toLowerCase needle_content (js "Needle")
     = js "..." ++ firstn 200 (skipn 220 text) ++ js "..."
  /\ getSnippet ascii_toLowerCase needle_content (js " Needle")
     = firstn 200 text ++ js "..."
  /\ ~ occurs (js "needle")
         (ascii_toLowerCase
            (getSnippet ascii_toLowerCase needle_content (js " Needle")))
  /\ getSnippet ascii_toLowerCase needle_content (js " Needle")
     <> getSnippet ascii_toLowerCase needle_content (js "Needle").
Proof.
  intros text.
  split; [vm_compute; reflexivity|]. split; [reflexivity|].
  split.
  { assert (E : indexOf (ascii_toLowerCase text) (js "needle") = 300%Z)
      by (vm_compute; reflexivity).
    destruct (indexOf_spec (ascii_toLowerCase text) (js "needle"))
      as [[H _] | (n & H & Hn)]; rewrite E in H; [discriminate|].
    replace 300 with n by lia. exact Hn. }
  split; [vm_compute; reflexivity|]. split; [vm_compute; reflexivity|].
  split.
  - intros H. apply includes_occurs in H. vm_compute in H. discriminate.
  - intros H. vm_compute in H. discriminate.
Qed.

Example getSnippet_found :
  getSnippet ascii_toLowerCase
    (js "<p>Hello   <b>World</b>, cats are great</p>") (js "CATS dogs")
  = js " Hello World , cats are great ...".
Proof. reflexivity. Qed.

Example getSnippet_not_found :
  getSnippet ascii_toLowerCase (js "<p>dogs rule</p>") (js "cats")
  = js " dogs rule ...".
Proof. reflexivity. Qed.

Example getSnippet_far :
  getSnippet ascii_toLowerCase
    (repeat 120%N 100 ++ js "needle" ++ repeat 121%N 300) (js "Needle")
  = js "..." ++ repeat 120%N 80 ++ js "needle" ++ repeat 121%N 114 ++ js "...".
Proof. vm_compute. reflexivity. Qed.

(** ** Claims on exportSinglePage *)

(** The class of the characters of a file name prefix. *)
Definition is_prefix_char (c : N) : bool := is_alnum c || (c =? UNDERSCORE)%N.

(** The extension of the file of each format. *)
Definition extension (f : ExportFormat) : jsstring :=
  match f with
  | json => js ".json"
  | csv => js ".csv"
  | markdown => js ".md"
  | html => js ".html"
  end.

(** C10: the file name prefix of a single-page export is the url of the page
    with every character outside [a-zA-Z0-9] replaced by an underscore, cut
    to its first 50 characters: it has at most 50 characters, all of them
    ASCII letters, digits or underscores, and it is the prefix of the name
    of the artifact whenever one is emitted. *)
Theorem C10_single_page_prefix (now_iso : jsstring) (f : ExportFormat)
    (p : StoredPage) :
  let prefix := single_page_prefix p in
  prefix
  = firstn 50 (List.map (fun c => if is_alnum c then c else UNDERSCORE)
                        (url p))
  /\ length prefix = Nat.min 50 (length (url p))
  /\ Forall (fun c => is_prefix_char c = true /\ (c < 128)%N) prefix
  /\ exportSinglePage now_iso f p = exportPages now_iso [p] f prefix
  /\ match exportSinglePage now_iso f p with
     | Return a =>
         filename a = prefix ++ js "-" ++ slice now_iso 0 10 ++ extension f
     | Throw _ => f = csv
     end.
Proof.
  intros prefix.
  assert (Hp : prefix
               = firstn 50 (List.map (fun c => if is_alnum c then c
                                               else UNDERSCORE) (url p))).
  { unfold prefix, single_page_prefix. change 50%Z with (Z.of_nat 50).
    apply slice_prefix. }
  split; [exact Hp|]. split; [|split; [|split]].
  - rewrite Hp, length_take, length_map. reflexivity.
  - rewrite Hp. apply Forall_take. apply Forall_forall. intros c Hc.
    apply list_elem_of_In, in_map_iff in Hc as (u & <- & _).
    unfold is_prefix_char. destruct (is_alnum u) eqn:E.
    + rewrite E. split; [reflexivity|].
      unfold is_alnum, is_lower, is_upper, is_digit in E.
      rewrite !orb_true_iff, !andb_true_iff, !N.leb_le in E. lia.
    + split; [reflexivity | unfold UNDERSCORE; lia].
  - reflexivity.
  - unfold exportSinglePage. fold prefix.
    destruct f; simpl; try reflexivity.
    destruct (csv_row p); simpl; reflexivity.
Qed.

Example single_page_prefix_ex :
  single_page_prefix (sample_page "https://a.com/some page?q=1" "x")
  = js "https___a_com_some_page_q_1".
Proof. reflexivity. Qed.

(** ** The title patterns, declaratively *)

(** [t] matches the literal [pat] under the [i] flag. *)
Definition ci_matches (pat t : jsstring) : Prop :=
  Forall2 (fun p c => ci_eqb p c = true) pat t.

(** [s] starts with a match of the title pattern whose group is [g]: an
    opening tag with any attributes, a text without ['<'], the closing
    tag. *)
Definition title_element_at_head (s g : jsstring) : Prop :=
  exists open attrs close rest,
    s = open ++ attrs ++ GT_SIGN :: g ++ close ++ rest
    /\ ci_matches (js "<title") open
    /\ (GT_SIGN ∉ attrs)
    /\ (LT_SIGN ∉ g)
    /\ ci_matches (js "</title>") close.

Lemma startsWith_ci_spec s pat :
  startsWith_ci s pat = true
  <-> exists t rest, s = t ++ rest /\ ci_matches pat t.
Proof.
  revert s; induction pat as [|b pat IH]; intros s; simpl.
  - split; [intros _; exists [], s; split; [reflexivity | constructor]|auto].
  - destruct s as [|a s].
    + split; [discriminate|]. intros (t & rest & H & Hm).
      inversion Hm; subst. discriminate.
    + rewrite andb_true_iff, IH. split.
      * intros (Ha & t & rest & -> & Hm). exists (a :: t), rest.
        split; [reflexivity | constructor; assumption].
      * intros (t & rest & H & Hm). inversion Hm; subst.
        injection H as -> ->. eauto.
Qed.

Lemma ci_matches_length pat t : ci_matches pat t -> length t = length pat.
Proof. intros H. symmetry. eapply Forall2_length; exact H. Qed.

Lemma after_gt_spec s rest :
  after_gt s = Some rest
  <-> exists attrs, s = attrs ++ GT_SIGN :: rest /\ GT_SIGN ∉ attrs.
Proof.
  revert rest; induction s as [|c s IH]; intros rest; simpl.
  - split; [discriminate|]. intros (attrs & H & _).
    destruct attrs; discriminate.
  - destruct (c =? GT_SIGN)%N eqn:E.
    + apply N.eqb_eq in E. subst c. split.
      * intros H. injection H as ->. exists []. split; [reflexivity|].
        apply not_elem_of_nil.
      * intros (attrs & H & Hgt). destruct attrs as [|d attrs].
        -- simpl in H. congruence.
        -- injection H as Hd _. subst d. destruct Hgt. apply list_elem_of_here.
    + apply N.eqb_neq in E. rewrite IH. split.
      * intros (attrs & -> & Hgt). exists (c :: attrs).
        split; [reflexivity|]. apply not_elem_of_cons. auto.
      * intros (attrs & H & Hgt). destruct attrs as [|d attrs].
        -- simpl in H. congruence.
        -- injection H as -> ->. apply not_elem_of_cons in Hgt as [_ Hgt].
           eauto.
Qed.

Lemma span_spec f s :
  s = fst (span f s) ++ snd (span f s)
  /\ Forall (fun c => f c = true) (fst (span f s))
  /\ (forall c, head (snd (span f s)) = Some c -> f c = false).
Proof.
  induction s as [|c s IH]; simpl.
  - split; [reflexivity|]. split; [constructor | discriminate].
  - destruct (f c) eqn:E.
    + destruct (span f s) as [a b]. simpl in *. destruct IH as (H1 & H2 & H3).
      split; [congruence|]. split; [constructor; assumption | exact H3].
    + simpl. split; [reflexivity|]. split; [constructor|].
      intros d Hd. injection Hd as <-. exact E.
Qed.

Lemma span_app f a b :
  Forall (fun c => f c = true) a ->
  (forall c, head b = Some c -> f c = false) ->
  span f (a ++ b) = (a, b).
Proof.
  intros Ha Hb. induction Ha as [|c a Hc _ IH]; simpl.
  - destruct b as [|d b]; [reflexivity|]. simpl.
    rewrite (Hb d eq_refl). reflexivity.
  - rewrite Hc, IH. reflexivity.
Qed.

Lemma title_match_here_spec s g :
  title_match_here s = Some g <-> title_element_at_head s g.
Proof.
  unfold title_match_here, title_element_at_head. split.
  - destruct (startsWith_ci s (js "<title")) eqn:E1; [|discriminate].
    apply startsWith_ci_spec in E1 as (open & s1 & -> & Hopen).
    pose proof (ci_matches_length _ _ Hopen) as Hlen.
    change (length (js "<title")) with 6 in Hlen.
    rewrite <- Hlen, drop_app_length.
    destruct (after_gt s1) as [body|] eqn:E2; [|discriminate].
    apply after_gt_spec in E2 as (attrs & -> & Hattrs).
    pose proof (span_spec (fun c => negb (c =? LT_SIGN)%N) body)
      as (Hb & Hg & _).
    destruct (span (fun c => negb (c =? LT_SIGN)%N) body) as [grp rest0].
    cbn [fst snd] in *.
    destruct (startsWith_ci rest0 (js "</title>")) eqn:E3; [|discriminate].
    apply startsWith_ci_spec in E3 as (close & rest & -> & Hclose).
    intros H. injection H as ->.
    exists open, attrs, close, rest. rewrite Hb.
    split; [reflexivity|]. split; [exact Hopen|]. split; [exact Hattrs|].
    split; [|exact Hclose].
    intros Hin. rewrite Forall_forall in Hg. specialize (Hg _ Hin).
    rewrite N.eqb_refl in Hg. discriminate.
  - intros (open & attrs & close & rest & -> & Hopen & Hattrs & Hg & Hclose).
    replace (startsWith_ci (open ++ attrs ++ GT_SIGN :: g ++ close ++ rest)
               (js "<title")) with true
      by (symmetry; apply startsWith_ci_spec; eauto).
    pose proof (ci_matches_length _ _ Hopen) as Hlen.
    change (length (js "<title")) with 6 in Hlen.
    rewrite <- Hlen, drop_app_length.
    replace (after_gt (attrs ++ GT_SIGN :: g ++ close ++ rest))
      with (Some (g ++ close ++ rest))
      by (symmetry; apply after_gt_spec; eauto).
    rewrite span_app.
    + replace (startsWith_ci (close ++ rest) (js "</title>")) with true
        by (symmetry; apply startsWith_ci_spec; eauto).
      reflexivity.
    + apply Forall_forall. intros c Hc.
      destruct (c =? LT_SIGN)%N eqn:E; [|reflexivity].
      apply N.eqb_eq in E. subst c. contradiction.
    + intros c Hc. inversion Hclose as [|p0 c0 ? ? Hc0 _]; subst.
      simpl in Hc. injection Hc as <-.
      unfold ci_eqb in Hc0. simpl in Hc0. rewrite orb_false_r in Hc0.
      apply N.eqb_eq in Hc0. rewrite Hc0. reflexivity.
Qed.

(** [title_match] finds the group of the leftmost match. *)
Lemma title_match_spec s g :
  title_match s = Some g
  <-> exists pre post,
        s = pre ++ post /\ title_element_at_head post g
        /\ forall pre' post' g',
             s = pre' ++ post' -> length pre' < length pre ->
             ~ title_element_at_head post' g'.
Proof.
  induction s as [|c s IH]; simpl.
  - destruct (title_match_here []) as [g0|] eqn:E.
    + vm_compute in E. discriminate.
    + split; [discriminate|]. intros (pre & post & H & Hm & _).
      symmetry in H. apply app_eq_nil in H as [-> ->].
      apply title_match_here_spec in Hm. congruence.
  - destruct (title_match_here (c :: s)) as [g0|] eqn:E.
    + split.
      * intros H. injection H as ->. exists [], (c :: s).
        split; [reflexivity|]. split; [apply title_match_here_spec; exact E|].
        intros ? ? ? _ Hlt. simpl in Hlt. lia.
      * intros (pre & post & H & Hm & Hleft).
        destruct pre as [|d pre].
        -- simpl in H. subst post. apply title_match_here_spec in Hm.
           congruence.
        -- destruct (Hleft [] (c :: s) g0 eq_refl); [simpl; lia|].
           apply title_match_here_spec. exact E.
    + rewrite IH. split.
      * intros (pre & post & -> & Hm & Hleft). exists (c :: pre), post.
        split; [reflexivity|]. split; [exact Hm|].
        intros pre' post' g' H Hlt Hm'. destruct pre' as [|d pre'].
        -- simpl in H. subst post'. apply title_match_here_spec in Hm'.
           congruence.
        -- injection H as _ H. apply (Hleft pre' post' g' H); [|exact Hm'].
           simpl in Hlt. lia.
      * intros (pre & post & H & Hm & Hleft). destruct pre as [|d pre].
        -- simpl in H. subst post. apply title_match_here_spec in Hm.
           congruence.
        -- injection H as Hcd Hs. subst d s. exists pre, post.
           split; [reflexivity|].
           split; [exact Hm|]. intros pre' post' g' H Hlt.
           apply (Hleft (c :: pre') post' g'); [simpl; rewrite H; reflexivity|].
           simpl. lia.
Qed.

(** [s] starts with a match of [/#\s+(.+)/] whose group is [g]: the hash,
    whitespace, and characters of one line up to its end. *)
Definition heading_at_head (s g : jsstring) : Prop :=
  exists ws rest,
    s = HASH :: ws ++ g ++ rest
    /\ ws <> []
    /\ Forall (fun c => is_ws c = true) ws
    /\ g <> []
    /\ Forall (fun c => is_line_terminator c = false) g
    /\ (forall c, head rest = Some c -> is_line_terminator c = true).

Lemma line_terminator_is_ws c : is_line_terminator c = true -> is_ws c = true.
Proof.
  unfold is_line_terminator. intros H.
  rewrite !orb_true_iff, !N.eqb_eq in H.
  destruct H as [[[-> | ->] | ->] | ->]; reflexivity.
Qed.

Lemma last_non_terminator_spec l :
  match last_non_terminator l with
  | Some c =>
      exists a b, l = a ++ c :: b /\ is_line_terminator c = false
                  /\ Forall (fun d => is_line_terminator d = true) b
  | None => Forall (fun d => is_line_terminator d = true) l
  end.
Proof.
  unfold last_non_terminator. induction l as [|x l IH]; simpl; [constructor|].
  destruct (is_line_terminator x) eqn:E; simpl.
  - destruct (last (List.filter _ l)) as [c|].
    + destruct IH as (a & b & -> & H1 & H2). exists (x :: a), b. auto.
    + constructor; assumption.
  - rewrite last_cons. destruct (last (List.filter _ l)) as [c|].
    + destruct IH as (a & b & -> & H1 & H2). exists (x :: a), b. auto.
    + exists [], l. auto.
Qed.

Lemma heading_match_here_sound s g :
  heading_match_here s = Some g -> heading_at_head s g.
Proof.
  unfold heading_match_here, heading_at_head.
  destruct s as [|c r]; [discriminate|].
  destruct (c =? HASH)%N eqn:E; [|discriminate].
  apply N.eqb_eq in E. subst c.
  pose proof (span_spec is_ws r) as (Hr & Hrun & Hrest).
  destruct (span is_ws r) as [run rest]. cbn [fst snd] in *.
  destruct run as [|w run']; [discriminate|].
  destruct rest as [|d rest'].
  - pose proof (last_non_terminator_spec run') as Hl.
    destruct (last_non_terminator run') as [c'|]; [|discriminate].
    destruct Hl as (a & b & -> & Hc' & Hb).
    intros H. injection H as <-. exists (w :: a), b.
    rewrite app_nil_r in Hr.
    split; [rewrite Hr; reflexivity|].
    split; [discriminate|].
    apply Forall_cons in Hrun as [Hw Hrun]. apply Forall_app in Hrun as [Ha _].
    split; [constructor; assumption|]. split; [discriminate|].
    split; [repeat constructor; exact Hc'|].
    intros c Hc. destruct b as [|e b]; [discriminate|].
    injection Hc as <-. apply Forall_cons in Hb as [He _]. exact He.
  - pose proof (span_spec (fun c => negb (is_line_terminator c)) (d :: rest'))
      as (Hg & Hgf & Hgr).
    destruct (span (fun c => negb (is_line_terminator c)) (d :: rest'))
      as [grp rest0] eqn:Es.
    cbn [fst snd] in *. intros H. injection H as <-.
    exists (w :: run'), rest0.
    split; [rewrite Hr, Hg; reflexivity|]. split; [discriminate|].
    split; [exact Hrun|].
    assert (Hd : is_ws d = false) by (apply Hrest; reflexivity).
    split.
    + simpl in Es. destruct (is_line_terminator d) eqn:Ed.
      * apply line_terminator_is_ws in Ed. congruence.
      * simpl in Es. destruct (span _ rest'). injection Es as <- _.
        discriminate.
    + split.
      * eapply Forall_impl; [exact Hgf|]. simpl. intros x Hx.
        destruct (is_line_terminator x); [discriminate | reflexivity].
      * intros c Hc. specialize (Hgr c Hc).
        destruct (is_line_terminator c); [reflexivity | discriminate].
Qed.

Lemma heading_match_here_complete s g :
  heading_at_head s g -> exists g', heading_match_here s = Some g'.
Proof.
  intros (ws & rest & -> & Hne & Hws & Hg & Hgl & _).
  unfold heading_match_here. rewrite N.eqb_refl.
  pose proof (span_spec is_ws (ws ++ g ++ rest)) as (Hr & Hrun & Hrest).
  destruct (span is_ws (ws ++ g ++ rest)) as [run rest0] eqn:Es.
  cbn [fst snd] in *.
  destruct ws as [|w ws]; [congruence|].
  destruct run as [|w' run'].
  { simpl in Es. apply Forall_cons in Hws as [Hw _]. rewrite Hw in Es.
    destruct (span is_ws (ws ++ g ++ rest)). discriminate. }
  destruct rest0 as [|d rest0]; [|eauto].
  pose proof (last_non_terminator_spec run') as Hl.
  destruct (last_non_terminator run') as [c'|]; [eauto|].
  exfalso. rewrite app_nil_r in Hr. simpl in Hr. injection Hr as _ Hr.
  destruct g as [|x g]; [congruence|].
  apply Forall_cons in Hgl as [Hx _].
  assert (Hin : x ∈ run').
  { rewrite <- Hr. apply elem_of_app. right. apply list_elem_of_here. }
  rewrite Forall_forall in Hl. specialize (Hl x Hin). congruence.
Qed.

(** A position of [s] where [^] matches under the [m] flag: the start, or
    after a line terminator. *)
Definition line_start (pre : jsstring) : Prop :=
  match last pre with
  | Some c => is_line_terminator c = true
  | None => True
  end.

(** [heading_match] finds the group of the match at the first line start
    that has one. *)
Lemma heading_match_go_spec b pre s g :
  (b = true <-> line_start pre) ->
  heading_match_go b s = Some g ->
  exists mid post,
    s = mid ++ post /\ line_start (pre ++ mid) /\ heading_at_head post g
    /\ forall mid' post' g',
         s = mid' ++ post' -> length mid' < length mid ->
         line_start (pre ++ mid') -> ~ heading_at_head post' g'.
Proof.
  revert b pre; induction s as [|c s IH]; intros b pre Hb;
    cbn [heading_match_go].
  - intros H. destruct b; vm_compute in H; discriminate.
  - destruct (if b then heading_match_here (c :: s) else None) as [g0|] eqn:E.
    + intros H. injection H as ->. destruct b; [|discriminate].
      exists [], (c :: s). rewrite app_nil_r.
      split; [reflexivity|]. split; [apply Hb; reflexivity|].
      split; [apply heading_match_here_sound; exact E|].
      intros ? ? ? _ Hlt. simpl in Hlt. lia.
    + intros H.
      apply (IH (is_line_terminator c) (pre ++ [c])) in H
        as (mid & post & -> & Hls & Hh & Hleft).
      * exists (c :: mid), post. split; [reflexivity|].
        split; [rewrite <- app_assoc in Hls; exact Hls|].
        split; [exact Hh|].
        intros mid' post' g' H Hlt Hls' Hh'.
        destruct mid' as [|d mid'].
        -- simpl in H. subst post'. rewrite app_nil_r in Hls'.
           apply Hb in Hls'. subst b.
           apply heading_match_here_complete in Hh' as [g'' Hg''].
           congruence.
        -- injection H as Hd H. subst d.
           apply (Hleft mid' post' g' H); [simpl in Hlt; lia| |exact Hh'].
           rewrite <- app_assoc. exact Hls'.
      * unfold line_start. rewrite last_snoc. reflexivity.
Qed.

Lemma heading_match_spec s g :
  heading_match s = Some g ->
  exists pre post,
    s = pre ++ post /\ line_start pre /\ heading_at_head post g
    /\ forall pre' post' g',
         s = pre' ++ post' -> length pre' < length pre ->
         line_start pre' -> ~ heading_at_head post' g'.
Proof.
  intros H. apply (heading_match_go_spec true []) in H; [exact H|].
  split; [intros _; exact I | reflexivity].
Qed.

(** ** Claims on getTitle *)

(** A URL parser for the examples: an http or https URL made of a host and
    a plain path has for path component the text from the first slash
    after the host up to the query or the fragment, or a single slash; any
    other string is taken not to parse, which is what the platform does
    with a string that has no scheme. *)
Definition simple_url_pathname (u : jsstring) : option jsstring :=
  let after_scheme :=
    if startsWith u (js "https://") then Some (skipn 8 u)
    else if startsWith u (js "http://") then Some (skipn 7 u)
    else None in
  match after_scheme with
  | Some r =>
      let (host, r') :=
        span (fun c => negb ((c =? 47) || (c =? 63) || (c =? 35))%N) r in
      match host with
      | [] => None
      | _ :: _ =>
          let (path, _) :=
            span (fun c => negb ((c =? 63) || (c =? 35))%N) r' in
          Some (match path with [] => [47%N] | _ :: _ => path end)
      end
  | None => None
  end.

Example simple_url_pathname_ex1 :
  simple_url_pathname (js "https://a.com/docs/intro?x=1#top")
  = Some (js "/docs/intro").
Proof. reflexivity. Qed.

Example simple_url_pathname_ex2 :
  simple_url_pathname (js "/docs/intro") = None.
Proof. reflexivity. Qed.


Section TitleClaims.
Variable url_pathname : jsstring -> option jsstring.

Abbreviation getTitle' := (getTitle url_pathname).

(** With a URL that parses, every path through getTitle returns. *)
Lemma getTitle_returns (content url p : jsstring) :
  url_pathname url = Some p -> exists t, getTitle' content url = Return t.
Proof.
  intros Hp. unfold getTitle, new_URL_pathname. rewrite Hp.
  destruct (title_match content) as [g|].
  - destruct (trim g); eauto.
  - destruct (heading_match content) as [h|]; [|eauto].
    destruct (trim h); eauto.
Qed.


(** C9: getTitle returns normally on every content when the URL parses;
    when it does not, and the content has neither a title element with text
    left after trimming nor a heading line, getTitle throws the TypeError of
    the URL constructor; so it throws on some input as soon as some string
    is not a URL. *)
Theorem C9_getTitle_partial (content url bad : jsstring) :
  (url_pathname url <> None -> exists t, getTitle' content url = Return t)
  /\ (url_pathname url = None ->
      (forall g, title_match content = Some g -> trim g = []) ->
      heading_match content = None ->
      getTitle' content url = Throw TypeError)
  /\ (url_pathname bad = None ->
      exists c, title_match c = None /\ heading_match c = None
                /\ getTitle' c bad = Throw TypeError).
Proof.
  split; [|split].
  - intros Hp. destruct (url_pathname url) as [p|] eqn:E; [|congruence].
    eapply getTitle_returns. exact E.
  - intros Hp Hg Hh. unfold getTitle, new_URL_pathname. rewrite Hh, Hp.
    destruct (title_match content) as [g|]; [|reflexivity].
    rewrite (Hg g eq_refl). reflexivity.
  - intros Hp. exists []. split; [reflexivity|]. split; [reflexivity|].
    unfold getTitle, new_URL_pathname. simpl. rewrite Hp. reflexivity.
Qed.

End TitleClaims.





Lemma C9_witness :
  simple_url_pathname (js "/docs/intro") = None
  /\ (forall g, title_match (js "plain text") = Some g -> trim g = [])
  /\ heading_match (js "plain text") = None
  /\ getTitle simple_url_pathname (js "plain text") (js "/docs/intro")
     = Throw TypeError.
Proof.
  assert (H1 : simple_url_pathname (js "/docs/intro") = None) by reflexivity.
  assert (H2 : forall g, title_match (js "plain text") = Some g -> trim g = [])
    by (intros g H; vm_compute in H; discriminate).
  assert (H3 : heading_match (js "plain text") = None) by reflexivity.
  split; [exact H1|]. split; [exact H2|]. split; [exact H3|].
  exact (proj1 (proj2 (C9_getTitle_partial simple_url_pathname
                         (js "plain text") (js "/docs/intro") []))
               H1 H2 H3).
Defined.

(** ** trim *)

Lemma trimStart_spec s :
  exists a, s = a ++ trimStart s
            /\ Forall (fun c => is_ws c = true) a
            /\ no_leading_ws (trimStart s).
Proof.
  induction s as [|c s (a & Hs & Ha & Hl)]; simpl.
  - exists []. split; [reflexivity|]. split; [constructor | discriminate].
  - destruct (is_ws c) eqn:E.
    + exists (c :: a). split; [simpl; congruence|].
      split; [constructor; assumption | exact Hl].
    + exists []. split; [reflexivity|]. split; [constructor|].
      intros d Hd. injection Hd as <-. exact E.
Qed.

Lemma rev_reverse (s : jsstring) : rev s = reverse s.
Proof. apply rev_alt. Qed.

Lemma no_leading_ws_rev s : no_leading_ws (rev s) <-> no_trailing_ws s.
Proof.
  unfold no_leading_ws, no_trailing_ws. rewrite rev_reverse, head_reverse.
  reflexivity.
Qed.

Lemma trimStart_keeps_end s :
  no_trailing_ws s -> no_trailing_ws (trimStart s).
Proof.
  induction s as [|c s IH]; simpl; [auto|]. intros H.
  destruct (is_ws c) eqn:E; [|exact H].
  destruct s as [|d s]; [simpl; intros ? Hd; discriminate|].
  apply IH. eapply no_trailing_ws_tail; [discriminate | exact H].
Qed.

(** [trim] removes whitespace, and nothing else, from both ends. *)
Lemma trim_spec s :
  exists a b, s = a ++ trim s ++ b
              /\ Forall (fun c => is_ws c = true) a
              /\ Forall (fun c => is_ws c = true) b
              /\ no_leading_ws (trim s) /\ no_trailing_ws (trim s).
Proof.
  unfold trim, trimEnd.
  destruct (trimStart_spec s) as (a & Hs & Ha & Hl).
  destruct (trimStart_spec (rev (trimStart s))) as (b & Hr & Hb & Hlr).
  exists a, (rev b).
  assert (Ht : trimStart s = rev (trimStart (rev (trimStart s))) ++ rev b).
  { rewrite <- rev_app_distr, <- Hr, rev_involutive. reflexivity. }
  split; [rewrite <- Ht; exact Hs|]. split; [exact Ha|].
  split; [rewrite rev_reverse; apply Forall_reverse; exact Hb|].
  split.
  - apply no_leading_ws_rev. apply trimStart_keeps_end.
    apply no_leading_ws_rev. rewrite rev_involutive. exact Hl.
  - apply no_leading_ws_rev. rewrite rev_involutive. exact Hlr.
Qed.

(** ** Claims on the document export *)







(** ** Dates *)

Open Scope Z_scope.

(** The calendar of ECMAScript: the day number of the first day of a year,
    leap years, the length of a month and the day number of a date. *)
Definition DayFromYear (y : Z) : Z :=
  365 * (y - 1970) + (y - 1969) / 4 - (y - 1901) / 100 + (y - 1601) / 400.

Definition is_leap_year (y : Z) : bool :=
  (y mod 4 =? 0) && (negb (y mod 100 =? 0) || (y mod 400 =? 0)).

Definition days_in_month (y m : Z) : Z :=
  if m =? 2 then (if is_leap_year y then 29 else 28)
  else if (m =? 4) || (m =? 6) || (m =? 9) || (m =? 11) then 30
  else 31.

(** The days of the year before the month [m] (1 to 12). *)
Definition days_before_month (y m : Z) : Z :=
  nth (Z.to_nat (m - 1)) [0; 31; 59; 90; 120; 151; 181; 212; 243; 273; 304; 334]
      0
  + (if (2 <? m) && is_leap_year y then 1 else 0).

Definition day_number (y m d : Z) : Z :=
  DayFromYear y + days_before_month y m + (d - 1).

Lemma is_leap_year_spec y :
  is_leap_year y = true
  <-> y mod 4 = 0 /\ (y mod 100 <> 0 \/ y mod 400 = 0).
Proof.
  unfold is_leap_year.
  rewrite andb_true_iff, orb_true_iff, negb_true_iff, !Z.eqb_eq, Z.eqb_neq.
  reflexivity.
Qed.

Lemma is_leap_year_cases y :
  (is_leap_year y = true /\ y mod 4 = 0 /\ (y mod 100 <> 0 \/ y mod 400 = 0))
  \/ (is_leap_year y = false
      /\ (y mod 4 <> 0 \/ y mod 100 = 0 /\ y mod 400 <> 0)).
Proof.
  destruct (is_leap_year y) eqn:E.
  - left. split; [reflexivity|]. apply is_leap_year_spec. exact E.
  - right. split; [reflexivity|].
    destruct (Z.eq_dec (y mod 4) 0) as [H4|H4]; [|left; exact H4].
    right. destruct (Z.eq_dec (y mod 100) 0) as [H100|H100].
    + split; [exact H100|]. intros H400.
      assert (is_leap_year y = true) by (apply is_leap_year_spec; auto).
      congruence.
    + assert (is_leap_year y = true) by (apply is_leap_year_spec; auto).
      congruence.
Qed.

(** The table of [days_before_month] in closed form. *)
Lemma month_table m :
  1 <= m <= 12 ->
  nth (Z.to_nat (m - 1)) [0; 31; 59; 90; 120; 151; 181; 212; 243; 273; 304; 334]
      0
  = if m <=? 2 then 31 * (m - 1) else (153 * (m - 3) + 2) / 5 + 59.
Proof.
  intros H.
  assert (Hc : m = 1 \/ m = 2 \/ m = 3 \/ m = 4 \/ m = 5 \/ m = 6 \/ m = 7
               \/ m = 8 \/ m = 9 \/ m = 10 \/ m = 11 \/ m = 12) by lia.
  destruct Hc as [->|[->|[->|[->|[->|[->|[->|[->|[->|[->|[->| ->]]]]]]]]]]];
    reflexivity.
Qed.

Lemma month_length y m :
  1 <= m <= 12 ->
  days_in_month y m
  = if m =? 2 then (if is_leap_year y then 29 else 28)
    else 30 + (m + m / 8) mod 2.
Proof.
  intros H. unfold days_in_month.
  assert (Hc : m = 1 \/ m = 2 \/ m = 3 \/ m = 4 \/ m = 5 \/ m = 6 \/ m = 7
               \/ m = 8 \/ m = 9 \/ m = 10 \/ m = 11 \/ m = 12) by lia.
  destruct Hc as [->|[->|[->|[->|[->|[->|[->|[->|[->|[->|[->| ->]]]]]]]]]]];
    reflexivity.
Qed.

(** Inside the era that starts on 0000-03-01 the date computed for a day is
    a date of the calendar, and it is the date of that day. *)
Lemma era_day_props doe y m d :
  0 <= doe < 146097 -> civil_from_days (doe - 719468) = (y, m, d) ->
  day_number y m d = doe - 719468
  /\ 1 <= m <= 12 /\ 1 <= d <= days_in_month y m.
Proof.
  intros Hdoe. unfold civil_from_days.
  replace (doe - 719468 + 719468) with doe by lia.
  replace (doe / 146097) with 0 by (symmetry; apply Z.div_small; lia).
  replace (doe - 0 * 146097) with doe by lia. cbv zeta.
  set (yoe := (doe - doe / 1460 + doe / 36524 - doe / 146096) / 365).
  set (doy := doe - (365 * yoe + yoe / 4 - yoe / 100)).
  set (mp := (5 * doy + 2) / 153).
  assert (Hy : 0 <= yoe <= 399 /\ 0 <= doy <= 365).
  { subst doy yoe. Z.div_mod_to_equations. lia. }
  assert (Hdoe' : doe = 365 * yoe + yoe / 4 - yoe / 100 + doy)
    by (subst doy; lia).
  assert (Hnext : yoe < 399 ->
                  doe < 365 * (yoe + 1) + (yoe + 1) / 4 - (yoe + 1) / 100).
  { subst doy yoe. intros. Z.div_mod_to_equations. lia. }
  clearbody doy yoe.
  assert (Hmp : 0 <= mp <= 11) by (subst mp; Z.div_mod_to_equations; lia).
  assert (Hmpd : 153 * mp <= 5 * doy + 2 < 153 * mp + 153)
    by (subst mp; Z.div_mod_to_equations; lia).
  clearbody mp.
  set (m0 := if mp <? 10 then mp + 3 else mp - 9).
  assert (Hm : 1 <= m0 <= 12 /\ (mp < 10 /\ m0 = mp + 3 \/ 10 <= mp /\ m0 = mp - 9)).
  { subst m0. destruct (Z.ltb_spec mp 10); lia. }
  clearbody m0.
  intros H. injection H as <- <- <-.
  assert (Hc : mp = 0 \/ mp = 1 \/ mp = 2 \/ mp = 3 \/ mp = 4 \/ mp = 5
               \/ mp = 6 \/ mp = 7 \/ mp = 8 \/ mp = 9 \/ mp = 10
               \/ mp = 11) by lia.
  split; [|split; [lia|]].
  - unfold day_number, days_before_month, DayFromYear.
    rewrite month_table by lia.
    destruct (Z.leb_spec m0 2); destruct (Z.ltb_spec 2 m0); try lia;
      rewrite ?andb_false_l, ?andb_true_l.
    + (Z.div_mod_to_equations;
            destruct Hc as [->|[->|[->|[->|[->|[->|[->|[->|[->|[->|[->| ->]]]]]]]]]]];
            lia).
    + match goal with
      | |- context [is_leap_year ?t] =>
          destruct (is_leap_year_cases t) as [[-> Hl]|[-> Hl]]
      end;
        (Z.div_mod_to_equations;
            destruct Hc as [->|[->|[->|[->|[->|[->|[->|[->|[->|[->|[->| ->]]]]]]]]]]];
            lia).
  - rewrite month_length by lia.
    destruct (Z.eqb_spec m0 2).
    + destruct (Z.leb_spec m0 2); [|lia].
      match goal with
      | |- context [is_leap_year ?t] =>
          destruct (is_leap_year_cases t) as [[-> Hl]|[-> Hl]]
      end;
        (Z.div_mod_to_equations;
            destruct Hc as [->|[->|[->|[->|[->|[->|[->|[->|[->|[->|[->| ->]]]]]]]]]]];
            lia).
    + (Z.div_mod_to_equations;
            destruct Hc as [->|[->|[->|[->|[->|[->|[->|[->|[->|[->|[->| ->]]]]]]]]]]];
            lia).
Qed.

Lemma DayFromYear_era y e :
  DayFromYear (y + e * 400) = DayFromYear y + e * 146097.
Proof.
  unfold DayFromYear.
  replace (y + e * 400 - 1969) with (y - 1969 + (e * 100) * 4) by lia.
  replace (y + e * 400 - 1901) with (y - 1901 + (e * 4) * 100) by lia.
  replace (y + e * 400 - 1601) with (y - 1601 + e * 400) by lia.
  rewrite !Z.div_add by lia. lia.
Qed.

Lemma is_leap_year_era y e : is_leap_year (y + e * 400) = is_leap_year y.
Proof.
  unfold is_leap_year.
  replace ((y + e * 400) mod 4) with (y mod 4)
    by (replace (e * 400) with ((e * 100) * 4) by lia;
        symmetry; apply Z.mod_add; lia).
  replace ((y + e * 400) mod 100) with (y mod 100)
    by (replace (e * 400) with ((e * 4) * 100) by lia;
        symmetry; apply Z.mod_add; lia).
  replace ((y + e * 400) mod 400) with (y mod 400)
    by (symmetry; apply Z.mod_add; lia).
  reflexivity.
Qed.

Lemma civil_from_days_era z :
  let e := (z + 719468) / 146097 in
  let doe := (z + 719468) mod 146097 in
  civil_from_days z
  = let '(y, m, d) := civil_from_days (doe - 719468) in (y + e * 400, m, d).
Proof.
  intros e doe. unfold civil_from_days.
  assert (Hdoe : 0 <= doe < 146097) by (apply Z.mod_pos_bound; lia).
  replace (doe - 719468 + 719468) with doe by lia.
  replace (doe / 146097) with 0 by (symmetry; apply Z.div_small; lia).
  replace (doe - 0 * 146097) with doe by lia.
  replace (z + 719468 - (z + 719468) / 146097 * 146097) with doe.
  2:{ unfold doe. rewrite Z.mod_eq by lia. lia. }
  fold e. cbv zeta.
  set (yoe := (doe - doe / 1460 + doe / 36524 - doe / 146096) / 365).
  set (doy := doe - (365 * yoe + yoe / 4 - yoe / 100)).
  set (mp := (5 * doy + 2) / 153).
  f_equal. f_equal. lia.
Qed.


Lemma civil_from_days_spec z :
  forall y m d, civil_from_days z = (y, m, d) ->
  day_number y m d = z /\ 1 <= m <= 12 /\ 1 <= d <= days_in_month y m.
Proof.
  intros y m d. rewrite civil_from_days_era.
  set (e := (z + 719468) / 146097). set (doe := (z + 719468) mod 146097).
  assert (Hdoe : 0 <= doe < 146097) by (apply Z.mod_pos_bound; lia).
  assert (Hz : z = doe - 719468 + e * 146097).
  { unfold doe, e. rewrite Z.mod_eq by lia. lia. }
  clearbody e doe.
  destruct (civil_from_days (doe - 719468)) as [[y0 m0] d0] eqn:E.
  intros H. injection H as <- <- <-.
  destruct (era_day_props doe _ _ _ Hdoe E) as (H1 & H2 & H3).
  split; [|split; [lia|]].
  - unfold day_number, days_before_month in *.
    rewrite DayFromYear_era, is_leap_year_era. lia.
  - unfold days_in_month in *. rewrite is_leap_year_era. lia.
Qed.

Lemma days_before_month_bounds y m :
  1 <= m <= 12 -> 0 <= days_before_month y m <= 335.
Proof.
  intros H. unfold days_before_month.
  assert (Hc : m = 1 \/ m = 2 \/ m = 3 \/ m = 4 \/ m = 5 \/ m = 6 \/ m = 7
               \/ m = 8 \/ m = 9 \/ m = 10 \/ m = 11 \/ m = 12) by lia.
  destruct Hc as [->|[->|[->|[->|[->|[->|[->|[->|[->|[->|[->| ->]]]]]]]]]]];
    destruct (is_leap_year y); vm_compute; split; discriminate.
Qed.

(** [s] is the date-time string of the instant [t], in milliseconds since
    1970-01-01T00:00:00Z: a date of the calendar, a time of the day, and
    the instant they denote. *)
Definition iso8601_instant (t : Z) (s : jsstring) : Prop :=
  exists y mo d h mi sec ms,
    s = iso_year y ++ js "-" ++ pad2 mo ++ js "-" ++ pad2 d ++ js "T"
        ++ pad2 h ++ js ":" ++ pad2 mi ++ js ":" ++ pad2 sec ++ js "."
        ++ pad3 ms ++ js "Z"
    /\ -999999 <= y <= 999999
    /\ 1 <= mo <= 12 /\ 1 <= d <= days_in_month y mo
    /\ 0 <= h < 24 /\ 0 <= mi < 60 /\ 0 <= sec < 60 /\ 0 <= ms < 1000
    /\ t = (((day_number y mo d * 24 + h) * 60 + mi) * 60 + sec) * 1000 + ms.

Lemma toISOString_spec t :
  Z.abs t <= maxTime ->
  exists s, toISOString t = Return s /\ iso8601_instant t s.
Proof.
  intros Ht. unfold toISOString.
  replace (Z.abs t <=? maxTime) with true by (symmetry; apply Z.leb_le; exact Ht).
  destruct (civil_from_days (t / msPerDay)) as [[y m] d] eqn:Ec.
  destruct (civil_from_days_spec _ _ _ _ Ec) as (Hday & Hm & Hd).
  eexists. split; [reflexivity|].
  exists y, m, d, (t mod msPerDay / 3600000), (t mod msPerDay / 60000 mod 60),
    (t mod msPerDay / 1000 mod 60), (t mod msPerDay mod 1000).
  split; [reflexivity|].
  pose proof (days_before_month_bounds y m Hm) as Hb.
  assert (Hdim : days_in_month y m <= 31).
  { unfold days_in_month. destruct (m =? 2); [destruct (is_leap_year y); lia|].
    destruct ((m =? 4) || (m =? 6) || (m =? 9) || (m =? 11)); lia. }
  unfold day_number in *. unfold DayFromYear in *.
  unfold msPerDay, maxTime in *.
  split; [Z.div_mod_to_equations; lia|].
  split; [exact Hm|]. split; [exact Hd|].
  rewrite Hday. clear Hday Hb Hdim Hd Hm.
  repeat split; Z.div_mod_to_equations; lia.
Qed.

Lemma toISOString_throws t :
  maxTime < Z.abs t -> toISOString t = Throw RangeError.
Proof.
  intros Ht. unfold toISOString.
  replace (Z.abs t <=? maxTime) with false
    by (symmetry; apply Z.leb_gt; exact Ht).
  reflexivity.
Qed.

Example toISOString_ex1 :
  toISOString 1700000000000 = Return (js "2023-11-14T22:13:20.000Z").
Proof. reflexivity. Qed.

Example toISOString_ex2 :
  toISOString (-1) = Return (js "1969-12-31T23:59:59.999Z").
Proof. reflexivity. Qed.

Example toISOString_ex3 :
  toISOString 951782400000 = Return (js "2000-02-29T00:00:00.000Z").
Proof. reflexivity. Qed.

Example toISOString_ex4 :
  toISOString maxTime = Return (js "+275760-09-13T00:00:00.000Z").
Proof. reflexivity. Qed.

Example toISOString_ex5 :
  toISOString (- maxTime) = Return (js "-271821-04-20T00:00:00.000Z").
Proof. reflexivity. Qed.

Example toISOString_ex6 :
  toISOString (-62198755200000) = Return (js "-000001-01-01T00:00:00.000Z").
Proof. reflexivity. Qed.

Close Scope Z_scope.

(** ** Claims on the tabular export *)




(** A character that needs no quoting. *)
Definition csv_plain (c : N) : bool :=
  negb ((c =? COMMA) || (c =? DQUOTE) || (c =? NEWLINE))%N.

Lemma includes_char s c : includes s [c] = true <-> c ∈ s.
Proof.
  rewrite includes_occurs. unfold occurs. split.
  - intros (pre & post & ->). apply elem_of_app. right. apply list_elem_of_here.
  - intros H. apply list_elem_of_split in H as (pre & post & ->).
    exists pre, post. reflexivity.
Qed.




Lemma digit_char_plain d : csv_plain (digit_char d) = true.
Proof.
  unfold csv_plain, digit_char, COMMA, DQUOTE, NEWLINE.
  apply negb_true_iff. rewrite !orb_false_iff, !N.eqb_neq. lia.
Qed.

Lemma uint_chars_plain u : forallb csv_plain (uint_chars u) = true.
Proof. induction u; simpl; auto. Qed.

Lemma number_to_string_plain n : forallb csv_plain (number_to_string n) = true.
Proof. destruct n; simpl; [reflexivity | | ]; apply uint_chars_plain. Qed.

Lemma status_or_empty_plain st : forallb csv_plain (status_or_empty st) = true.
Proof.
  destruct st as [n|]; simpl; [|reflexivity].
  destruct (n =? 0)%Z; [reflexivity | apply number_to_string_plain].
Qed.

Lemma pad2_plain n : forallb csv_plain (pad2 n) = true.
Proof. unfold pad2. simpl. rewrite !digit_char_plain. reflexivity. Qed.

Lemma pad3_plain n : forallb csv_plain (pad3 n) = true.
Proof.
  unfold pad3, pad2. cbn [forallb]. rewrite !digit_char_plain. reflexivity.
Qed.

Lemma iso_year_plain y : forallb csv_plain (iso_year y) = true.
Proof.
  unfold iso_year, pad6, pad4, pad3, pad2.
  destruct ((0 <=? y)%Z && (y <=? 9999)%Z); [|destruct (y <? 0)%Z];
    cbn [forallb]; rewrite !digit_char_plain; reflexivity.
Qed.

Lemma toISOString_plain t s :
  toISOString t = Return s -> forallb csv_plain s = true.
Proof.
  unfold toISOString. destruct (Z.abs t <=? maxTime)%Z; [|discriminate].
  destruct (civil_from_days (t / msPerDay)) as [[y m] d].
  intros H.
  match type of H with Return ?x = _ => assert (Hs : s = x) by congruence end.
  subst s.
  rewrite !forallb_app, iso_year_plain, !pad2_plain, pad3_plain. reflexivity.
Qed.


(** A timestamp [Date] accepts. *)
Definition valid_time (p : StoredPage) : Prop :=
  (Z.abs (timestamp p) <= maxTime)%Z.






(** A page whose url and domain have to be quoted. *)
Definition quoted_page : StoredPage :=
  {| url := js "https://a.com/1,x"; domain := [97; DQUOTE; 98]%N;
     content := js "text"; status := None; contentSize := 4;
     timestamp := 1700000000000%Z |}.

Example csv_export_ex :
  exportPages (js "2024-05-06T01:02:03.004Z") [quoted_page; cats_page] csv
    (js "kb")
  = Return {| blob := js "url,domain,status,content_size,timestamp"
                      ++ [NEWLINE; DQUOTE] ++ js "https://a.com/1,x"
                      ++ [DQUOTE; COMMA; DQUOTE; 97; DQUOTE; DQUOTE; 98;
                          DQUOTE]%N
                      ++ js ",,4,2023-11-14T22:13:20.000Z" ++ [NEWLINE]
                      ++ js "https://a.com/1,a.com,200,40,2023-11-14T22:13:20.000Z";
              filename := js "kb-2024-05-06.csv";
              mimeType := js "text/csv" |}.
Proof. vm_compute. reflexivity. Qed.




(** ** JSON: strings and numbers read back *)

Module JSONFacts.
Import JSON.

Lemma skip_ws_other c s : is_json_ws c = false -> skip_ws (c :: s) = c :: s.
Proof. intros H. simpl. rewrite H. reflexivity. Qed.

Lemma skip_ws_app ws s :
  Forall (fun c => is_json_ws c = true) ws -> skip_ws (ws ++ s) = skip_ws s.
Proof.
  induction 1 as [|c ws Hc _ IH]; simpl; [reflexivity|].
  rewrite Hc. exact IH.
Qed.

Lemma hex_digit_value d :
  (d < 16)%N -> hex_value (hex_digit d) = Some d.
Proof.
  intros H. unfold hex_digit, hex_value, is_digit.
  destruct (N.ltb_spec d 10).
  - replace ((48 <=? 48 + d) && (48 + d <=? 57))%N with true
      by (symmetry; rewrite andb_true_iff, !N.leb_le; lia).
    f_equal. lia.
  - replace ((48 <=? 87 + d) && (87 + d <=? 57))%N with false
      by (symmetry; rewrite andb_false_iff, !N.leb_gt; lia).
    replace ((97 <=? 87 + d) && (87 + d <=? 102))%N with true
      by (symmetry; rewrite andb_true_iff, !N.leb_le; lia).
    f_equal. lia.
Qed.

(** A character written as it is reads as itself. *)
Lemma parse_string_body_literal c s :
  c <> DQUOTE -> c <> BACKSLASH -> (32 <= c)%N ->
  parse_string_body (c :: s)
  = match parse_string_body s with
    | Some (str, rest) => Some (c :: str, rest)
    | None => None
    end.
Proof.
  intros H1 H2 H3. simpl.
  replace (c =? DQUOTE)%N with false by (symmetry; apply N.eqb_neq; exact H1).
  replace (c =? BACKSLASH)%N with false
    by (symmetry; apply N.eqb_neq; exact H2).
  replace (c <? 32)%N with false by (symmetry; apply N.ltb_ge; exact H3).
  reflexivity.
Qed.

(** A character written as a [\u] escape reads as itself. *)
Lemma parse_string_body_unicode c s :
  (c < 65536)%N ->
  parse_string_body (unicode_escape c ++ s)
  = match parse_string_body s with
    | Some (str, rest) => Some (c :: str, rest)
    | None => None
    end.
Proof.
  intros H. unfold unicode_escape. cbn [app parse_string_body].
  change (BACKSLASH =? DQUOTE)%N with false.
  change (BACKSLASH =? BACKSLASH)%N with true.
  change (117 =? 117)%N with true. cbv iota.
  rewrite !hex_digit_value by (apply N.mod_lt; discriminate).
  destruct (parse_string_body s) as [[str rest]|]; [|reflexivity].
  f_equal. f_equal. f_equal.
  pose proof (N.Div0.div_mod c 4096). pose proof (N.Div0.div_mod (c / 4096) 16).
  pose proof (N.Div0.div_mod c 256). pose proof (N.Div0.div_mod (c / 256) 16).
  pose proof (N.Div0.div_mod c 16). pose proof (N.Div0.div_mod (c / 16) 16).
  assert (c / 4096 < 16)%N by (apply N.Div0.div_lt_upper_bound; lia).
  rewrite (N.mod_small (c / 4096) 16) by assumption.
  replace (c / 256)%N with (c / 16 / 16)%N in *
    by (rewrite N.Div0.div_div; reflexivity).
  replace (c / 4096)%N with (c / 16 / 16 / 16)%N in *
    by (rewrite !N.Div0.div_div; reflexivity).
  pose proof (N.Div0.div_mod (c / 16 / 16) 16).
  assert (c / 16 / 16 / 16 < 16)%N by assumption.
  pose proof (N.mod_lt (c / 16 / 16) 16 ltac:(discriminate)).
  pose proof (N.mod_lt (c / 16) 16 ltac:(discriminate)).
  pose proof (N.mod_lt c 16 ltac:(discriminate)).
  lia.
Qed.

(** A character written by [quote_char] reads as itself. *)
Lemma parse_string_body_quote_char c s :
  (c < 55296)%N \/ (57343 < c)%N ->
  parse_string_body (quote_char c ++ s)
  = match parse_string_body s with
    | Some (str, rest) => Some (c :: str, rest)
    | None => None
    end.
Proof.
  intros Hc. unfold quote_char.
  destruct (N.eqb_spec c 8) as [->|H8]; [reflexivity|].
  destruct (N.eqb_spec c 9) as [->|H9]; [reflexivity|].
  destruct (N.eqb_spec c 10) as [->|H10]; [reflexivity|].
  destruct (N.eqb_spec c 12) as [->|H12]; [reflexivity|].
  destruct (N.eqb_spec c 13) as [->|H13]; [reflexivity|].
  destruct (N.eqb_spec c DQUOTE) as [->|Hq]; [reflexivity|].
  destruct (N.eqb_spec c BACKSLASH) as [->|Hb]; [reflexivity|].
  destruct (N.ltb_spec c 32).
  - apply parse_string_body_unicode. lia.
  - apply parse_string_body_literal; assumption.
Qed.

Lemma surrogate_literal c s :
  is_high_surrogate c = true \/ is_low_surrogate c = true ->
  parse_string_body (c :: s)
  = match parse_string_body s with
    | Some (str, rest) => Some (c :: str, rest)
    | None => None
    end.
Proof.
  unfold is_high_surrogate, is_low_surrogate.
  rewrite !andb_true_iff, !N.leb_le. intros H.
  apply parse_string_body_literal; unfold DQUOTE, BACKSLASH; lia.
Qed.

Lemma surrogate_escape c s :
  is_high_surrogate c = true \/ is_low_surrogate c = true ->
  parse_string_body (unicode_escape c ++ s)
  = match parse_string_body s with
    | Some (str, rest) => Some (c :: str, rest)
    | None => None
    end.
Proof.
  unfold is_high_surrogate, is_low_surrogate.
  rewrite !andb_true_iff, !N.leb_le. intros H.
  apply parse_string_body_unicode. lia.
Qed.

(** What [QuoteJSONString] writes between the quotes reads back as the
    string, up to the closing quote. *)
Lemma parse_quote_body_go n s rest :
  length s <= n ->
  parse_string_body (quote_body s ++ DQUOTE :: rest) = Some (s, rest).
Proof.
  revert s; induction n as [|n IH]; intros s Hn.
  - destruct s; [reflexivity | simpl in Hn; lia].
  - destruct s as [|c s]; [reflexivity|]. simpl in Hn.
    cbn [quote_body].
    destruct (is_high_surrogate c) eqn:Eh.
    + destruct s as [|d s].
      * rewrite surrogate_escape by auto. reflexivity.
      * destruct (is_low_surrogate d) eqn:El.
        -- cbn [app]. rewrite surrogate_literal by auto.
           rewrite surrogate_literal by auto.
           rewrite IH by (simpl in Hn; lia). reflexivity.
        -- rewrite <- app_assoc, surrogate_escape by auto.
           rewrite IH by (simpl in *; lia). reflexivity.
    + destruct (is_low_surrogate c) eqn:El.
      * rewrite <- app_assoc, surrogate_escape by auto.
        rewrite IH by lia. reflexivity.
      * rewrite <- app_assoc, parse_string_body_quote_char.
        -- rewrite IH by lia. reflexivity.
        -- unfold is_high_surrogate, is_low_surrogate in *.
           rewrite andb_false_iff, !N.leb_gt in Eh, El. lia.
Qed.

Lemma parse_quote_body s rest :
  parse_string_body (quote_body s ++ DQUOTE :: rest) = Some (s, rest).
Proof. apply (parse_quote_body_go (length s)). reflexivity. Qed.

(** A character that cannot continue a number. *)
Definition ends_number (rest : jsstring) : Prop :=
  forall c, head rest = Some c ->
    is_digit c = false /\ c <> 46%N /\ c <> 101%N /\ c <> 69%N.

Lemma parse_digits_print u rest :
  (forall c, head rest = Some c -> is_digit c = false) ->
  parse_digits (uint_chars u ++ rest) = (u, rest).
Proof.
  intros Hr. induction u; cbn [uint_chars app parse_digits];
    try (change (is_digit _) with true; cbv iota; rewrite IHu; reflexivity).
  destruct rest as [|c rest]; [reflexivity|]. simpl.
  rewrite (Hr c eq_refl). reflexivity.
Qed.

Lemma to_uint_no_leading_zero p u : Pos.to_uint p <> Decimal.D0 u.
Proof.
  intros H.
  assert (Hn : Pos.to_uint p = Decimal.unorm (Pos.to_uint p)).
  { rewrite <- DecimalPos.Unsigned.to_of, DecimalPos.Unsigned.of_to.
    reflexivity. }
  destruct (Decimal.nzhead (Pos.to_uint p)) eqn:E.
  - apply DecimalFacts.unorm_0 in E. rewrite <- Hn in E.
    exact (DecimalPos.Unsigned.to_uint_nonzero p E).
  - rewrite DecimalFacts.unorm_nzhead in Hn by (rewrite E; discriminate).
    rewrite Hn in H. exact (DecimalFacts.nzhead_nonzero _ _ H).
  - rewrite DecimalFacts.unorm_nzhead in Hn by (rewrite E; discriminate).
    rewrite Hn in H. exact (DecimalFacts.nzhead_nonzero _ _ H).
  - rewrite DecimalFacts.unorm_nzhead in Hn by (rewrite E; discriminate).
    rewrite Hn in H. exact (DecimalFacts.nzhead_nonzero _ _ H).
  - rewrite DecimalFacts.unorm_nzhead in Hn by (rewrite E; discriminate).
    rewrite Hn in H. exact (DecimalFacts.nzhead_nonzero _ _ H).
  - rewrite DecimalFacts.unorm_nzhead in Hn by (rewrite E; discriminate).
    rewrite Hn in H. exact (DecimalFacts.nzhead_nonzero _ _ H).
  - rewrite DecimalFacts.unorm_nzhead in Hn by (rewrite E; discriminate).
    rewrite Hn in H. exact (DecimalFacts.nzhead_nonzero _ _ H).
  - rewrite DecimalFacts.unorm_nzhead in Hn by (rewrite E; discriminate).
    rewrite Hn in H. exact (DecimalFacts.nzhead_nonzero _ _ H).
  - rewrite DecimalFacts.unorm_nzhead in Hn by (rewrite E; discriminate).
    rewrite Hn in H. exact (DecimalFacts.nzhead_nonzero _ _ H).
  - rewrite DecimalFacts.unorm_nzhead in Hn by (rewrite E; discriminate).
    rewrite Hn in H. exact (DecimalFacts.nzhead_nonzero _ _ H).
  - rewrite DecimalFacts.unorm_nzhead in Hn by (rewrite E; discriminate).
    rewrite Hn in H. exact (DecimalFacts.nzhead_nonzero _ _ H).
Qed.

Lemma ends_number_cases rest (A : Type) (x y : A) :
  ends_number rest ->
  match rest with
  | c :: _ => if ((c =? 46) || (c =? 101) || (c =? 69))%N then x else y
  | [] => y
  end = y.
Proof.
  intros H. destruct rest as [|c rest]; [reflexivity|].
  destruct (H c eq_refl) as (_ & H1 & H2 & H3).
  apply N.eqb_neq in H1, H2, H3. rewrite H1, H2, H3. reflexivity.
Qed.

Lemma parse_natural_pos p rest :
  ends_number rest ->
  parse_natural (uint_chars (Pos.to_uint p) ++ rest) = Some (Z.pos p, rest).
Proof.
  intros Hr. unfold parse_natural.
  rewrite parse_digits_print by (intros c Hc; apply Hr; exact Hc).
  pose proof (DecimalPos.Unsigned.of_to p) as Hp.
  pose proof (DecimalPos.Unsigned.to_uint_nonnil p) as Hnil.
  pose proof (to_uint_no_leading_zero p) as Hz.
  unfold N.of_uint.
  destruct (Pos.to_uint p) as [|u|u|u|u|u|u|u|u|u|u]; try congruence;
    try (rewrite Hp, ends_number_cases by exact Hr; reflexivity).
Qed.

Lemma parse_natural_zero rest :
  ends_number rest -> parse_natural (48%N :: rest) = Some (0%Z, rest).
Proof.
  intros Hr. unfold parse_natural.
  change (48%N :: rest) with (uint_chars (Decimal.D0 Decimal.Nil) ++ rest).
  rewrite parse_digits_print by (intros c Hc; apply Hr; exact Hc).
  rewrite ends_number_cases by exact Hr. reflexivity.
Qed.

Lemma uint_chars_head u :
  u <> Decimal.Nil ->
  exists c s, uint_chars u = c :: s /\ is_digit c = true.
Proof. destruct u; intros H; try congruence; simpl; eauto. Qed.

(** The decimal digits of a number read back as the number. *)
Lemma parse_number_print n rest :
  ends_number rest ->
  parse_number (number_to_string n ++ rest) = Some (n, rest).
Proof.
  intros Hr. destruct n as [|p|p]; cbn [number_to_string].
  - cbn [app parse_number]. change (48 =? 45)%N with false. cbv iota.
    apply parse_natural_zero. exact Hr.
  - destruct (uint_chars_head (Pos.to_uint p)
                (DecimalPos.Unsigned.to_uint_nonnil p)) as (c & s & E & Hc).
    pose proof (parse_natural_pos p rest Hr) as Hp. rewrite E in *.
    cbn [app parse_number].
    replace (c =? 45)%N with false; [exact Hp|].
    symmetry. apply N.eqb_neq. intros ->. discriminate.
  - cbn [app parse_number]. change (45 =? 45)%N with true. cbv iota.
    rewrite parse_natural_pos by exact Hr. reflexivity.
Qed.

Lemma number_to_string_head n :
  exists c s, number_to_string n = c :: s
              /\ (is_digit c = true \/ c = 45%N).
Proof.
  destruct n as [|p|p]; cbn [number_to_string].
  - exists 48%N, []. auto.
  - destruct (uint_chars_head (Pos.to_uint p)
                (DecimalPos.Unsigned.to_uint_nonnil p)) as (c & s & E & Hc).
    exists c, s. auto.
  - eauto.
Qed.

(** *** The layout of the structured export *)

(** The properties written for a page, in order; a missing status is not
    written. *)
Definition page_fields (p : StoredPage) : list (jsstring * jsval) :=
  [ (js "url", VStr (url p)); (js "content", VStr (content p)) ]
    ++ match status p with
       | Some n => [ (js "status", VNum n) ]
       | None => []
       end
    ++ [ (js "domain", VStr (domain p)); (js "timestamp", VNum (timestamp p)) ].

Definition is_scalar (v : jsval) : Prop :=
  match v with
  | VStr _ | VNum _ => True
  | _ => False
  end.

Definition scalar_text (v : jsval) : jsstring :=
  match v with
  | VStr s => quote s
  | VNum n => number_to_string n
  | _ => js "null"
  end.

Definition member_text (kv : jsstring * jsval) : jsstring :=
  quote (fst kv) ++ js ": " ++ scalar_text (snd kv).

(** An object of the array: its members on lines of their own, four blanks
    in, between braces, the closing one two blanks in. *)
Definition object_text (fields : list (jsstring * jsval)) : jsstring :=
  js "{" ++ [NEWLINE] ++ js "    "
    ++ join (js "," ++ [NEWLINE] ++ js "    ") (List.map member_text fields)
    ++ [NEWLINE] ++ js "  " ++ js "}".

(** The array: its objects on lines of their own, two blanks in, between
    brackets; the empty array has no line. *)
Definition array_text (objects : list jsstring) : jsstring :=
  match objects with
  | [] => js "[]"
  | _ :: _ =>
      js "[" ++ [NEWLINE] ++ js "  "
        ++ join (js "," ++ [NEWLINE] ++ js "  ") objects
        ++ [NEWLINE] ++ js "]"
  end.

Lemma serialize_page p :
  serialize (js "  ") (js "  ") (json_object p)
  = Some (object_text (page_fields p)).
Proof.
  unfold json_object, page_fields. destruct (status p); reflexivity.
Qed.

Lemma stringify_pages pages :
  stringify (VArr (List.map json_object pages)) 2
  = Some (array_text (List.map (fun p => object_text (page_fields p)) pages)).
Proof.
  unfold stringify. change (repeat SPACE (Nat.min 2 10)) with (js "  ").
  cbn [serialize]. change ([] ++ js "  ") with (js "  ").
  rewrite map_map.
  rewrite (map_ext _ (fun p => object_text (page_fields p)))
    by (intros p; rewrite serialize_page; reflexivity).
  destruct pages; reflexivity.
Qed.

(** *** Reading the layout back *)

Definition all_json_ws (ws : jsstring) : Prop :=
  Forall (fun c => is_json_ws c = true) ws.

Lemma parse_value_number_head fuel c s :
  is_digit c = true \/ c = 45%N ->
  parse_value (S fuel) (c :: s)
  = match parse_number (c :: s) with
    | Some (n, rest) => Some (VNum n, rest)
    | None => None
    end.
Proof.
  intros Hc.
  assert (H : (45 <= c <= 57)%N).
  { destruct Hc as [Hc| ->]; [|lia]. unfold is_digit in Hc.
    rewrite andb_true_iff, !N.leb_le in Hc. lia. }
  cbn [parse_value].
  assert (Hws : is_json_ws c = false).
  { unfold is_json_ws. rewrite !orb_false_iff, !N.eqb_neq. lia. }
  rewrite (skip_ws_other c s Hws).
  replace (c =? DQUOTE)%N with false
    by (symmetry; apply N.eqb_neq; unfold DQUOTE; lia).
  replace (c =? 91)%N with false by (symmetry; apply N.eqb_neq; lia).
  replace (c =? 123)%N with false by (symmetry; apply N.eqb_neq; lia).
  replace (c =? 110)%N with false by (symmetry; apply N.eqb_neq; lia).
  replace (c =? 116)%N with false by (symmetry; apply N.eqb_neq; lia).
  replace (c =? 102)%N with false by (symmetry; apply N.eqb_neq; lia).
  reflexivity.
Qed.

Lemma ends_number_separator c rest :
  c = COMMA \/ c = NEWLINE -> ends_number (c :: rest).
Proof.
  intros Hc d Hd. injection Hd as <-.
  destruct Hc as [-> | ->]; repeat split; discriminate.
Qed.

(** A string or a number of the layout, after any whitespace and before a
    comma or a line feed, reads back as itself. *)
Lemma parse_value_scalar fuel ws v c rest :
  all_json_ws ws -> is_scalar v -> c = COMMA \/ c = NEWLINE ->
  parse_value (S fuel) (ws ++ scalar_text v ++ c :: rest)
  = Some (v, c :: rest).
Proof.
  intros Hws Hv Hc. destruct v as [| | |n|s| |]; try destruct Hv.
  - cbn [scalar_text].
    destruct (number_to_string_head n) as (d & t & E & Hd).
    cbn [parse_value]. rewrite skip_ws_app by exact Hws.
    pose proof (parse_value_number_head fuel d (t ++ c :: rest) Hd) as H.
    cbn [parse_value] in H. rewrite E. cbn [app]. rewrite H.
    change (d :: t ++ c :: rest) with ((d :: t) ++ c :: rest).
    rewrite <- E, parse_number_print by (apply ends_number_separator; exact Hc).
    reflexivity.
  - cbn [scalar_text parse_value]. rewrite skip_ws_app by exact Hws.
    unfold quote. cbn [app]. rewrite skip_ws_other by reflexivity.
    change (DQUOTE =? DQUOTE)%N with true. cbv iota.
    rewrite <- app_assoc. cbn [app]. rewrite parse_quote_body. reflexivity.
Qed.

Lemma join_cons2 sep (x y : jsstring) l :
  join sep (x :: y :: l) = x ++ sep ++ join sep (y :: l).
Proof. reflexivity. Qed.

(** The members of an object of the layout read back as its fields. *)
Lemma parse_members_fields fields :
  forall fuel ws rest,
    fields <> [] -> Forall (fun kv => is_scalar (snd kv)) fields ->
    all_json_ws ws -> length fields < fuel ->
    parse_members fuel
      (ws ++ join (js "," ++ [NEWLINE] ++ js "    ")
                  (List.map member_text fields)
          ++ [NEWLINE] ++ js "  " ++ js "}" ++ rest)
    = Some (fields, rest).
Proof.
  induction fields as [|[k v] fs IH]; intros fuel ws rest Hne Hsc Hws Hfuel;
    [congruence|].
  apply Forall_cons in Hsc as [Hv Hsc]. cbn [snd] in Hv.
  destruct fuel as [|fuel]; [simpl in Hfuel; lia|].
  destruct fuel as [|fuel]; [simpl in Hfuel; lia|].
  assert (Hstep : forall c tail,
             c = COMMA \/ c = NEWLINE ->
             parse_members (S (S fuel))
               (ws ++ member_text (k, v) ++ c :: tail)
             = match skip_ws (c :: tail) with
               | c' :: rest' =>
                   if (c' =? COMMA)%N then
                     match parse_members (S fuel) rest' with
                     | Some (ms, rest'') => Some ((k, v) :: ms, rest'')
                     | None => None
                     end
                   else if (c' =? 125)%N then Some ([(k, v)], rest')
                   else None
               | [] => None
               end).
  { intros c tail Hc. cbn [parse_members]. rewrite skip_ws_app by exact Hws.
    unfold member_text, quote. cbn [fst snd app].
    rewrite skip_ws_other by reflexivity.
    change (DQUOTE =? DQUOTE)%N with true. cbv iota.
    rewrite <- !app_assoc. cbn [app]. rewrite parse_quote_body.
    change (js ": ") with ([58%N] ++ [SPACE]). rewrite <- !app_assoc.
    cbn [app]. rewrite skip_ws_other by reflexivity.
    change (58 =? 58)%N with true. cbv iota.
    change (SPACE :: scalar_text v ++ c :: tail)
      with ([SPACE] ++ scalar_text v ++ c :: tail).
    rewrite parse_value_scalar by (auto; repeat constructor).
    reflexivity. }
  destruct fs as [|f fs].
  - transitivity (parse_members (S (S fuel))
                    (ws ++ member_text (k, v)
                        ++ NEWLINE :: js "  " ++ js "}" ++ rest));
      [reflexivity|].
    rewrite Hstep by auto. reflexivity.
  - pose proof (IH (S fuel) (NEWLINE :: js "    ") rest ltac:(discriminate)
                  Hsc ltac:(repeat constructor) ltac:(simpl in *; lia))
      as Hrec.
    change (join (js "," ++ [NEWLINE] ++ js "    ")
              (List.map member_text ((k, v) :: f :: fs)))
      with (member_text (k, v) ++ (js "," ++ [NEWLINE] ++ js "    ")
              ++ join (js "," ++ [NEWLINE] ++ js "    ")
                      (List.map member_text (f :: fs))).
    remember (join (js "," ++ [NEWLINE] ++ js "    ")
                (List.map member_text (f :: fs))) as J.
    rewrite <- !app_assoc.
    transitivity (parse_members (S (S fuel))
                    (ws ++ member_text (k, v)
                        ++ COMMA :: (NEWLINE :: js "    ") ++ J ++ [NEWLINE]
                        ++ js "  " ++ js "}" ++ rest));
      [reflexivity|].
    rewrite Hstep by auto.
    rewrite skip_ws_other by reflexivity.
    change (COMMA =? COMMA)%N with true. cbv iota.
    rewrite Hrec. reflexivity.
Qed.

(** An object of the layout reads back as the object of its fields. *)
Lemma parse_value_object fuel ws fields rest :
  fields <> [] -> Forall (fun kv => is_scalar (snd kv)) fields ->
  all_json_ws ws -> length fields < fuel ->
  parse_value (S fuel) (ws ++ object_text fields ++ rest)
  = Some (VObj fields, rest).
Proof.
  intros Hne Hsc Hws Hfuel.
  pose proof (parse_members_fields fields fuel (NEWLINE :: js "    ") rest
                Hne Hsc ltac:(repeat constructor) Hfuel) as Hm.
  unfold object_text.
  remember (join (js "," ++ [NEWLINE] ++ js "    ")
              (List.map member_text fields)) as J.
  assert (HJ : exists t, J = DQUOTE :: t).
  { subst J. destruct fields as [|[k v] [|f fs]]; [congruence| |];
      unfold member_text, quote; simpl; eauto. }
  destruct HJ as (t & HJ).
  cbn [parse_value]. rewrite skip_ws_app by exact Hws.
  rewrite <- !app_assoc.
  transitivity
    (match skip_ws (123%N :: (NEWLINE :: js "    ") ++ J ++ [NEWLINE]
                      ++ js "  " ++ js "}" ++ rest) with
     | [] => None
     | c :: s' =>
         if (c =? DQUOTE)%N then
           match parse_string_body s' with
           | Some (str, rest0) => Some (VStr str, rest0)
           | None => None
           end
         else if (c =? 91)%N then
           match skip_ws s' with
           | d :: rest0 =>
               if (d =? 93)%N then Some (VArr [], rest0)
               else match parse_elements fuel s' with
                    | Some (vs, rest') => Some (VArr vs, rest')
                    | None => None
                    end
           | [] => None
           end
         else if (c =? 123)%N then
           match skip_ws s' with
           | d :: rest0 =>
               if (d =? 125)%N then Some (VObj [], rest0)
               else match parse_members fuel s' with
                    | Some (ms, rest') => Some (VObj ms, rest')
                    | None => None
                    end
           | [] => None
           end
         else if (c =? 110)%N then parse_keyword (js "null") VNull (c :: s')
         else if (c =? 116)%N then
           parse_keyword (js "true") (VBool true) (c :: s')
         else if (c =? 102)%N then
           parse_keyword (js "false") (VBool false) (c :: s')
         else match parse_number (c :: s') with
              | Some (n, rest0) => Some (VNum n, rest0)
              | None => None
              end
     end); [reflexivity|].
  rewrite skip_ws_other by reflexivity.
  change (123 =? DQUOTE)%N with false. change (123 =? 91)%N with false.
  change (123 =? 123)%N with true. cbv iota.
  rewrite skip_ws_app by (repeat constructor).
  rewrite Hm. rewrite HJ. cbn [app].
  rewrite skip_ws_other by reflexivity.
  change (DQUOTE =? 125)%N with false. cbv iota. reflexivity.
Qed.

Lemma object_text_head fields : exists t, object_text fields = 123%N :: t.
Proof. unfold object_text. simpl. eauto. Qed.

(** The objects of the array read back, one after the other. *)
Lemma parse_elements_objects objects :
  forall fuel ws rest,
    objects <> [] ->
    Forall (fun fields =>
              fields <> [] /\ Forall (fun kv => is_scalar (snd kv)) fields
              /\ length fields <= 5) objects ->
    all_json_ws ws -> length objects + 7 <= fuel ->
    parse_elements fuel
      (ws ++ join (js "," ++ [NEWLINE] ++ js "  ")
                  (List.map object_text objects)
          ++ [NEWLINE] ++ js "]" ++ rest)
    = Some (List.map VObj objects, rest).
Proof.
  induction objects as [|o os IH]; intros fuel ws rest Hne Hall Hws Hfuel;
    [congruence|].
  apply Forall_cons in Hall as [(Ho1 & Ho2 & Ho3) Hall].
  destruct fuel as [|fuel]; [simpl in Hfuel; lia|].
  destruct fuel as [|fuel]; [simpl in Hfuel; lia|].
  assert (Hstep : forall tail,
             parse_elements (S (S fuel)) (ws ++ object_text o ++ tail)
             = match skip_ws tail with
               | c :: rest' =>
                   if (c =? COMMA)%N then
                     match parse_elements (S fuel) rest' with
                     | Some (vs, rest'') => Some (VObj o :: vs, rest'')
                     | None => None
                     end
                   else if (c =? 93)%N then Some ([VObj o], rest')
                   else None
               | [] => None
               end).
  { intros tail. cbn [parse_elements].
    rewrite parse_value_object by (auto; simpl in Hfuel; lia).
    reflexivity. }
  destruct os as [|o' os].
  - transitivity (parse_elements (S (S fuel))
                    (ws ++ object_text o ++ NEWLINE :: js "]" ++ rest));
      [reflexivity|].
    rewrite Hstep. reflexivity.
  - pose proof (IH (S fuel) (NEWLINE :: js "  ") rest ltac:(discriminate)
                  Hall ltac:(repeat constructor) ltac:(simpl in *; lia))
      as Hrec.
    change (join (js "," ++ [NEWLINE] ++ js "  ")
              (List.map object_text (o :: o' :: os)))
      with (object_text o ++ (js "," ++ [NEWLINE] ++ js "  ")
              ++ join (js "," ++ [NEWLINE] ++ js "  ")
                      (List.map object_text (o' :: os))).
    remember (join (js "," ++ [NEWLINE] ++ js "  ")
                (List.map object_text (o' :: os))) as J.
    rewrite <- !app_assoc.
    transitivity (parse_elements (S (S fuel))
                    (ws ++ object_text o
                        ++ COMMA :: (NEWLINE :: js "  ") ++ J ++ [NEWLINE]
                        ++ js "]" ++ rest));
      [reflexivity|].
    rewrite Hstep. rewrite skip_ws_other by reflexivity.
    change (COMMA =? COMMA)%N with true. cbv iota.
    rewrite Hrec. reflexivity.
Qed.

Lemma join_length_ge (k : nat) sep (l : list jsstring) :
  Forall (fun x => k <= length x) l -> k * length l <= length (join sep l).
Proof.
  induction 1 as [|x l Hx _ IH]; [simpl; lia|].
  destruct l as [|y l].
  - simpl. simpl in Hx. lia.
  - rewrite join_cons2, !length_app. simpl length in *. lia.
Qed.

Lemma object_text_length fields : 10 <= length (object_text fields).
Proof.
  unfold object_text. rewrite !length_app. simpl. lia.
Qed.

(** The whole layout reads back as the array of the objects. *)
Lemma parse_array_text objects :
  Forall (fun fields =>
            fields <> [] /\ Forall (fun kv => is_scalar (snd kv)) fields
            /\ length fields <= 5) objects ->
  parse (array_text (List.map object_text objects))
  = Some (VArr (List.map VObj objects)).
Proof.
  intros Hall. destruct objects as [|o os]; [reflexivity|].
  unfold parse, array_text. rewrite map_cons.
  remember (List.map object_text os) as ts.
  assert (Hlen : length (o :: os) + 7
                 <= length (js "[" ++ [NEWLINE] ++ js "  "
                              ++ join (js "," ++ [NEWLINE] ++ js "  ")
                                      (object_text o :: ts)
                              ++ [NEWLINE] ++ js "]")).
  { rewrite !length_app.
    pose proof (join_length_ge 10 (js "," ++ [NEWLINE] ++ js "  ")
                  (object_text o :: ts)) as Hj.
    assert (Hf : Forall (fun x => 10 <= length x) (object_text o :: ts)).
    { subst ts. constructor; [apply object_text_length|].
      apply Forall_forall. intros x Hx.
      apply list_elem_of_In, in_map_iff in Hx as (f & <- & _).
      apply object_text_length. }
    specialize (Hj Hf). subst ts. simpl length in *.
    rewrite length_map in Hj. lia. }
  pose proof (parse_elements_objects (o :: os) _ (NEWLINE :: js "  ") []
                ltac:(discriminate) Hall ltac:(repeat constructor) Hlen)
    as He.
  rewrite map_cons, <- Heqts in He.
  remember (join (js "," ++ [NEWLINE] ++ js "  ") (object_text o :: ts)) as J.
  assert (HJ : exists t, J = 123%N :: t).
  { subst J. destruct (object_text_head o) as (t & ->).
    destruct ts; simpl; eauto. }
  destruct HJ as (t & HJ).
  remember (length (js "[" ++ [NEWLINE] ++ js "  " ++ J ++ [NEWLINE]
                      ++ js "]")) as fuel.
  cbn [parse_value].
  transitivity
    (match
       (match skip_ws ((NEWLINE :: js "  ") ++ J ++ [NEWLINE] ++ js "]" ++ [])
        with
        | d :: rest0 =>
            if (d =? 93)%N then Some (VArr [], rest0)
            else match parse_elements fuel
                         ((NEWLINE :: js "  ") ++ J ++ [NEWLINE] ++ js "]"
                            ++ []) with
                 | Some (vs, rest') => Some (VArr vs, rest')
                 | None => None
                 end
        | [] => None
        end)
     with
     | Some (v, rest) =>
         match skip_ws rest with
         | [] => Some v
         | _ :: _ => None
         end
     | None => None
     end).
  { rewrite app_nil_r. reflexivity. }
  rewrite skip_ws_app by (repeat constructor).
  rewrite He, HJ. cbn [app]. rewrite skip_ws_other by reflexivity.
  change (123 =? 93)%N with false. cbv iota. reflexivity.
Qed.

End JSONFacts.

(** ** Claims on the structured export *)

(** The fields of the page [p] are read from the properties [props] of a
    parsed object, a missing status as [undefined]. *)
Definition recovers (p : StoredPage) (props : list (jsstring * jsval)) : Prop :=
  JSON.get props (js "url") = VStr (url p)
  /\ JSON.get props (js "content") = VStr (content p)
  /\ JSON.get props (js "status")
     = match status p with
       | Some n => VNum n
       | None => VUndefined
       end
  /\ JSON.get props (js "domain") = VStr (domain p)
  /\ JSON.get props (js "timestamp") = VNum (timestamp p).

(** The numbers of the page are in the range where a number is written in
    plain decimal digits. *)
Definition plain_numbers (p : StoredPage) : Prop :=
  (Z.abs (timestamp p) < 10 ^ 21)%Z
  /\ forall n, status p = Some n -> (Z.abs n < 10 ^ 21)%Z.

Lemma page_fields_shape p :
  JSONFacts.page_fields p <> []
  /\ Forall (fun kv => JSONFacts.is_scalar (snd kv)) (JSONFacts.page_fields p)
  /\ length (JSONFacts.page_fields p) <= 5.
Proof.
  unfold JSONFacts.page_fields. destruct (status p); simpl;
    (split; [discriminate|]); (split; [repeat constructor | lia]).
Qed.

Lemma page_fields_recovers p : recovers p (JSONFacts.page_fields p).
Proof.
  unfold recovers, JSONFacts.page_fields.
  destruct (status p); repeat split; reflexivity.
Qed.

(** C5: for pages with integral numbers written in plain digits, the
    structured export emits the array of one object per page, in input
    order, laid out with two blanks per level, each object with the
    properties url, content, status (when the page has one), domain and
    timestamp in this order; parsing the artifact gives back an array of
    objects from which the url, content, status, domain and timestamp of
    every page are read unchanged. *)
Theorem C5_structured_roundtrip (now_iso : jsstring) (pages : list StoredPage)
    (filenamePrefix : jsstring) :
  Forall plain_numbers pages ->
  exists text objects,
    exportPages now_iso pages json filenamePrefix
    = Return {| blob := text;
                filename := filenamePrefix ++ js "-" ++ slice now_iso 0 10
                            ++ js ".json";
                mimeType := js "application/json" |}
    /\ text
       = JSONFacts.array_text
           (List.map (fun p => JSONFacts.object_text (JSONFacts.page_fields p))
                     pages)
    /\ JSON.parse text = Some (VArr (List.map VObj objects))
    /\ Forall2 recovers pages objects.
Proof.
  intros _.
  exists (JSONFacts.array_text
            (List.map (fun p => JSONFacts.object_text (JSONFacts.page_fields p))
                      pages)),
    (List.map JSONFacts.page_fields pages).
  split; [|split; [reflexivity|split]].
  - unfold exportPages. rewrite JSONFacts.stringify_pages. reflexivity.
  - rewrite <- (map_map JSONFacts.page_fields JSONFacts.object_text).
    apply JSONFacts.parse_array_text.
    apply Forall_forall. intros f Hf.
    apply list_elem_of_In, in_map_iff in Hf as (p & <- & _).
    apply page_fields_shape.
  - induction pages as [|p pages IH]; simpl; constructor;
      [apply page_fields_recovers | exact IH].
Qed.

(** A page without a status, with characters that JSON escapes. *)
Definition escaped_page : StoredPage :=
  {| url := js "https://a.com/3"; domain := js "a.com";
     content := [DQUOTE; 8; BACKSLASH; NEWLINE; 55357; 56832; 56832; 233]%N
                ++ js "<p>";
     status := None; contentSize := 12; timestamp := (-5)%Z |}.

Example json_export_ex :
  match exportPages (js "2024-05-06T01:02:03.004Z") [cats_page; escaped_page]
          json (js "kb") with
  | Return a =>
      JSON.parse (blob a)
      = Some (VArr [ VObj [ (js "url", VStr (url cats_page));
                            (js "content", VStr (content cats_page));
                            (js "status", VNum 200);
                            (js "domain", VStr (js "a.com"));
                            (js "timestamp", VNum 1700000000000) ];
                     VObj [ (js "url", VStr (url escaped_page));
                            (js "content", VStr (content escaped_page));
                            (js "domain", VStr (js "a.com"));
                            (js "timestamp", VNum (-5)) ] ])
  | Throw _ => False
  end.
Proof. vm_compute. reflexivity. Qed.

Lemma C5_witness :
  Forall plain_numbers [cats_page; escaped_page]
  /\ exists text objects,
       exportPages (js "2024-05-06T01:02:03.004Z") [cats_page; escaped_page]
         json (js "kb")
       = Return {| blob := text;
                   filename := js "kb" ++ js "-"
                               ++ slice (js "2024-05-06T01:02:03.004Z") 0 10
                               ++ js ".json";
                   mimeType := js "application/json" |}
       /\ JSON.parse text = Some (VArr (List.map VObj objects))
       /\ Forall2 recovers [cats_page; escaped_page] objects.
Proof.
  assert (H : Forall plain_numbers [cats_page; escaped_page]).
  { repeat constructor; try (intros n Hn; try discriminate Hn;
                             injection Hn as <-); vm_compute; reflexivity. }
  split; [exact H|].
  destruct (C5_structured_roundtrip (js "2024-05-06T01:02:03.004Z")
              [cats_page; escaped_page] (js "kb") H)
    as (text & objects & H1 & _ & H2 & H3).
  exists text, objects. auto.
Defined.

(** * Further properties of the code *)

(** ** search: bounds and the edges of a query *)

Lemma filter_all_length {A} (f : A -> bool) (l : list A) :
  length (List.filter f l) = length l <-> Forall (fun x => f x = true) l.
Proof.
  induction l as [|x l IH]; simpl.
  - split; [constructor | reflexivity].
  - pose proof (List.filter_length_le f l) as Hle.
    destruct (f x) eqn:E; simpl.
    + rewrite Forall_cons. split.
      * intros H. split; [exact E | apply IH; lia].
      * intros [_ H]. f_equal. apply IH. exact H.
    + split; [lia|]. intros H. apply Forall_cons in H as [H _]. congruence.
Qed.

Lemma includes_empty s : includes s [] = true.
Proof. unfold includes, indexOf. destruct s; reflexivity. Qed.

Lemma split_ws_go_cons in_run cur d s :
  split_ws_go in_run cur (d :: s)
  = if is_ws d then
      if in_run then split_ws_go true [] s
      else cur :: split_ws_go true [] s
    else split_ws_go false (cur ++ [d]) s.
Proof. reflexivity. Qed.

(** A whitespace character at the end of a string leaves an empty piece. *)
Lemma split_ws_go_trailing in_run cur s c :
  last s = Some c -> is_ws c = true -> [] ∈ split_ws_go in_run cur s.
Proof.
  revert in_run cur; induction s as [|d s IH]; intros in_run cur Hl Hc;
    [discriminate|].
  destruct s as [|e s].
  - injection Hl as ->. simpl. rewrite Hc.
    destruct in_run; [apply list_elem_of_here|].
    apply list_elem_of_further, list_elem_of_here.
  - change (last (d :: e :: s)) with (last (e :: s)) in Hl.
    rewrite split_ws_go_cons. destruct (is_ws d).
    + destruct in_run; [apply IH; assumption|].
      apply list_elem_of_further. apply IH; assumption.
    + apply IH; assumption.
Qed.

Lemma split_ws_edge s c :
  (head s = Some c \/ last s = Some c) -> is_ws c = true -> [] ∈ split_ws s.
Proof.
  intros [H | H] Hc.
  - destruct s as [|d s]; [discriminate|]. injection H as ->.
    unfold split_ws. simpl. rewrite Hc. apply list_elem_of_here.
  - eapply split_ws_go_trailing; eassumption.
Qed.

Section SearchBounds.
Variable toLowerCase : jsstring -> jsstring.

Lemma score_relevance_le_1 lq p r :
  score toLowerCase lq p = Some r -> (relevance r <= 1)%Q.
Proof.
  intros H. apply score_Some in H as (_ & Hm & ->).
  pose proof (matches_of_le lq (toLowerCase (content p))) as Hle.
  apply Qle_shift_div_r.
  - unfold Qlt. simpl. lia.
  - unfold Qle. simpl. lia.
Qed.

Lemma score_relevance_1 lq p r :
  score toLowerCase lq p = Some r ->
  (relevance r == 1)%Q
  <-> Forall (fun t => occurs t (toLowerCase (content p))) lq.
Proof.
  intros H. apply score_Some in H as (_ & Hm & ->).
  pose proof (matches_of_le lq (toLowerCase (content p))) as Hle.
  assert (Hn : 0 < length lq) by lia.
  unfold matches_of in *.
  transitivity
    (Forall (fun t => includes (toLowerCase (content p)) t = true) lq);
    [|rewrite !Forall_forall; split; intros Ha t Ht;
      apply includes_occurs, Ha, Ht].
  rewrite <- filter_all_length.
  set (m := length (List.filter _ lq)) in *.
  unfold Qeq, Qdiv, Qmult, Qinv, inject_Z. simpl.
  destruct (length lq) as [|n] eqn:En; [lia|]. simpl. lia.
Qed.

(** X1: the relevance of a result is above 0 and at most 1, and it is 1
    exactly when every term of the query occurs in the lower-cased content. *)
Theorem search_relevance_bounds (w : World) :
  trim (searchQuery w) <> [] ->
  let terms := split_ws (toLowerCase (searchQuery w)) in
  Forall (fun r =>
            (0 < relevance r)%Q /\ (relevance r <= 1)%Q
            /\ ((relevance r == 1)%Q
                <-> Forall (fun t => occurs t (toLowerCase (content (page r))))
                           terms))
         (searchResults (snd (search toLowerCase w))).
Proof.
  intros Hq terms. rewrite (search_run toLowerCase w Hq). simpl.
  apply Forall_forall. intros r Hr.
  apply shown_in_scored in Hr as (p & _ & Hs). fold terms in Hs.
  pose proof (score_Some toLowerCase _ _ _ Hs) as (Hp & _).
  rewrite Hp.
  split; [eapply score_positive; exact Hs|].
  split; [eapply score_relevance_le_1; exact Hs|].
  eapply score_relevance_1; exact Hs.
Qed.

End SearchBounds.

Lemma search_relevance_bounds_witness :
  trim (searchQuery (sample_world "cats dogs")) <> []
  /\ Forall (fun r =>
       (0 < relevance r)%Q /\ (relevance r <= 1)%Q
       /\ ((relevance r == 1)%Q
           <-> Forall (fun t => occurs t
                                  (ascii_toLowerCase (content (page r))))
                      (split_ws (ascii_toLowerCase
                                   (searchQuery (sample_world "cats dogs"))))))
       (searchResults (snd (search ascii_toLowerCase
                              (sample_world "cats dogs")))).
Proof.
  split; [vm_compute; discriminate|].
  apply (search_relevance_bounds ascii_toLowerCase (sample_world "cats dogs")).
  vm_compute; discriminate.
Defined.

Section SearchEdges.
Variable toLowerCase : jsstring -> jsstring.

Lemma score_empty_term lq p :
  [] ∈ lq -> exists r, score toLowerCase lq p = Some r /\ page r = p.
Proof.
  intros H. unfold score.
  assert (Hm : 0 < matches_of lq (toLowerCase (content p))).
  { unfold matches_of. apply list_elem_of_In in H.
    assert (Hin : In [] (List.filter
                           (fun term => includes (toLowerCase (content p)) term)
                           lq))
      by (apply filter_In; split; [exact H | apply includes_empty]).
    destruct (List.filter _ lq); [destruct Hin | simpl; lia]. }
  replace (0 <? matches_of lq (toLowerCase (content p)))%nat with true
    by (symmetry; apply Nat.ltb_lt; exact Hm).
  eexists. split; reflexivity.
Qed.

Lemma omap_score_all lq c :
  [] ∈ lq -> List.map page (omap (score toLowerCase lq) c) = c.
Proof.
  intros H. induction c as [|p c IH]; [reflexivity|]. simpl.
  destruct (score_empty_term lq p H) as (r & -> & Hp). simpl.
  f_equal; [exact Hp | exact IH].
Qed.

(** X2: a query that starts or ends with whitespace, and is not blank, has
    an empty string among its terms, which occurs in every content: every
    page of the corpus is a match. As many results are shown as the corpus
    has pages, up to fifty, and with at most fifty pages the results are the
    whole corpus. *)
Theorem search_edge_whitespace_matches_all (w : World) (c : N) :
  trim (searchQuery w) <> [] ->
  head (toLowerCase (searchQuery w)) = Some c
  \/ last (toLowerCase (searchQuery w)) = Some c ->
  is_ws c = true ->
  let shown := searchResults (snd (search toLowerCase w)) in
  length shown = Nat.min 50 (length (corpus w))
  /\ (length (corpus w) <= 50 -> Permutation (List.map page shown) (corpus w)).
Proof.
  intros Hq Hc Hws shown. unfold shown.
  rewrite (search_run toLowerCase w Hq). simpl.
  pose proof (split_ws_edge _ _ Hc Hws) as He.
  set (lq := split_ws (toLowerCase (searchQuery w))) in *.
  pose proof (omap_score_all lq (corpus w) He) as Hall.
  pose proof (array_sort_perm by_relevance
                (omap (score toLowerCase lq) (corpus w))) as Hperm.
  assert (Hlen : length (array_sort by_relevance
                           (omap (score toLowerCase lq) (corpus w)))
                 = length (corpus w)).
  { rewrite (Permutation_length Hperm). rewrite <- Hall at 2.
    rewrite length_map. reflexivity. }
  split.
  - rewrite length_take, Hlen. reflexivity.
  - intros Hle. rewrite firstn_all2 by lia.
    rewrite <- Hall at 2. apply Permutation_map. exact Hperm.
Qed.

End SearchEdges.

Lemma search_edge_whitespace_matches_all_witness :
  trim (searchQuery (sample_world "cats ")) <> []
  /\ (head (ascii_toLowerCase (searchQuery (sample_world "cats ")))
      = Some SPACE
      \/ last (ascii_toLowerCase (searchQuery (sample_world "cats ")))
         = Some SPACE)
  /\ is_ws SPACE = true
  /\ length (searchResults (snd (search ascii_toLowerCase
                                   (sample_world "cats "))))
     = Nat.min 50 (length (corpus (sample_world "cats ")))
  /\ (length (corpus (sample_world "cats ")) <= 50 ->
      Permutation
        (List.map page (searchResults (snd (search ascii_toLowerCase
                                              (sample_world "cats ")))))
        (corpus (sample_world "cats "))).
Proof.
  assert (H1 : trim (searchQuery (sample_world "cats ")) <> [])
    by (vm_compute; discriminate).
  assert (H2 : head (ascii_toLowerCase (searchQuery (sample_world "cats ")))
               = Some SPACE
               \/ last (ascii_toLowerCase (searchQuery (sample_world "cats ")))
                  = Some SPACE)
    by (right; reflexivity).
  assert (H3 : is_ws SPACE = true) by reflexivity.
  split; [exact H1|]. split; [exact H2|]. split; [exact H3|].
  exact (search_edge_whitespace_matches_all ascii_toLowerCase
           (sample_world "cats ") SPACE H1 H2 H3).
Defined.

(** ** getSnippet: size, content and markup *)

(** Every ['<'] of [s] is followed at once by a ['>'], or by no ['>'] at
    all: the pattern of a markup tag, a ['<'], one character or more other
    than ['>'], and a ['>'], matches nowhere in [s]. *)
Fixpoint inert (s : jsstring) : Prop :=
  match s with
  | [] => True
  | c :: s' =>
      (c = LT_SIGN -> head s' = Some GT_SIGN \/ GT_SIGN ∉ s') /\ inert s'
  end.

Lemma inert_app_l a b : inert (a ++ b) -> inert a.
Proof.
  induction a as [|c a IH]; simpl; [auto|]. intros [H1 H2].
  split; [|apply IH; exact H2].
  intros Hc. destruct (H1 Hc) as [H | H].
  - destruct a as [|d a]; [right; apply not_elem_of_nil | left; exact H].
  - right. intros Hin. apply H. apply elem_of_app. left. exact Hin.
Qed.

Lemma inert_app_r a b : inert (a ++ b) -> inert b.
Proof. induction a as [|c a IH]; simpl; [auto|]. intros [_ H]. auto. Qed.

Lemma inert_app_plain a b :
  inert a -> LT_SIGN ∉ b -> GT_SIGN ∉ b -> inert (a ++ b).
Proof.
  intros Ha Hlt Hgt. induction a as [|c a IH]; simpl.
  - induction b as [|d b IHb]; simpl; [exact I|].
    apply not_elem_of_cons in Hlt as [Hd Hlt].
    apply not_elem_of_cons in Hgt as [_ Hgt].
    split; [congruence | apply IHb; assumption].
  - destruct Ha as [H1 H2]. split; [|apply IH; exact H2].
    intros Hc. destruct (H1 Hc) as [H | H].
    + left. destruct a; [discriminate | exact H].
    + right. intros Hin. apply elem_of_app in Hin as [Hin | Hin]; auto.
Qed.

Lemma inert_plain_app a b :
  LT_SIGN ∉ a -> inert b -> inert (a ++ b).
Proof.
  intros Ha Hb. induction a as [|c a IH]; simpl; [exact Hb|].
  apply not_elem_of_cons in Ha as [Hc Ha].
  split; [congruence | apply IH; exact Ha].
Qed.

Lemma inert_take n s : inert s -> inert (firstn n s).
Proof.
  intros H. rewrite <- (firstn_skipn n s) in H. eapply inert_app_l. exact H.
Qed.

Lemma inert_drop n s : inert s -> inert (skipn n s).
Proof.
  intros H. rewrite <- (firstn_skipn n s) in H. eapply inert_app_r. exact H.
Qed.

(** No tag starts anywhere in an inert string. *)
Lemma inert_no_tag s pre suf rest :
  inert s -> s = pre ++ suf -> ~ tag_at_head suf rest.
Proof.
  intros H -> (body & -> & Hne & Hgt). apply inert_app_r in H.
  destruct H as [H _]. destruct (H eq_refl) as [Hh | Hn].
  - destruct body as [|d body]; [congruence|]. injection Hh as ->.
    apply Hgt. apply list_elem_of_here.
  - apply Hn. apply elem_of_app. right. apply list_elem_of_here.
Qed.

Lemma tags_replaced_inert s out : tags_replaced s out -> inert out.
Proof.
  induction 1 as [|s rest out Ht _ IH|c s out Hn Hr IH]; simpl.
  - exact I.
  - split; [discriminate | exact IH].
  - split; [|exact IH]. intros ->.
    destruct (split_at_gt s) as [Hgt | (body & rest & -> & Hb)].
    + right. rewrite (tags_replaced_unique _ _ _ Hr (no_tag_without_gt s Hgt)).
      exact Hgt.
    + destruct body as [|d body].
      * left. inversion Hr; subst; [|reflexivity].
        match goal with H : tag_at_head _ _ |- _ =>
          destruct H as (b & Hb' & _); discriminate end.
      * exfalso. apply (Hn rest). exists (d :: body).
        split; [reflexivity|]. split; [discriminate | exact Hb].
Qed.

Lemma collapse_ws_go_gt b s : GT_SIGN ∉ s -> GT_SIGN ∉ collapse_ws_go b s.
Proof.
  revert b; induction s as [|c s IH]; intros b H; simpl; [exact H|].
  apply not_elem_of_cons in H as [Hc H].
  destruct (is_ws c).
  - destruct b; [apply IH; exact H|].
    apply not_elem_of_cons. split; [discriminate | apply IH; exact H].
  - apply not_elem_of_cons. split; [exact Hc | apply IH; exact H].
Qed.

Lemma collapse_ws_go_inert b s : inert s -> inert (collapse_ws_go b s).
Proof.
  revert b; induction s as [|c s IH]; intros b; simpl; [auto|].
  intros [H1 H2]. destruct (is_ws c) eqn:E.
  - destruct b; [apply IH; exact H2|]. simpl.
    split; [discriminate | apply IH; exact H2].
  - simpl. split; [|apply IH; exact H2].
    intros Hc. destruct (H1 Hc) as [H | H].
    + left. destruct s as [|d s]; [discriminate|]. injection H as ->.
      reflexivity.
    + right. apply collapse_ws_go_gt. exact H.
Qed.

Lemma plain_text_inert content : inert (collapse_ws (strip_tags content)).
Proof.
  apply collapse_ws_go_inert. eapply tags_replaced_inert.
  apply strip_tags_replaced.
Qed.

Section SnippetFacts.
Variable toLowerCase : jsstring -> jsstring.

(** The two shapes of a snippet. *)
Lemma getSnippet_cases content query :
  let text := collapse_ws (strip_tags content) in
  let term := hd [] (split_ws (toLowerCase query)) in
  (~ occurs term (toLowerCase text)
   /\ getSnippet toLowerCase content query = firstn 200 text ++ js "...")
  \/ exists n,
       first_at term (toLowerCase text) n
       /\ getSnippet toLowerCase content query
          = (if (n - 80 =? 0)%nat then [] else js "...")
              ++ firstn 200 (skipn (n - 80) text) ++ js "...".
Proof.
  intros text term. unfold getSnippet. fold text. fold term.
  destruct (indexOf_spec (toLowerCase text) term) as [[H1 H2] | (n & H1 & H2)];
    rewrite H1.
  - left. split; [exact H2|]. simpl.
    change 200%Z with (Z.of_nat 200). rewrite slice_prefix. reflexivity.
  - right. exists n. split; [exact H2|].
    replace (Z.of_nat n =? -1)%Z with false
      by (symmetry; apply Z.eqb_neq; lia).
    replace (Z.max 0 (Z.of_nat n - 80)) with (Z.of_nat (n - 80)) by lia.
    change 200%Z with (Z.of_nat 200). rewrite slice_window.
    destruct (n - 80) as [|k] eqn:E; [reflexivity|].
    replace (0 <? Z.of_nat (S k))%Z with true
      by (symmetry; apply Z.ltb_lt; lia).
    reflexivity.
Qed.

(** X3: whatever the content and the query, a snippet has at most 206
    characters, the 200 of the window and two ellipses, and it ends with an
    ellipsis: also when the whole text is shown. *)
Theorem getSnippet_bounded content query :
  length (getSnippet toLowerCase content query) <= 206
  /\ exists body, getSnippet toLowerCase content query = body ++ js "...".
Proof.
  assert (Hw : forall l : jsstring, length (firstn 200 l) <= 200)
    by (intros l; rewrite length_take; lia).
  destruct (getSnippet_cases content query) as [[_ ->] | (n & _ & ->)].
  - split; [|eexists; reflexivity].
    rewrite length_app. change (length (js "...")) with 3.
    specialize (Hw (collapse_ws (strip_tags content))). lia.
  - split.
    + rewrite !length_app. change (length (js "...")) with 3.
      specialize (Hw (skipn (n - 80) (collapse_ws (strip_tags content)))).
      destruct (n - 80 =? 0)%nat;
        [change (length (@nil N)) with 0 | change (length (js "...")) with 3];
        lia.
    + eexists. rewrite app_assoc. reflexivity.
Qed.

(** X4: a snippet holds no markup tag: the pattern of a tag matches at no
    position of it. *)
Theorem getSnippet_no_markup content query pre suf rest :
  getSnippet toLowerCase content query = pre ++ suf ->
  ~ tag_at_head suf rest.
Proof.
  apply inert_no_tag.
  pose proof (plain_text_inert content) as Hi.
  assert (Hd : (LT_SIGN ∉ js "...") /\ (GT_SIGN ∉ js "...")).
  { split; intros H; apply list_elem_of_In in H; simpl in H;
      intuition discriminate. }
  destruct Hd as [Hlt Hgt].
  destruct (getSnippet_cases content query) as [[_ ->] | (n & _ & ->)].
  - apply inert_app_plain; [apply inert_take; exact Hi | exact Hlt | exact Hgt].
  - assert (Hw : inert (firstn 200 (skipn (n - 80)
                                      (collapse_ws (strip_tags content)))
                        ++ js "..."))
      by (apply inert_app_plain;
          [apply inert_take, inert_drop; exact Hi | exact Hlt | exact Hgt]).
    destruct (n - 80 =? 0)%nat; [exact Hw|].
    apply inert_plain_app; [exact Hlt | exact Hw].
Qed.

(** X5: when lower-casing a piece of the plain text at hand gives the same
    piece of the lower-cased text, and the first entry of the split,
    lower-cased query has at most 120 characters and occurs in the
    lower-cased plain text, the snippet shows the text of its first
    occurrence: a piece of the snippet lower-cases to that entry. *)
Theorem getSnippet_shows_match content query :
  let text := collapse_ws (strip_tags content) in
  let term := hd [] (split_ws (toLowerCase query)) in
  (forall n m, toLowerCase (firstn n (skipn m text))
               = firstn n (skipn m (toLowerCase text))) ->
  occurs term (toLowerCase text) ->
  length term <= 120 ->
  exists u, toLowerCase u = term
            /\ occurs u (getSnippet toLowerCase content query).
Proof.
  intros text term Hlow Hocc Hlen.
  destruct (getSnippet_cases content query)
    as [[Hno _] | (n & [(pre & post & Ht & Hn) _] & ->)];
    [destruct (Hno Hocc)|].
  fold text in Ht |- *. fold term in Ht.
  set (u := firstn (length term) (skipn n text)).
  exists u. split.
  - unfold u. rewrite Hlow, Ht.
    rewrite (drop_app_length' pre (term ++ post) n) by (symmetry; exact Hn).
    apply take_app_length.
  - set (k := n - 80).
    set (A := firstn (n - k) (skipn k text)).
    assert (Hk : skipn k text = A ++ u ++ skipn (length term) (skipn n text)).
    { unfold A, u. rewrite (firstn_skipn (length term) (skipn n text)).
      replace (skipn n text) with (skipn (n - k) (skipn k text))
        by (rewrite skipn_skipn; f_equal; unfold k; lia).
      symmetry. apply firstn_skipn. }
    assert (HlA : length A <= 80)
      by (unfold A; rewrite length_take; unfold k; lia).
    assert (Hlu : length u <= 120) by (unfold u; rewrite length_take; lia).
    rewrite Hk. rewrite (app_assoc A u).
    rewrite (take_app_ge (A ++ u) _ 200) by (rewrite length_app; lia).
    exists ((if (k =? 0)%nat then [] else js "...") ++ A).
    eexists. rewrite <- !app_assoc. reflexivity.
Qed.

End SnippetFacts.

Lemma getSnippet_no_markup_witness :
  getSnippet ascii_toLowerCase (js "<p>dogs <<b>rule</p><>") (js "cats")
  = js " dogs" ++ js " rule <>..."
  /\ ~ tag_at_head (js " rule <>...") [].
Proof.
  assert (H : getSnippet ascii_toLowerCase (js "<p>dogs <<b>rule</p><>")
                (js "cats")
              = js " dogs" ++ js " rule <>...") by reflexivity.
  split; [exact H|].
  exact (getSnippet_no_markup ascii_toLowerCase _ _ _ _ [] H).
Defined.

Lemma getSnippet_shows_match_witness :
  (forall n m,
     ascii_toLowerCase
       (firstn n (skipn m (collapse_ws
                             (strip_tags (js "<p>Hello <b>Cats</b></p>")))))
     = firstn n (skipn m (ascii_toLowerCase
                            (collapse_ws
                               (strip_tags
                                  (js "<p>Hello <b>Cats</b></p>"))))))
  /\ occurs (hd [] (split_ws (ascii_toLowerCase (js "CATS dogs"))))
       (ascii_toLowerCase
          (collapse_ws (strip_tags (js "<p>Hello <b>Cats</b></p>"))))
  /\ length (hd [] (split_ws (ascii_toLowerCase (js "CATS dogs")))) <= 120
  /\ exists u, ascii_toLowerCase u
               = hd [] (split_ws (ascii_toLowerCase (js "CATS dogs")))
               /\ occurs u (getSnippet ascii_toLowerCase
                              (js "<p>Hello <b>Cats</b></p>")
                              (js "CATS dogs")).
Proof.
  assert (H1 : forall n m,
            ascii_toLowerCase
              (firstn n (skipn m (collapse_ws
                                    (strip_tags
                                       (js "<p>Hello <b>Cats</b></p>")))))
            = firstn n (skipn m (ascii_toLowerCase
                                   (collapse_ws
                                      (strip_tags
                                         (js "<p>Hello <b>Cats</b></p>"))))))
    by (intros n m; unfold ascii_toLowerCase;
        rewrite skipn_map, firstn_map; reflexivity).
  assert (H2 : occurs (hd [] (split_ws (ascii_toLowerCase (js "CATS dogs"))))
                 (ascii_toLowerCase
                    (collapse_ws (strip_tags (js "<p>Hello <b>Cats</b></p>")))))
    by (exists (js " hello "), (js " "); reflexivity).
  assert (H3 : length (hd [] (split_ws (ascii_toLowerCase (js "CATS dogs"))))
               <= 120) by (vm_compute; lia).
  split; [exact H1|]. split; [exact H2|]. split; [exact H3|].
  exact (getSnippet_shows_match ascii_toLowerCase
           (js "<p>Hello <b>Cats</b></p>") (js "CATS dogs") H1 H2 H3).
Defined.

(** ** getTitle: what a title can be *)

Lemma occurs_trans a b c : occurs a b -> occurs b c -> occurs a c.
Proof.
  intros (p & q & ->) (p' & q' & ->). exists (p' ++ p), (q ++ q').
  rewrite <- !app_assoc. reflexivity.
Qed.

Lemma occurs_app_r x a s : occurs x s -> occurs x (a ++ s).
Proof.
  intros (p & q & ->). exists (a ++ p), q. rewrite <- app_assoc. reflexivity.
Qed.

Lemma occurs_app_l x s b : occurs x s -> occurs x (s ++ b).
Proof.
  intros (p & q & ->). exists p, (q ++ b). rewrite <- !app_assoc. reflexivity.
Qed.

Lemma occurs_join x sep l : x ∈ l -> occurs x (join sep l).
Proof.
  induction l as [|y l IH]; intros Hin.
  - apply elem_of_nil in Hin. destruct Hin.
  - destruct l as [|z l].
    + apply list_elem_of_singleton in Hin as ->. exists [], [].
      simpl. rewrite app_nil_r. reflexivity.
    + change (join sep (y :: z :: l)) with (y ++ sep ++ join sep (z :: l)).
      apply elem_of_cons in Hin as [-> | Hin].
      * apply occurs_app_l. exists [], []. simpl. rewrite app_nil_r.
        reflexivity.
      * do 2 apply occurs_app_r. apply IH. exact Hin.
Qed.

Lemma title_group_occurs content g :
  title_match content = Some g -> occurs g content.
Proof.
  intros H. apply title_match_spec in H
    as (pre & post & -> & (open & attrs & close & rest & -> & _) & _).
  exists (pre ++ open ++ attrs ++ [GT_SIGN]), (close ++ rest).
  rewrite <- !app_assoc. reflexivity.
Qed.

Lemma heading_group_occurs content g :
  heading_match content = Some g -> occurs g content.
Proof.
  intros H. apply heading_match_spec in H
    as (pre & post & -> & _ & (ws & rest & -> & _) & _).
  exists (pre ++ HASH :: ws), rest.
  rewrite <- !app_assoc. reflexivity.
Qed.

Lemma trim_occurs g : occurs (trim g) g.
Proof.
  destruct (trim_spec g) as (a & b & H & _). exists a, b. exact H.
Qed.

Section TitleFacts.
Variable url_pathname : jsstring -> option jsstring.

(** X6: a title that getTitle returns is the path of the URL, or a piece of
    the content that is not empty and has no whitespace at either end: no
    result is blank unless the path of the URL is. *)
Theorem getTitle_result_shape (content url t : jsstring) :
  getTitle url_pathname content url = Return t ->
  url_pathname url = Some t
  \/ (t <> [] /\ no_leading_ws t /\ no_trailing_ws t /\ occurs t content).
Proof.
  unfold getTitle.
  assert (Hg : forall g, occurs g content ->
            match trim g with
            | [] => new_URL_pathname url_pathname url
            | c :: s => Return (c :: s)
            end = Return t ->
            url_pathname url = Some t
            \/ (t <> [] /\ no_leading_ws t /\ no_trailing_ws t
                /\ occurs t content)).
  { intros g Hocc H. destruct (trim g) as [|c s] eqn:E.
    - left. unfold new_URL_pathname in H.
      destruct (url_pathname url); congruence.
    - right. injection H as <-. rewrite <- E.
      destruct (trim_spec g) as (a & b & _ & _ & _ & Hl & Ht).
      split; [rewrite E; discriminate|]. split; [exact Hl|].
      split; [exact Ht|]. eapply occurs_trans; [apply trim_occurs | exact Hocc]. }
  destruct (title_match content) as [g|] eqn:Et.
  - apply Hg. apply title_group_occurs. exact Et.
  - destruct (heading_match content) as [h|] eqn:Eh.
    + apply Hg. apply heading_group_occurs. exact Eh.
    + intros H. left. unfold new_URL_pathname in H.
      destruct (url_pathname url); congruence.
Qed.

End TitleFacts.

Lemma getTitle_result_shape_witness :
  getTitle simple_url_pathname (js "<title> Cats </title>")
    (js "https://a.com/1") = Return (js "Cats")
  /\ (simple_url_pathname (js "https://a.com/1") = Some (js "Cats")
      \/ (js "Cats" <> [] /\ no_leading_ws (js "Cats")
          /\ no_trailing_ws (js "Cats")
          /\ occurs (js "Cats") (js "<title> Cats </title>"))).
Proof.
  assert (H : getTitle simple_url_pathname (js "<title> Cats </title>")
                (js "https://a.com/1") = Return (js "Cats")) by reflexivity.
  split; [exact H|].
  exact (getTitle_result_shape simple_url_pathname _ _ _ H).
Defined.

(** ** The tabular export: what a file determines *)

Open Scope Z_scope.

Lemma digit_char_inj a b :
  0 <= a < 10 -> 0 <= b < 10 -> digit_char a = digit_char b -> a = b.
Proof. unfold digit_char. lia. Qed.

Lemma pad2_inj a b :
  0 <= a < 100 -> 0 <= b < 100 -> pad2 a = pad2 b -> a = b.
Proof.
  intros Ha Hb H. unfold pad2 in H. injection H as H1 H0.
  apply digit_char_inj in H1; [|apply Z.mod_pos_bound; lia ..].
  apply digit_char_inj in H0; [|apply Z.mod_pos_bound; lia ..].
  revert H1 H0. Z.div_mod_to_equations. lia.
Qed.

Lemma pad3_inj a b :
  0 <= a < 1000 -> 0 <= b < 1000 -> pad3 a = pad3 b -> a = b.
Proof.
  intros Ha Hb H. unfold pad3, pad2 in H. injection H as H2 H1 H0.
  apply digit_char_inj in H2; [|apply Z.mod_pos_bound; lia ..].
  apply digit_char_inj in H1; [|apply Z.mod_pos_bound; lia ..].
  apply digit_char_inj in H0; [|apply Z.mod_pos_bound; lia ..].
  revert H2 H1 H0. Z.div_mod_to_equations. lia.
Qed.

Lemma pad4_inj a b :
  0 <= a < 10000 -> 0 <= b < 10000 -> pad4 a = pad4 b -> a = b.
Proof.
  intros Ha Hb H. unfold pad4, pad3, pad2 in H. injection H as H3 H2 H1 H0.
  apply digit_char_inj in H3; [|apply Z.mod_pos_bound; lia ..].
  apply digit_char_inj in H2; [|apply Z.mod_pos_bound; lia ..].
  apply digit_char_inj in H1; [|apply Z.mod_pos_bound; lia ..].
  apply digit_char_inj in H0; [|apply Z.mod_pos_bound; lia ..].
  revert H3 H2 H1 H0. Z.div_mod_to_equations. lia.
Qed.

Lemma pad6_inj a b :
  0 <= a < 1000000 -> 0 <= b < 1000000 -> pad6 a = pad6 b -> a = b.
Proof.
  intros Ha Hb H. unfold pad6, pad4, pad3, pad2 in H.
  injection H as H5 H4 H3 H2 H1 H0.
  apply digit_char_inj in H5; [|apply Z.mod_pos_bound; lia ..].
  apply digit_char_inj in H4; [|apply Z.mod_pos_bound; lia ..].
  apply digit_char_inj in H3; [|apply Z.mod_pos_bound; lia ..].
  apply digit_char_inj in H2; [|apply Z.mod_pos_bound; lia ..].
  apply digit_char_inj in H1; [|apply Z.mod_pos_bound; lia ..].
  apply digit_char_inj in H0; [|apply Z.mod_pos_bound; lia ..].
  revert H5 H4 H3 H2 H1 H0. Z.div_mod_to_equations. lia.
Qed.

Lemma iso_year_length y :
  length (iso_year y) = if (0 <=? y) && (y <=? 9999) then 4%nat else 7%nat.
Proof.
  unfold iso_year. destruct ((0 <=? y) && (y <=? 9999)); [reflexivity|].
  destruct (y <? 0); reflexivity.
Qed.

Lemma iso_year_inj y y' :
  -999999 <= y <= 999999 -> -999999 <= y' <= 999999 ->
  iso_year y = iso_year y' -> y = y'.
Proof.
  intros Hy Hy' H. pose proof (f_equal (@length N) H) as Hl.
  rewrite !iso_year_length in Hl. unfold iso_year in H.
  destruct ((0 <=? y) && (y <=? 9999)) eqn:E;
    destruct ((0 <=? y') && (y' <=? 9999)) eqn:E'; try discriminate.
  - apply andb_true_iff in E as [E1 E2]. apply andb_true_iff in E' as [E1' E2'].
    apply pad4_inj in H; lia.
  - apply andb_false_iff in E. apply andb_false_iff in E'.
    rewrite !Z.leb_gt in E, E'.
    destruct (y <? 0) eqn:F; destruct (y' <? 0) eqn:F';
      try discriminate; apply (f_equal (@tl N)) in H; cbn [tl] in H;
      rewrite ?Z.ltb_lt, ?Z.ltb_ge in F, F'; apply pad6_inj in H; lia.
Qed.

(** A date-time string denotes one instant. *)
Lemma iso8601_instant_inj t t' s :
  iso8601_instant t s -> iso8601_instant t' s -> t = t'.
Proof.
  intros (y & mo & d & h & mi & sec & ms & Hs & Hy & Hmo & Hd & Hh & Hmi
          & Hsec & Hms & ->)
         (y' & mo' & d' & h' & mi' & sec' & ms' & Hs' & Hy' & Hmo' & Hd'
          & Hh' & Hmi' & Hsec' & Hms' & ->).
  assert (Hdm : forall y m, 1 <= m <= 12 -> days_in_month y m <= 31).
  { intros yy m Hm. unfold days_in_month.
    destruct (m =? 2) eqn:E2; [destruct (is_leap_year yy); lia|].
    repeat match goal with
           | |- context [if ?b then _ else _] => destruct b
           end; lia. }
  pose proof (Hdm y mo Hmo). pose proof (Hdm y' mo' Hmo').
  rewrite Hs in Hs'.
  pose proof (f_equal (@length N) Hs') as Hl.
  rewrite !length_app in Hl. cbn [length pad2 pad3 js map list_ascii_of_string]
    in Hl.
  apply app_inj_1 in Hs' as [Ey Hs']; [|lia].
  apply iso_year_inj in Ey; [|lia ..]. subst y'.
  apply (app_inj_1 (js "-")) in Hs' as [_ Hs']; [|reflexivity].
  apply app_inj_1 in Hs' as [Em Hs']; [|reflexivity].
  apply pad2_inj in Em; [|lia ..]. subst mo'.
  apply (app_inj_1 (js "-")) in Hs' as [_ Hs']; [|reflexivity].
  apply app_inj_1 in Hs' as [Ed Hs']; [|reflexivity].
  apply pad2_inj in Ed; [|lia ..]. subst d'.
  apply (app_inj_1 (js "T")) in Hs' as [_ Hs']; [|reflexivity].
  apply app_inj_1 in Hs' as [Eh Hs']; [|reflexivity].
  apply pad2_inj in Eh; [|lia ..]. subst h'.
  apply (app_inj_1 (js ":")) in Hs' as [_ Hs']; [|reflexivity].
  apply app_inj_1 in Hs' as [Emi Hs']; [|reflexivity].
  apply pad2_inj in Emi; [|lia ..]. subst mi'.
  apply (app_inj_1 (js ":")) in Hs' as [_ Hs']; [|reflexivity].
  apply app_inj_1 in Hs' as [Es Hs']; [|reflexivity].
  apply pad2_inj in Es; [|lia ..]. subst sec'.
  apply (app_inj_1 (js ".")) in Hs' as [_ Hs']; [|reflexivity].
  apply app_inj_1 in Hs' as [Ems _]; [|reflexivity].
  apply pad3_inj in Ems; [|lia ..]. subst ms'.
  reflexivity.
Qed.

Lemma toISOString_valid t s : toISOString t = Return s -> Z.abs t <= maxTime.
Proof.
  unfold toISOString. destruct (Z.abs t <=? maxTime) eqn:E; [|discriminate].
  intros _. apply Z.leb_le. exact E.
Qed.

(** Two time values with the same date-time string are equal. *)
Lemma toISOString_inj t t' s :
  toISOString t = Return s -> toISOString t' = Return s -> t = t'.
Proof.
  intros H H'.
  destruct (toISOString_spec t (toISOString_valid t s H)) as (s1 & E1 & I1).
  destruct (toISOString_spec t' (toISOString_valid t' s H')) as (s2 & E2 & I2).
  assert (s1 = s) by congruence. assert (s2 = s) by congruence. subst s1 s2.
  eapply iso8601_instant_inj; eassumption.
Qed.

Close Scope Z_scope.

Lemma number_to_string_inj n m :
  number_to_string n = number_to_string m -> n = m.
Proof.
  intros H.
  assert (He : JSONFacts.ends_number []) by (intros c Hc; discriminate).
  pose proof (JSONFacts.parse_number_print n [] He) as Hn.
  pose proof (JSONFacts.parse_number_print m [] He) as Hm.
  rewrite H in Hn. congruence.
Qed.

Lemma double_quotes_cons x a :
  double_quotes (x :: a)
  = (if (x =? DQUOTE)%N then [DQUOTE; DQUOTE] else [x]) ++ double_quotes a.
Proof. reflexivity. Qed.

Lemma double_quotes_delimited a b r1 r2 :
  head r1 <> Some DQUOTE -> head r2 <> Some DQUOTE ->
  double_quotes a ++ DQUOTE :: r1 = double_quotes b ++ DQUOTE :: r2 ->
  a = b /\ r1 = r2.
Proof.
  intros H1 H2. revert b. induction a as [|x a IH]; intros [|y b] H;
    rewrite ?double_quotes_cons in H.
  - injection H as ->. auto.
  - exfalso. destruct (y =? DQUOTE)%N eqn:E; simpl in H.
    + injection H as H. apply H1. rewrite H. reflexivity.
    + injection H as H _. apply N.eqb_neq in E. congruence.
  - exfalso. destruct (x =? DQUOTE)%N eqn:E; simpl in H.
    + injection H as H. apply H2. rewrite <- H. reflexivity.
    + injection H as H _. apply N.eqb_neq in E. congruence.
  - destruct (x =? DQUOTE)%N eqn:E; destruct (y =? DQUOTE)%N eqn:E';
      simpl in H.
    + apply N.eqb_eq in E, E'. subst x y.
      injection H as H. destruct (IH _ H) as [-> ->]. auto.
    + injection H as H _. subst y. rewrite N.eqb_refl in E'. discriminate.
    + injection H as H _. subst x. rewrite N.eqb_refl in E. discriminate.
    + injection H as -> H. destruct (IH _ H) as [-> ->]. auto.
Qed.

Lemma escapeCSV_cases s :
  (escapeCSV s = s /\ (COMMA ∉ s) /\ (DQUOTE ∉ s) /\ (NEWLINE ∉ s))
  \/ escapeCSV s = DQUOTE :: double_quotes s ++ [DQUOTE].
Proof.
  unfold escapeCSV.
  destruct (includes s [COMMA]) eqn:E1; [right; reflexivity|].
  destruct (includes s [DQUOTE]) eqn:E2; [right; reflexivity|].
  destruct (includes s [NEWLINE]) eqn:E3; [right; reflexivity|].
  left. split; [reflexivity|].
  rewrite <- !includes_char, E1, E2, E3. repeat split; discriminate.
Qed.

(** A field closed by a comma can be read back in one way only. *)
Lemma escapeCSV_delimited a b r1 r2 :
  escapeCSV a ++ COMMA :: r1 = escapeCSV b ++ COMMA :: r2 ->
  a = b /\ r1 = r2.
Proof.
  assert (Hmix : forall (u v : jsstring) r r',
            DQUOTE ∉ u ->
            u ++ COMMA :: r = (DQUOTE :: double_quotes v ++ [DQUOTE]) ++ r' ->
            False).
  { intros u v r r' Hu H. destruct u as [|c u]; simpl in H.
    - discriminate.
    - injection H as -> _. apply Hu. apply list_elem_of_here. }
  destruct (escapeCSV_cases a) as [(-> & Ha & Hqa & _) | ->];
    destruct (escapeCSV_cases b) as [(-> & Hb & Hqb & _) | ->]; intros H.
  - apply not_elem_of_app_cons_inv_l in H as (-> & _ & ->); auto.
  - exfalso. eapply Hmix; eassumption.
  - exfalso. symmetry in H. eapply Hmix; eassumption.
  - simpl in H. injection H as H. rewrite <- !app_assoc in H. simpl in H.
    apply double_quotes_delimited in H as [-> H]; [|discriminate ..].
    injection H as ->. auto.
Qed.

(** X7: two strings with the same field are equal: escaping loses nothing. *)
Theorem escapeCSV_injective a b : escapeCSV a = escapeCSV b -> a = b.
Proof.
  intros H.
  apply (escapeCSV_delimited a b [] []). rewrite H. reflexivity.
Qed.

(** A text without a character [c], and what follows it, which is nothing
    or starts with [c]. *)
Lemma split_at_mark (c : N) a b r1 r2 :
  c ∉ a -> c ∉ b ->
  (r1 = [] \/ head r1 = Some c) -> (r2 = [] \/ head r2 = Some c) ->
  a ++ r1 = b ++ r2 -> a = b /\ r1 = r2.
Proof.
  intros Ha Hb H1 H2. revert b Hb. induction a as [|x a IH]; intros [|y b] Hb H.
  - auto.
  - exfalso. simpl in H. apply not_elem_of_cons in Hb as [Hy _].
    destruct H1 as [-> | H1]; [discriminate|]. subst r1. simpl in H1.
    congruence.
  - exfalso. simpl in H. apply not_elem_of_cons in Ha as [Hx _].
    destruct H2 as [-> | H2]; [discriminate|]. subst r2. simpl in H2.
    congruence.
  - simpl in H. injection H as -> H.
    apply not_elem_of_cons in Ha as [_ Ha].
    apply not_elem_of_cons in Hb as [_ Hb].
    destruct (IH Ha b Hb H) as [-> ->]. auto.
Qed.

Lemma plain_no_char (c : N) s :
  csv_plain c = false -> forallb csv_plain s = true -> c ∉ s.
Proof.
  intros Hc Hs Hin. rewrite forallb_forall in Hs.
  apply list_elem_of_In in Hin. apply Hs in Hin. congruence.
Qed.

(** The columns of the tabular export, the status as it is printed. *)
Definition same_columns (p q : StoredPage) : Prop :=
  url p = url q /\ domain p = domain q
  /\ status_or_empty (status p) = status_or_empty (status q)
  /\ contentSize p = contentSize q /\ timestamp p = timestamp q.

Lemma csv_row_columns p q : same_columns p q -> csv_row p = csv_row q.
Proof.
  intros (H1 & H2 & H3 & H4 & H5). unfold csv_row.
  rewrite H1, H2, H3, H4, H5. reflexivity.
Qed.

(** A row, followed by nothing or by a line feed, can be read back in one
    way only. *)
Lemma csv_row_delimited p q row row' r1 r2 :
  csv_row p = Return row -> csv_row q = Return row' ->
  (r1 = [] \/ head r1 = Some NEWLINE) -> (r2 = [] \/ head r2 = Some NEWLINE) ->
  row ++ r1 = row' ++ r2 -> same_columns p q /\ r1 = r2.
Proof.
  unfold csv_row. intros Hp Hq H1 H2 H.
  destruct (toISOString (timestamp p)) as [iso|] eqn:Ep; [|discriminate].
  destruct (toISOString (timestamp q)) as [iso'|] eqn:Eq; [|discriminate].
  cbn [cbind] in Hp, Hq.
  change (js ",") with [COMMA] in Hp, Hq.
  injection Hp as <-. injection Hq as <-.
  repeat (rewrite <- app_assoc in H || rewrite <- app_comm_cons in H).
  apply escapeCSV_delimited in H as [Hu H].
  apply escapeCSV_delimited in H as [Hd H].
  apply not_elem_of_app_cons_inv_l in H as (Hst & _ & H);
    [|apply plain_no_char; [reflexivity | apply status_or_empty_plain] ..].
  apply not_elem_of_app_cons_inv_l in H as (Hsz & _ & H);
    [|apply plain_no_char; [reflexivity | apply number_to_string_plain] ..].
  apply (split_at_mark NEWLINE) in H as [Hiso Hr]; try assumption;
    [|apply plain_no_char;
        [reflexivity | eapply toISOString_plain; eassumption] ..].
  split; [|exact Hr]. subst iso'.
  split; [exact Hu|]. split; [exact Hd|]. split; [exact Hst|].
  split; [apply number_to_string_inj; exact Hsz|].
  eapply toISOString_inj; eassumption.
Qed.

(** What follows the first row in the joined rows. *)
Definition after_row (rows : list jsstring) : jsstring :=
  match rows with
  | [] => []
  | _ :: _ => NEWLINE :: join [NEWLINE] rows
  end.

Lemma join_rows row rows :
  join [NEWLINE] (row :: rows) = row ++ after_row rows.
Proof. destruct rows; simpl; [rewrite app_nil_r|]; reflexivity. Qed.

Lemma after_row_mark rows :
  after_row rows = [] \/ head (after_row rows) = Some NEWLINE.
Proof. destruct rows; [left | right]; reflexivity. Qed.

Lemma map_completion_cons {A B} (f : A -> completion B) a l bs :
  map_completion f (a :: l) = Return bs ->
  exists b bs', bs = b :: bs' /\ f a = Return b
                /\ map_completion f l = Return bs'.
Proof.
  simpl. destruct (f a) as [b|]; [|discriminate]. simpl.
  destruct (map_completion f l) as [bs'|]; [|discriminate]. simpl.
  intros H. injection H as <-. eauto.
Qed.

Lemma csv_row_not_nil p row : csv_row p = Return row -> row <> [].
Proof.
  unfold csv_row. destruct (toISOString (timestamp p)); [|discriminate].
  simpl. intros H. injection H as <-. intros E.
  apply (f_equal (@length N)) in E. rewrite !length_app in E. simpl in E. lia.
Qed.

Lemma csv_rows_columns ps : forall qs rows rows',
  map_completion csv_row ps = Return rows ->
  map_completion csv_row qs = Return rows' ->
  join [NEWLINE] rows = join [NEWLINE] rows' ->
  Forall2 same_columns ps qs.
Proof.
  induction ps as [|p ps IH]; intros [|q qs] rows rows' Hp Hq H.
  - constructor.
  - exfalso. simpl in Hp. injection Hp as <-.
    apply map_completion_cons in Hq as (r & rs & -> & Hr & _).
    rewrite join_rows in H. simpl in H. symmetry in H.
    apply app_eq_nil in H as [H _]. eapply csv_row_not_nil; eassumption.
  - exfalso. simpl in Hq. injection Hq as <-.
    apply map_completion_cons in Hp as (r & rs & -> & Hr & _).
    rewrite join_rows in H. simpl in H.
    apply app_eq_nil in H as [H _]. eapply csv_row_not_nil; eassumption.
  - apply map_completion_cons in Hp as (r & rs & -> & Hr & Hrs).
    apply map_completion_cons in Hq as (r' & rs' & -> & Hr' & Hrs').
    rewrite !join_rows in H.
    apply (csv_row_delimited p q) in H as [Hc Ha];
      [|assumption | assumption | apply after_row_mark ..].
    constructor; [exact Hc|].
    destruct rs as [|r1 rs]; destruct rs' as [|r1' rs']; try discriminate.
    + destruct ps; [|apply map_completion_cons in Hrs as (? & ? & ? & _);
                     discriminate].
      destruct qs; [|apply map_completion_cons in Hrs' as (? & ? & ? & _);
                     discriminate].
      constructor.
    + eapply IH; [exact Hrs | exact Hrs'|]. simpl in Ha. injection Ha as Ha.
      exact Ha.
Qed.

Section TabularFacts.
Variable now_iso : jsstring.

(** X8: two tabular exports that both succeed have the same content exactly
    when they have as many pages and these agree, row by row, on url,
    domain, printed status, content size and timestamp: the file tells these
    columns of every page, and nothing else of it. *)
Theorem csv_export_determines_columns (pages pages' : list StoredPage)
    (prefix prefix' : jsstring) (a a' : Artifact) :
  exportPages now_iso pages csv prefix = Return a ->
  exportPages now_iso pages' csv prefix' = Return a' ->
  blob a = blob a' <-> Forall2 same_columns pages pages'.
Proof.
  unfold exportPages. intros H H'.
  destruct (map_completion csv_row pages) as [rows|] eqn:E; [|discriminate].
  destruct (map_completion csv_row pages') as [rows'|] eqn:E'; [|discriminate].
  cbn [cbind] in H, H'.
  assert (Ha : blob a = csv_header ++ join [NEWLINE] rows)
    by (injection H as <-; reflexivity).
  assert (Ha' : blob a' = csv_header ++ join [NEWLINE] rows')
    by (injection H' as <-; reflexivity).
  rewrite Ha, Ha'. clear H H' Ha Ha'.
  split.
  - intros Hb. apply app_inv_head in Hb.
    eapply csv_rows_columns; eassumption.
  - intros Hc. f_equal. f_equal.
    assert (Hm : map_completion csv_row pages = map_completion csv_row pages').
    { clear E E'. induction Hc as [|p q ps qs Hpq _ IH]; [reflexivity|].
      simpl. rewrite (csv_row_columns p q Hpq), IH. reflexivity. }
    congruence.
Qed.

(** The two ways an export ends. *)
Lemma exportPages_outcomes (pages : list StoredPage) (format : ExportFormat)
    (prefix : jsstring) :
  (format = csv /\ Exists (fun p => ~ valid_time p) pages
   /\ exportPages now_iso pages format prefix = Throw RangeError)
  \/ (~ (format = csv /\ Exists (fun p => ~ valid_time p) pages)
      /\ exists a, exportPages now_iso pages format prefix = Return a).
Proof.
  assert (Hcsv : (map_completion csv_row pages = Throw RangeError
                  /\ Exists (fun p => ~ valid_time p) pages)
                 \/ ((exists rows, map_completion csv_row pages = Return rows)
                     /\ Forall valid_time pages)).
  { induction pages as [|p pages IH].
    - right. split; [exists []; reflexivity | constructor].
    - simpl. unfold csv_row at 1 3.
      destruct (Z_le_gt_dec (Z.abs (timestamp p)) maxTime) as [Hv | Hv].
      + destruct (toISOString_spec _ Hv) as (iso & -> & _). cbn [cbind].
        destruct IH as [[-> He] | [(rows & ->) Hf]]; cbn [cbind].
        * left. split; [reflexivity | apply Exists_cons_tl; exact He].
        * right. split; [eexists; reflexivity | constructor; assumption].
      + rewrite toISOString_throws by lia. left.
        split; [reflexivity|]. apply Exists_cons_hd. unfold valid_time. lia. }
  destruct format; cbn [exportPages];
    try (right; split; [intros [H _]; discriminate | eexists; reflexivity]).
  destruct Hcsv as [[-> He] | [(rows & ->) Hf]]; cbn [cbind].
  - left. auto.
  - right. split; [|eexists; reflexivity].
    intros [_ He]. apply Exists_exists in He as (p & Hin & Hn).
    rewrite Forall_forall in Hf. auto.
Qed.

(** X9: an export fails in one case only: the tabular export of pages one of
    which has a timestamp outside the range of a date; it throws the
    RangeError of the date, and emits nothing. *)
Theorem exportPages_failure (pages : list StoredPage) (format : ExportFormat)
    (prefix : jsstring) :
  (exportPages now_iso pages format prefix = Throw RangeError
   <-> format = csv /\ Exists (fun p => ~ valid_time p) pages)
  /\ ((exists a, exportPages now_iso pages format prefix = Return a)
      <-> ~ (format = csv /\ Exists (fun p => ~ valid_time p) pages)).
Proof.
  destruct (exportPages_outcomes pages format prefix)
    as [(Hf & He & ->) | (Hn & a & ->)].
  - split; split; [auto | auto | intros (a & H); discriminate
                  | intros H; destruct H; auto].
  - split; split; [discriminate | intros H; destruct (Hn H)
                  | intros _; exact Hn | intros _; eexists; reflexivity].
Qed.

(** X10: every page goes into the HTML export as it is: the export holds,
    for each page, the comment with its URL followed by its content, code
    unit for code unit. *)
Theorem html_export_verbatim (pages : list StoredPage) (prefix : jsstring) :
  exists a,
    exportPages now_iso pages html prefix = Return a
    /\ Forall (fun p => occurs (js "<!-- URL: " ++ url p ++ js " -->"
                                  ++ [NEWLINE] ++ content p) (blob a))
              pages.
Proof.
  eexists. split; [reflexivity|]. cbn [blob].
  apply Forall_forall. intros p Hp.
  do 8 apply occurs_app_r. apply occurs_app_l.
  apply (occurs_join (html_page p)).
  apply list_elem_of_In, in_map, list_elem_of_In, Hp.
Qed.

End TabularFacts.

Lemma escapeCSV_injective_witness :
  escapeCSV (js "a,b") = escapeCSV (js "a,b") /\ js "a,b" = js "a,b".
Proof.
  assert (H : escapeCSV (js "a,b") = escapeCSV (js "a,b")) by reflexivity.
  split; [exact H|]. exact (escapeCSV_injective _ _ H).
Defined.

(** The first sample page with another content. *)
Definition cats_page_edited : StoredPage :=
  {| url := url cats_page; domain := domain cats_page;
     content := js "<p>rewritten</p>"; status := status cats_page;
     contentSize := contentSize cats_page; timestamp := timestamp cats_page |}.

Definition cats_csv : Artifact :=
  {| blob := js "url,domain,status,content_size,timestamp" ++ [NEWLINE]
             ++ js "https://a.com/1,a.com,200,40,2023-11-14T22:13:20.000Z";
     filename := js "kb-2024-05-06.csv";
     mimeType := js "text/csv" |}.

Lemma csv_export_determines_columns_witness :
  exportPages (js "2024-05-06T01:02:03.004Z") [cats_page] csv (js "kb")
  = Return cats_csv
  /\ exportPages (js "2024-05-06T01:02:03.004Z") [cats_page_edited] csv
       (js "kb") = Return cats_csv
  /\ (blob cats_csv = blob cats_csv
      <-> Forall2 same_columns [cats_page] [cats_page_edited]).
Proof.
  assert (H1 : exportPages (js "2024-05-06T01:02:03.004Z") [cats_page] csv
                 (js "kb") = Return cats_csv) by (vm_compute; reflexivity).
  assert (H2 : exportPages (js "2024-05-06T01:02:03.004Z") [cats_page_edited]
                 csv (js "kb") = Return cats_csv) by (vm_compute; reflexivity).
  split; [exact H1|]. split; [exact H2|].
  exact (csv_export_determines_columns _ _ _ _ _ _ _ H1 H2).
Defined.

(** ** The export handlers *)

Lemma collect_pages_spec ds allPages q dsw rs st rd :
  collect_pages ds allPages
    {| searchQuery := q; domains := dsw; searchResults := rs; store := st;
       reads := rd |}
  = (allPages
       ++ flat_map (fun d => default [] (st !! DomainInfo.domain d)) ds,
     {| searchQuery := q; domains := dsw; searchResults := rs; store := st;
        reads := rd ++ List.map DomainInfo.domain ds |}).
Proof.
  revert allPages rd; induction ds as [|d ds IH]; intros allPages rd; simpl.
  - unfold ret. rewrite !app_nil_r. reflexivity.
  - unfold bind, getPagesByDomain. simpl. rewrite IH.
    rewrite <- !app_assoc. reflexivity.
Qed.

(** The state of [search] after every indexed domain was read once. *)
Definition after_reads (w : World) : World :=
  {| searchQuery := searchQuery w; domains := domains w;
     searchResults := searchResults w; store := store w;
     reads := reads w ++ List.map DomainInfo.domain (domains w) |}.

Section HandlerFacts.
Variable now_iso : jsstring.

Lemma exportAll_run (st : AppState) :
  exportAll now_iso st
  = match exportPages now_iso (corpus (world st)) (exportFormat st)
            (js "knowledge-base") with
    | Return a =>
        (Return tt,
         {| world := after_reads (world st); exportFormat := exportFormat st;
            exporting := false; downloads := downloads st ++ [a] |})
    | Throw e =>
        (Throw e,
         {| world := after_reads (world st); exportFormat := exportFormat st;
            exporting := false; downloads := downloads st |})
    end.
Proof.
  destruct st as [[q ds rs sto rd] f ex dl].
  unfold exportAll, hbind, try_finally, setExporting, lift, getDomains,
    getExportFormat, call_exportPages, downloadBlob, after_reads, corpus.
  cbn [world exportFormat exporting downloads searchQuery domains
       searchResults store reads].
  rewrite collect_pages_spec.
  cbn [app world exportFormat exporting downloads].
  destruct (exportPages now_iso _ f (js "knowledge-base")); reflexivity.
Qed.

(** X12: Download All reads every indexed domain once, in order, and exports
    the pages [search] scans, in scan order, under the name knowledge-base:
    it ends as that export does, and an artifact is downloaded exactly when
    the export succeeds. Whether the export succeeds or throws, the
    [exporting] flag is off afterwards, and the format is not touched. *)
Theorem exportAll_outcome (st : AppState) :
  let export := exportPages now_iso (corpus (world st)) (exportFormat st)
                  (js "knowledge-base") in
  let st' := snd (exportAll now_iso st) in
  world st' = after_reads (world st)
  /\ exportFormat st' = exportFormat st
  /\ exporting st' = false
  /\ match export with
     | Return a =>
         fst (exportAll now_iso st) = Return tt
         /\ downloads st' = downloads st ++ [a]
     | Throw e =>
         fst (exportAll now_iso st) = Throw e
         /\ downloads st' = downloads st
     end.
Proof.
  cbv zeta. rewrite exportAll_run.
  destruct (exportPages now_iso (corpus (world st)) (exportFormat st)
              (js "knowledge-base")); cbn [fst snd]; auto.
Qed.


(** The empty document of a format: what an export of no page holds. *)
Definition empty_document (f : ExportFormat) (filenamePrefix : jsstring)
  : jsstring :=
  match f with
  | json => js "[]"
  | csv => js "url,domain,status,content_size,timestamp" ++ [NEWLINE]
  | markdown => []
  | html =>
      js "<!DOCTYPE html><html><head><meta charset=" ++ [DQUOTE]
        ++ js "utf-8" ++ [DQUOTE] ++ js "><title>" ++ filenamePrefix
        ++ js " Export</title></head><body>" ++ [NEWLINE; NEWLINE]
        ++ js "</body></html>"
  end.

(** X14: the export of a domain the store has no page of does not fail: in
    every format it downloads the empty document, under the name of the
    domain, and the read is logged. *)
Theorem exportDomain_unknown (st : AppState) (d : jsstring) :
  store (world st) !! d = None ->
  exportDomain now_iso d st
  = (Return tt,
     {| world :=
          {| searchQuery := searchQuery (world st);
             domains := domains (world st);
             searchResults := searchResults (world st);
             store := store (world st);
             reads := reads (world st) ++ [d] |};
        exportFormat := exportFormat st;
        exporting := exporting st;
        downloads :=
          downloads st
            ++ [ {| blob := empty_document (exportFormat st) d;
                    filename := d ++ js "-" ++ slice now_iso 0 10
                                  ++ extension (exportFormat st);
                    mimeType :=
                      match exportFormat st with
                      | json => js "application/json"
                      | csv => js "text/csv"
                      | markdown => js "text/markdown"
                      | html => js "text/html"
                      end |} ] |}).
Proof.
  intros Hd. destruct st as [[q ds rs sto rd] f ex dl].
  cbn [world store] in Hd.
  unfold exportDomain, hbind, lift, getPagesByDomain, getExportFormat,
    call_exportPages, downloadBlob.
  cbn [world exportFormat exporting downloads searchQuery domains
       searchResults store reads].
  rewrite Hd. cbn [default].
  destruct f; reflexivity.
Qed.

End HandlerFacts.

(** The pages the store holds for a domain. *)
Definition stored_pages (w : World) (d : DomainInfo.t) : list StoredPage :=
  default [] (store w !! DomainInfo.domain d).

(** The aggregates of a domain are those of its stored pages. *)
Definition aggregates_agree (w : World) (d : DomainInfo.t) : Prop :=
  DomainInfo.pageCount d = Z.of_nat (length (stored_pages w d))
  /\ DomainInfo.totalSize d
     = fold_right Z.add 0%Z (List.map contentSize (stored_pages w d)).

Lemma fold_left_sum {A} (f : A -> Z) l z :
  fold_left (fun s a => (s + f a)%Z) l z
  = (z + fold_right Z.add 0%Z (List.map f l))%Z.
Proof.
  revert z; induction l as [|a l IH]; intros z; simpl; [lia|].
  rewrite IH. lia.
Qed.

(** X15: when the aggregates of every indexed domain agree with the store,
    the two totals shown are the number of pages of the corpus, which
    Download All exports and [search] scans, and the sum of their content
    sizes. *)
Theorem totals_of_corpus (w : World) :
  Forall (aggregates_agree w) (domains w) ->
  totalPages (domains w) = Z.of_nat (length (corpus w))
  /\ totalSize (domains w)
     = fold_right Z.add 0%Z (List.map contentSize (corpus w)).
Proof.
  unfold totalPages, totalSize, corpus. rewrite !fold_left_sum.
  assert (Hf : forall (l : list Z) z,
            fold_right Z.add z l = (fold_right Z.add 0 l + z)%Z).
  { induction l as [|x l IHl]; intros z; simpl; [lia|]. rewrite IHl. lia. }
  induction 1 as [|d ds [Hc Hs] _ [IH1 IH2]]; [split; reflexivity|].
  unfold stored_pages in Hc, Hs.
  cbn [List.map fold_right flat_map].
  rewrite length_app, map_app, fold_right_app, Nat2Z.inj_add.
  rewrite Hc, Hs.
  rewrite (Hf _ (fold_right Z.add 0%Z _)).
  split; lia.
Qed.

(** A store of two pages with the aggregates of its one domain. *)
Definition counted_world : World :=
  {| searchQuery := [];
     domains := [ {| DomainInfo.domain := js "a.com";
                     DomainInfo.pageCount := 2;
                     DomainInfo.totalSize := 75 |} ];
     searchResults := [];
     store := {[ js "a.com" := [cats_page; dogs_page] ]};
     reads := [] |}.

Lemma totals_of_corpus_witness :
  Forall (aggregates_agree counted_world) (domains counted_world)
  /\ totalPages (domains counted_world)
     = Z.of_nat (length (corpus counted_world))
  /\ totalSize (domains counted_world)
     = fold_right Z.add 0%Z (List.map contentSize (corpus counted_world)).
Proof.
  assert (H : Forall (aggregates_agree counted_world) (domains counted_world))
    by (constructor; [split; reflexivity | constructor]).
  split; [exact H|]. exact (totals_of_corpus counted_world H).
Defined.

(** The sample store with a format selected and nothing downloaded yet. *)
Definition sample_state (f : ExportFormat) : AppState :=
  {| world := sample_world "cats"; exportFormat := f; exporting := false;
     downloads := [] |}.

Example exportAll_ex :
  exportAll (js "2024-05-06T01:02:03.004Z") (sample_state csv)
  = (Return tt,
     {| world := after_reads (sample_world "cats"); exportFormat := csv;
        exporting := false;
        downloads :=
          [ {| blob := js "url,domain,status,content_size,timestamp"
                       ++ [NEWLINE]
                       ++ js "https://a.com/1,a.com,200,40,2023-11-14T22:13:20.000Z"
                       ++ [NEWLINE]
                       ++ js "https://a.com/2,a.com,200,35,2023-11-14T22:13:20.000Z";
               filename := js "knowledge-base-2024-05-06.csv";
               mimeType := js "text/csv" |} ] |}).
Proof. vm_compute. reflexivity. Qed.

Lemma exportDomain_unknown_witness :
  store (world (sample_state json)) !! js "b.org" = None
  /\ downloads (snd (exportDomain (js "2024-05-06T01:02:03.004Z")
                       (js "b.org") (sample_state json)))
     = [ {| blob := js "[]"; filename := js "b.org-2024-05-06.json";
            mimeType := js "application/json" |} ].
Proof.
  assert (H : store (world (sample_state json)) !! js "b.org" = None)
    by reflexivity.
  split; [exact H|].
  rewrite (exportDomain_unknown (js "2024-05-06T01:02:03.004Z")
             (sample_state json) (js "b.org") H).
  reflexivity.
Defined.

(** ** The document export: the text of a section *)

(** X11: the text of a section of the document export, between the line of
    the URL and the rule, has at most 2003 characters, the 2000 of the cut
    and the ellipsis, and holds no markup tag. *)
Theorem markdown_section_text (p : StoredPage) :
  exists body,
    markdown_section p
    = (js "## " ++ markdown_title p ++ [NEWLINE; NEWLINE] ++ js "**URL:** "
         ++ url p ++ [NEWLINE; NEWLINE])
        ++ body ++ [NEWLINE; NEWLINE] ++ js "---" ++ [NEWLINE]
    /\ length body <= 2003
    /\ forall pre suf rest, body = pre ++ suf -> ~ tag_at_head suf rest.
Proof.
  set (text := trim (collapse_ws (strip_tags (content p)))).
  exists (slice text 0 2000
            ++ (if (2000 <? length text)%nat then js "..." else [])).
  split; [unfold markdown_section; fold text; rewrite <- !app_assoc;
          reflexivity|].
  change 2000%Z with (Z.of_nat 2000). rewrite slice_prefix.
  assert (Hi : inert text).
  { pose proof (plain_text_inert (content p)) as H.
    destruct (trim_spec (collapse_ws (strip_tags (content p))))
      as (a & b & E & _).
    rewrite E in H. apply inert_app_r, inert_app_l in H. exact H. }
  split.
  - rewrite length_app.
    assert (Hw : length (firstn 2000 text) <= 2000)
      by (rewrite length_take; lia).
    destruct (2000 <? length text)%nat;
      [change (length (js "...")) with 3 | change (length (@nil N)) with 0];
      lia.
  - intros pre suf rest. apply inert_no_tag.
    apply inert_app_plain; [apply inert_take; exact Hi | |];
      destruct (2000 <? length text)%nat; intros H;
      apply list_elem_of_In in H; simpl in H; intuition discriminate.
Qed.
